(** * Runtime payload schema interpreter: a shallow embedding

    This development embeds [include/schema_interpreter.h] (the C99
    interpreter: byte readers, decoder, encoder and binary schema loader)
    as Rocq functions and proves properties of it.

    Conventions of the embedding.
    - A C integer of width w is a [Z]; every conversion that can wrap in C
      is written out ([to_u8], [to_i32], ...).
    - A payload is a [list byte]; [buf_at] is the C expression [buf[i]].
      The C code tests the bounds before it reads; where it does not
      (an enum field of size 0 at the end of the buffer) C leaves the read
      undefined and [buf_at] yields 0.
    - [float] is IEEE 754 binary32 and [double] binary64, both as
      [spec_float] with the operations of [SpecFloat] (round to nearest,
      ties to even) at precision 24/53.
    - A [char name[32]] is a [string]; [strncpy31] is
      [strncpy(dst, src, SCHEMA_MAX_NAME_LEN - 1)] into a zeroed buffer.
    - The fixed arrays of the C structs are lists: a schema holds at most
      32 fields, a result 32 decoded fields, an encode buffer 256 bytes;
      what C does past these capacities is undefined and not modelled.
      [pos] is a [size_t] that stays far below 2^64 for every schema that
      fits the field array, so its additions are not reduced. *)

From Stdlib Require Import ZArith QArith List String Ascii Bool Lia.
From Stdlib Require Import Strings.Byte.
From Stdlib Require Import DecimalString.
From Stdlib Require Import Floats.SpecFloat.
Import ListNotations.
Local Open Scope Z_scope.

(** ** Configuration *)

Definition SCHEMA_MAX_FIELDS : Z := 32.
Definition SCHEMA_MAX_PAYLOAD : Z := 256.
Definition SCHEMA_MAX_NAME_LEN : Z := 32.
Definition SCHEMA_MAX_CASES : Z := 16.
Definition SCHEMA_MAX_LOOKUP : Z := 16.

(** ** Error codes *)

Definition SCHEMA_OK : Z := 0.
Definition SCHEMA_ERR_PARSE : Z := -1.
Definition SCHEMA_ERR_BUFFER : Z := -2.
Definition SCHEMA_ERR_OVERFLOW : Z := -3.
Definition SCHEMA_ERR_TYPE : Z := -4.
Definition SCHEMA_ERR_MATCH : Z := -5.
Definition SCHEMA_ERR_UNSUPPORTED : Z := -6.
Definition SCHEMA_ERR_MISSING : Z := -7.

(** ** Machine integers *)

Definition to_u8 (z : Z) : Z := z mod 2 ^ 8.
Definition to_u16 (z : Z) : Z := z mod 2 ^ 16.
Definition to_u32 (z : Z) : Z := z mod 2 ^ 32.
Definition to_u64 (z : Z) : Z := z mod 2 ^ 64.

(** Conversion to a signed type of [w] bits (two's complement). *)
Definition to_signed (w : Z) (z : Z) : Z :=
  (z + 2 ^ (w - 1)) mod 2 ^ w - 2 ^ (w - 1).

Definition to_i8 : Z -> Z := to_signed 8.
Definition to_i16 : Z -> Z := to_signed 16.
Definition to_i32 : Z -> Z := to_signed 32.
Definition to_i64 : Z -> Z := to_signed 64.

(** ** Buffers *)

Definition u8_of_byte (b : byte) : Z := Z.of_N (Byte.to_N b).

Definition byte_of_Z (z : Z) : byte :=
  match Byte.of_N (Z.to_N (to_u8 z)) with
  | Some b => b
  | None => x00
  end.

Definition buf_len (buf : list byte) : Z := Z.of_nat (List.length buf).

(** [buf[i]] *)
Definition buf_at (buf : list byte) (i : Z) : Z :=
  if i <? 0 then 0 else u8_of_byte (nth (Z.to_nat i) buf x00).

(** [buf + off]: the readers below take the buffer and the offset. *)

(** ** Byte reading utilities *)

Definition read_u8 (buf : list byte) (p : Z) : Z := buf_at buf p.

Definition read_u16_be (buf : list byte) (p : Z) : Z :=
  to_u16 (Z.lor (Z.shiftl (buf_at buf p) 8) (buf_at buf (p + 1))).

Definition read_u16_le (buf : list byte) (p : Z) : Z :=
  to_u16 (Z.lor (Z.shiftl (buf_at buf (p + 1)) 8) (buf_at buf p)).

Definition read_u24_be (buf : list byte) (p : Z) : Z :=
  to_u32 (Z.lor (Z.lor (Z.shiftl (buf_at buf p) 16)
                       (Z.shiftl (buf_at buf (p + 1)) 8))
                (buf_at buf (p + 2))).

Definition read_u24_le (buf : list byte) (p : Z) : Z :=
  to_u32 (Z.lor (Z.lor (Z.shiftl (buf_at buf (p + 2)) 16)
                       (Z.shiftl (buf_at buf (p + 1)) 8))
                (buf_at buf p)).

Definition read_u32_be (buf : list byte) (p : Z) : Z :=
  to_u32 (Z.lor (Z.lor (Z.lor (Z.shiftl (buf_at buf p) 24)
                              (Z.shiftl (buf_at buf (p + 1)) 16))
                       (Z.shiftl (buf_at buf (p + 2)) 8))
                (buf_at buf (p + 3))).

Definition read_u32_le (buf : list byte) (p : Z) : Z :=
  to_u32 (Z.lor (Z.lor (Z.lor (Z.shiftl (buf_at buf (p + 3)) 24)
                              (Z.shiftl (buf_at buf (p + 2)) 16))
                       (Z.shiftl (buf_at buf (p + 1)) 8))
                (buf_at buf p)).

Definition read_s8 (buf : list byte) (p : Z) : Z := to_i8 (buf_at buf p).

Definition read_s16_be (buf : list byte) (p : Z) : Z :=
  to_i16 (read_u16_be buf p).

Definition read_s16_le (buf : list byte) (p : Z) : Z :=
  to_i16 (read_u16_le buf p).

(** [if (val & 0x800000) val |= 0xFF000000; return (int32_t)val;] *)
Definition sign_extend_24 (val : Z) : Z :=
  let val' :=
    if Z.land val 0x800000 =? 0 then val
    else to_u32 (Z.lor val 0xFF000000) in
  to_i32 val'.

Definition read_s24_be (buf : list byte) (p : Z) : Z :=
  sign_extend_24 (read_u24_be buf p).

Definition read_s24_le (buf : list byte) (p : Z) : Z :=
  sign_extend_24 (read_u24_le buf p).

Definition read_s32_be (buf : list byte) (p : Z) : Z :=
  to_i32 (read_u32_be buf p).

Definition read_s32_le (buf : list byte) (p : Z) : Z :=
  to_i32 (read_u32_le buf p).

Definition read_u64_be (buf : list byte) (p : Z) : Z :=
  to_u64 (Z.lor (Z.shiftl (read_u32_be buf p) 32) (read_u32_be buf (p + 4))).

Definition read_u64_le (buf : list byte) (p : Z) : Z :=
  to_u64 (Z.lor (Z.shiftl (read_u32_le buf (p + 4)) 32) (read_u32_le buf p)).

Definition read_s64_be (buf : list byte) (p : Z) : Z :=
  to_i64 (read_u64_be buf p).

Definition read_s64_le (buf : list byte) (p : Z) : Z :=
  to_i64 (read_u64_le buf p).

(** ** IEEE 754 values

    [float] and [double] values are [spec_float]s; the two formats differ
    in the precision and exponent range the operations round to. *)

Module F32.
Definition prec : Z := 24.
Definition emax : Z := 128.
Definition of_Z (z : Z) : spec_float := binary_normalize prec emax z 0 false.
Definition add := SFadd prec emax.
Definition mul := SFmul prec emax.
Definition div := SFdiv prec emax.
Definition opp := SFopp.
Definition one : spec_float := of_Z 1.
Definition two : spec_float := of_Z 2.
End F32.

Module F64.
Definition prec : Z := 53.
Definition emax : Z := 1024.
Definition of_Z (z : Z) : spec_float := binary_normalize prec emax z 0 false.
Definition add := SFadd prec emax.
Definition sub := SFsub prec emax.
Definition mul := SFmul prec emax.
Definition div := SFdiv prec emax.
Definition opp := SFopp.
Definition eqb := SFeqb.
Definition ltb := SFltb.
Definition leb := SFleb.
Definition zero : spec_float := S754_zero false.
Definition one : spec_float := of_Z 1.
(** The decimal literal [n / 10^k] of the C source: the double nearest
    to that rational, which is what the correctly rounded quotient of
    the two exactly represented integers is. *)
Definition dec (n : Z) (k : Z) : spec_float := div (of_Z n) (of_Z (10 ^ k)).
End F64.

(** [(double)f] for a [float f]: exact. *)
Definition f32_to_f64 (x : spec_float) : spec_float :=
  match x with
  | S754_finite s m e => binary_normalize F64.prec F64.emax (cond_Zopp s (Zpos m)) e s
  | _ => x
  end.

(** [(float)d] for a [double d]: rounds to binary32. *)
Definition f64_to_f32 (x : spec_float) : spec_float :=
  match x with
  | S754_finite s m e => binary_normalize F32.prec F32.emax (cond_Zopp s (Zpos m)) e s
  | _ => x
  end.

(** The integer part of a finite value (rounding toward zero). *)
Definition sf_trunc (x : spec_float) : option Z :=
  match x with
  | S754_zero _ => Some 0
  | S754_finite s m e =>
      Some (cond_Zopp s (if 0 <=? e then Zpos m * 2 ^ e else Zpos m / 2 ^ (- e)))
  | _ => None
  end.

(** [(int64_t)d] and [(int)d].  C defines the conversion only when the
    truncated value fits the target type; outside that (and for NaN and
    the infinities) the embedding takes what the x86-64 conversion
    instruction returns, the most negative value of the type. *)
Definition f64_to_int (w : Z) (x : spec_float) : Z :=
  match sf_trunc x with
  | Some t => if (- 2 ^ (w - 1) <=? t) && (t <? 2 ^ (w - 1)) then t else - 2 ^ (w - 1)
  | None => - 2 ^ (w - 1)
  end.

Definition f64_to_i64 : spec_float -> Z := f64_to_int 64.
Definition f64_to_i32 : spec_float -> Z := f64_to_int 32.

(** Reinterpreting an unsigned integer as a floating-point value
    (the [union { uint32_t u; float f; }] of the readers), for a format
    with [mw] fraction bits and [ew] exponent bits.  [spec_float] has one
    NaN: the payload of a NaN is not kept. *)
Definition sf_of_bits (mw ew : Z) (u : Z) : spec_float :=
  let s := Z.testbit u (mw + ew) in
  let e := Z.land (Z.shiftr u mw) (2 ^ ew - 1) in
  let m := Z.land u (2 ^ mw - 1) in
  let bias := 2 ^ (ew - 1) - 1 in
  if e =? 0 then
    match m with
    | Zpos p => S754_finite s p (1 - bias - mw)
    | _ => S754_zero s
    end
  else if e =? 2 ^ ew - 1 then
    (if m =? 0 then S754_infinity s else S754_nan)
  else
    match m + 2 ^ mw with
    | Zpos p => S754_finite s p (e - bias - mw)
    | _ => S754_nan
    end.

(** The bit pattern of a value of the format (the [memcpy] of the
    encoder); a NaN is written as the quiet NaN with a zero payload. *)
Definition bits_of_sf (mw ew : Z) (x : spec_float) : Z :=
  let bias := 2 ^ (ew - 1) - 1 in
  let sign (s : bool) := if s then 2 ^ (mw + ew) else 0 in
  match x with
  | S754_zero s => sign s
  | S754_infinity s => sign s + Z.shiftl (2 ^ ew - 1) mw
  | S754_nan => Z.shiftl (2 ^ ew - 1) mw + 2 ^ (mw - 1)
  | S754_finite s m e =>
      if Zpos m <? 2 ^ mw then sign s + Zpos m
      else sign s + Z.shiftl (e + bias + mw) mw + (Zpos m - 2 ^ mw)
  end.

Definition f32_of_bits : Z -> spec_float := sf_of_bits 23 8.
Definition f64_of_bits : Z -> spec_float := sf_of_bits 52 11.
Definition bits_of_f32 : spec_float -> Z := bits_of_sf 23 8.
Definition bits_of_f64 : spec_float -> Z := bits_of_sf 52 11.

Definition read_f32_be (buf : list byte) (p : Z) : spec_float :=
  f32_of_bits (read_u32_be buf p).

Definition read_f32_le (buf : list byte) (p : Z) : spec_float :=
  f32_of_bits (read_u32_le buf p).

Definition read_f64_be (buf : list byte) (p : Z) : spec_float :=
  f64_of_bits (read_u64_be buf p).

Definition read_f64_le (buf : list byte) (p : Z) : spec_float :=
  f64_of_bits (read_u64_le buf p).

(** [for (int i = 0; i < n; i++) val = step val;] *)
Fixpoint repeat_step {A : Type} (step : A -> A) (n : nat) (val : A) : A :=
  match n with
  | O => val
  | S n' => repeat_step step n' (step val)
  end.

(** IEEE 754 half-precision decode, on the 16-bit pattern [h]. *)
Definition f16_decode (h : Z) : spec_float :=
  let sign := Z.land (Z.shiftr h 15) 1 in
  let exp := Z.land (Z.shiftr h 10) 0x1F in
  let frac := Z.land h 0x3FF in
  let neg := negb (sign =? 0) in
  if exp =? 0 then
    if frac =? 0 then S754_zero neg
    else
      (* subnormal *)
      let val := F32.div (F32.of_Z frac) (F32.of_Z 1024) in
      let val := F32.mul val (S754_finite false 8388608 (-37)) (* 2^-14 *) in
      if neg then F32.opp val else val
  else if exp =? 31 then
    if frac =? 0 then S754_infinity neg
    else S754_nan
  else
    let val := F32.add F32.one (F32.div (F32.of_Z frac) (F32.of_Z 1024)) in
    let actual_exp := exp - 15 in
    let val :=
      if 0 <? actual_exp
      then repeat_step (fun v => F32.mul v F32.two) (Z.to_nat actual_exp) val
      else repeat_step (fun v => F32.div v F32.two) (Z.to_nat (- actual_exp)) val in
    if neg then F32.opp val else val.

Definition read_f16_be (buf : list byte) (p : Z) : spec_float :=
  f16_decode (read_u16_be buf p).

(** [uint8_t swapped[2] = {buf[1], buf[0]}; return read_f16_be(swapped);] *)
Definition read_f16_le (buf : list byte) (p : Z) : spec_float :=
  f16_decode (to_u16 (Z.lor (Z.shiftl (buf_at buf (p + 1)) 8) (buf_at buf p))).

(** ** Bitfield extraction *)

(** Shifts.  The operands of [<<] and [>>] are promoted to [int] (32 bits)
    unless one of them is 64 bits wide.  C defines a shift only for a
    count below the width of the promoted left operand; for a larger
    count the embedding takes what the x86-64 shift instructions do, the
    count modulo that width (as [f64_to_int] follows the conversion
    instruction).  A left shift whose result does not fit is reduced to
    the width. *)
Definition shl_i32 (x n : Z) : Z := to_i32 (Z.shiftl x (n mod 32)).
Definition shr_i32 (x n : Z) : Z := Z.shiftr x (n mod 32).
Definition shl_i64 (x n : Z) : Z := to_i64 (Z.shiftl x (n mod 64)).

(** [(1 << width) - 1], an [int]. *)
Definition bit_mask (width : Z) : Z := to_i32 (shl_i32 1 width - 1).

(** [(byte >> start) & ((1 << width) - 1)], returned as a [uint8_t]. *)
Definition extract_bits (b start width : Z) : Z :=
  to_u8 (Z.land (shr_i32 b start) (bit_mask width)).

(** ** Type definitions *)

Inductive field_type_t :=
| FIELD_TYPE_U8 | FIELD_TYPE_U16 | FIELD_TYPE_U24 | FIELD_TYPE_U32 | FIELD_TYPE_U64
| FIELD_TYPE_S8 | FIELD_TYPE_S16 | FIELD_TYPE_S24 | FIELD_TYPE_S32 | FIELD_TYPE_S64
| FIELD_TYPE_F16 | FIELD_TYPE_F32 | FIELD_TYPE_F64
| FIELD_TYPE_BOOL | FIELD_TYPE_BITS | FIELD_TYPE_SKIP
| FIELD_TYPE_ASCII | FIELD_TYPE_HEX | FIELD_TYPE_BASE64 | FIELD_TYPE_BYTES
| FIELD_TYPE_OBJECT | FIELD_TYPE_MATCH | FIELD_TYPE_ENUM | FIELD_TYPE_BYTE_GROUP
| FIELD_TYPE_UDEC | FIELD_TYPE_SDEC | FIELD_TYPE_UNKNOWN.

Definition is_match (t : field_type_t) : bool :=
  match t with FIELD_TYPE_MATCH => true | _ => false end.

Definition is_skip (t : field_type_t) : bool :=
  match t with FIELD_TYPE_SKIP => true | _ => false end.

Inductive endian_t := ENDIAN_DEFAULT | ENDIAN_BIG | ENDIAN_LITTLE.

Definition is_big (e : endian_t) : bool :=
  match e with ENDIAN_BIG => true | _ => false end.

(** [field_value_t] is a union; a value records the member that was
    written last.  [V_zero] is the zeroed union. *)
Inductive field_value_t :=
| V_zero
| V_i64 (i : Z)
| V_u64 (u : Z)
| V_f64 (d : spec_float)
| V_b (b : bool)
| V_str (s : string)
| V_bytes (l : list Z).

Record lookup_entry_t := {
  le_key : Z;
  le_value : string
}.

Record case_def_t := {
  cs_match_value : Z;
  cs_match_list : list Z;      (* int[8]; entries a list lacks are 0 *)
  cs_range_min : Z;
  cs_range_max : Z;
  cs_is_default : bool;
  cs_field_start : Z;
  cs_field_count : Z
}.

Record field_def_t := {
  fd_name : string;
  fd_type : field_type_t;
  fd_size : Z;
  fd_bit_start : Z;
  fd_bit_width : Z;
  fd_consume : bool;
  fd_endian : endian_t;
  fd_mult : spec_float;
  fd_div : spec_float;
  fd_add : spec_float;
  fd_has_mult : bool;
  fd_has_div : bool;
  fd_has_add : bool;
  fd_var_name : string;
  fd_lookup : list lookup_entry_t;   (* lookup_count is its length *)
  fd_match_var : string;
  fd_cases : list case_def_t         (* case_count is its length *)
}.

Record decoded_field_t := {
  df_name : string;
  df_value : field_value_t;
  df_type : field_type_t;
  df_valid : bool
}.

Record schema_t := {
  sc_version : Z;
  sc_endian : endian_t;
  sc_fields : list field_def_t       (* field_count is its length *)
}.

Definition sc_field_count (s : schema_t) : Z := Z.of_nat (List.length (sc_fields s)).

(** The output list is [fields[0 .. field_count)]; the slot behind it is
    scratch space of [decode_field] and is not part of the result. *)
Record decode_result_t := {
  dr_fields : list decoded_field_t;
  dr_bytes_consumed : Z;
  dr_error_code : Z
}.

Definition dr_field_count (r : decode_result_t) : Z := Z.of_nat (List.length (dr_fields r)).

Definition var_context_t := list (string * Z).

(** ** Strings *)

Definition strncpy31 (s : string) : string := substring 0 31 s.

(** [s[0]], 0 for the empty string *)
Definition first_char (s : string) : ascii :=
  match s with
  | EmptyString => zero
  | String c _ => c
  end.

Definition nonempty (s : string) : bool :=
  match s with EmptyString => false | String _ _ => true end.

Definition starts_with_underscore (s : string) : bool :=
  Ascii.eqb (first_char s) "_"%char.

Definition ascii_of_Z (z : Z) : ascii := ascii_of_N (Z.to_N (to_u8 z)).

(** The C string held by a byte array: the bytes before the first NUL. *)
Fixpoint cstring_of_bytes (l : list Z) : string :=
  match l with
  | [] => EmptyString
  | b :: r => if b =? 0 then EmptyString else String (ascii_of_Z b) (cstring_of_bytes r)
  end.

(** [buf[pos], ..., buf[pos + n - 1]] *)
Fixpoint buf_slice (buf : list byte) (pos : Z) (n : nat) : list Z :=
  match n with
  | O => []
  | S n' => buf_at buf pos :: buf_slice buf (pos + 1) n'
  end.

(** [%d] *)
Definition string_of_int (z : Z) : string := NilZero.string_of_int (Z.to_int z).

Definition hex_chars : string := "0123456789ABCDEF".
Definition hex_chars_lower : string := "0123456789abcdef".
Definition b64 : string :=
  "ABCDEFGHIJKLMNOPQRSTUVWXYZabcdefghijklmnopqrstuvwxyz0123456789+/".

Definition char_at (s : string) (i : Z) : ascii :=
  match get (Z.to_nat i) s with
  | Some c => c
  | None => zero
  end.

(** ** Variable context management *)

Fixpoint var_update (vars : var_context_t) (name : string) (value : Z)
  : option var_context_t :=
  match vars with
  | [] => None
  | (n, v) :: rest =>
      if String.eqb n name then Some ((n, value) :: rest)
      else match var_update rest name value with
           | Some rest' => Some ((n, v) :: rest')
           | None => None
           end
  end.

Definition var_set (ctx : var_context_t) (name : string) (value : Z) : var_context_t :=
  match var_update ctx name value with
  | Some ctx' => ctx'
  | None =>
      if Z.of_nat (List.length ctx) <? SCHEMA_MAX_FIELDS
      then ctx ++ [(strncpy31 name, value)]
      else ctx
  end.

Fixpoint var_get (ctx : var_context_t) (name : string) : Z :=
  match ctx with
  | [] => 0
  | (n, v) :: rest => if String.eqb n name then v else var_get rest name
  end.

(** ** Schema initialization *)

Definition schema_init : schema_t :=
  {| sc_version := 0; sc_endian := ENDIAN_BIG; sc_fields := [] |}.

Definition schema_add_field (schema : schema_t) (field : field_def_t) : schema_t :=
  if sc_field_count schema <? SCHEMA_MAX_FIELDS
  then {| sc_version := sc_version schema;
          sc_endian := sc_endian schema;
          sc_fields := sc_fields schema ++ [field] |}
  else schema.

(** ** Decode single field *)

Record field_result_t := {
  fr_rc : Z;
  fr_pos : Z;
  fr_vars : var_context_t;
  fr_out : decoded_field_t
}.

Fixpoint lookup_find (l : list lookup_entry_t) (key : Z) : option string :=
  match l with
  | [] => None
  | e :: rest => if le_key e =? key then Some (le_value e) else lookup_find rest key
  end.

(** [if (has_mult) v *= mult; if (has_div [&& div != 0]) v /= div;
     if (has_add) v += add;] *)
Definition apply_modifiers (guard_div : bool) (field : field_def_t) (v : spec_float)
  : spec_float :=
  let v := if fd_has_mult field then F64.mul v (fd_mult field) else v in
  let v := if fd_has_div field &&
              (negb guard_div || negb (F64.eqb (fd_div field) F64.zero))
           then F64.div v (fd_div field) else v in
  if fd_has_add field then F64.add v (fd_add field) else v.

Definition hex_of_bytes (l : list Z) : string :=
  string_of_list_ascii
    (flat_map (fun b => [char_at hex_chars (Z.land (Z.shiftr b 4) 0x0F);
                         char_at hex_chars (Z.land b 0x0F)]) l).

Fixpoint base64_loop (buf : list byte) (pos in_len : Z) (fuel : nat)
                     (b out_idx : Z) : list ascii :=
  match fuel with
  | O => []
  | S fuel' =>
      if (b <? in_len) && (out_idx <? SCHEMA_MAX_NAME_LEN - 4) then
        let triple := Z.shiftl (buf_at buf (pos + b)) 16 in
        let triple := if b + 1 <? in_len
                      then Z.lor triple (Z.shiftl (buf_at buf (pos + b + 1)) 8)
                      else triple in
        let triple := if b + 2 <? in_len
                      then Z.lor triple (buf_at buf (pos + b + 2))
                      else triple in
        char_at b64 (Z.land (Z.shiftr triple 18) 0x3F)
        :: char_at b64 (Z.land (Z.shiftr triple 12) 0x3F)
        :: (if b + 1 <? in_len then char_at b64 (Z.land (Z.shiftr triple 6) 0x3F)
            else "="%char)
        :: (if b + 2 <? in_len then char_at b64 (Z.land triple 0x3F) else "="%char)
        :: base64_loop buf pos in_len fuel' (b + 3) (out_idx + 4)
      else []
  end.

Definition decode_field (field : field_def_t) (buf : list byte) (pos : Z)
                        (vars : var_context_t) (default_endian : endian_t)
  : field_result_t :=
  let len := buf_len buf in
  let endian := match fd_endian field with
                | ENDIAN_DEFAULT => default_endian
                | e => e
                end in
  let big := is_big endian in
  let name := strncpy31 (fd_name field) in
  let fail (rc : Z) :=
    {| fr_rc := rc; fr_pos := pos; fr_vars := vars;
       fr_out := {| df_name := name; df_value := V_zero;
                    df_type := fd_type field; df_valid := false |} |} in
  let ok (pos' : Z) (vars' : var_context_t) (v : field_value_t) (valid : bool) :=
    {| fr_rc := SCHEMA_OK; fr_pos := pos'; fr_vars := vars';
       fr_out := {| df_name := name; df_value := v;
                    df_type := fd_type field; df_valid := valid |} |} in
  let set_var (raw : Z) :=
    if nonempty (fd_var_name field) then var_set vars (fd_var_name field) raw
    else vars in
  (* the code after the switch: variable, modifiers, lookup *)
  let finish (pos' : Z) (raw_value : Z) :=
    let vars' := set_var raw_value in
    let final_value := apply_modifiers true field (F64.of_Z raw_value) in
    match fd_lookup field with
    | [] => ok pos' vars' (V_f64 final_value) true
    | _ =>
        match lookup_find (fd_lookup field) (to_i32 raw_value) with
        | Some s => ok pos' vars' (V_str (strncpy31 s)) true
        | None => ok pos' vars' (V_i64 raw_value) true
        end
    end in
  let need (n : Z) (k : field_result_t) :=
    if pos + n >? len then fail SCHEMA_ERR_BUFFER else k in
  match fd_type field with
  | FIELD_TYPE_U8 => need 1 (finish (pos + 1) (read_u8 buf pos))
  | FIELD_TYPE_U16 =>
      need 2 (finish (pos + 2)
                (if big then read_u16_be buf pos else read_u16_le buf pos))
  | FIELD_TYPE_U24 =>
      need 3 (finish (pos + 3)
                (if big then read_u24_be buf pos else read_u24_le buf pos))
  | FIELD_TYPE_U32 =>
      need 4 (finish (pos + 4)
                (if big then read_u32_be buf pos else read_u32_le buf pos))
  | FIELD_TYPE_S8 => need 1 (finish (pos + 1) (read_s8 buf pos))
  | FIELD_TYPE_S16 =>
      need 2 (finish (pos + 2)
                (if big then read_s16_be buf pos else read_s16_le buf pos))
  | FIELD_TYPE_S24 =>
      need 3 (finish (pos + 3)
                (if big then read_s24_be buf pos else read_s24_le buf pos))
  | FIELD_TYPE_S32 =>
      need 4 (finish (pos + 4)
                (if big then read_s32_be buf pos else read_s32_le buf pos))
  | FIELD_TYPE_U64 =>
      need 8
        (let u64 := if big then read_u64_be buf pos else read_u64_le buf pos in
         let final_value := apply_modifiers true field (F64.of_Z u64) in
         (* [value.f64 = final_value] overwrites [value.u64] in the union
            before the variable is bound from [value.u64] *)
         let vars' := if nonempty (fd_var_name field)
                      then var_set vars (fd_var_name field)
                                   (to_i64 (bits_of_f64 final_value))
                      else vars in
         ok (pos + 8) vars' (V_f64 final_value) true)
  | FIELD_TYPE_S64 =>
      need 8 (finish (pos + 8)
                (if big then read_s64_be buf pos else read_s64_le buf pos))
  | FIELD_TYPE_F16 =>
      need 2 (ok (pos + 2) vars
                (V_f64 (f32_to_f64 (if big then read_f16_be buf pos
                                    else read_f16_le buf pos))) true)
  | FIELD_TYPE_F32 =>
      need 4 (ok (pos + 4) vars
                (V_f64 (f32_to_f64 (if big then read_f32_be buf pos
                                    else read_f32_le buf pos))) true)
  | FIELD_TYPE_F64 =>
      need 8 (ok (pos + 8) vars
                (V_f64 (if big then read_f64_be buf pos else read_f64_le buf pos))
                true)
  | FIELD_TYPE_BOOL =>
      need 1
        (let b := negb (Z.land (shr_i32 (buf_at buf pos) (fd_bit_start field)) 1 =? 0) in
         let pos' := if fd_consume field then pos + 1 else pos in
         let vars' := if nonempty (fd_var_name field)
                      then var_set vars (fd_var_name field) (if b then 1 else 0)
                      else vars in
         ok pos' vars' (V_b b) true)
  | FIELD_TYPE_BITS =>
      if pos >=? len then fail SCHEMA_ERR_BUFFER
      else finish (if fd_consume field then pos + 1 else pos)
                  (extract_bits (buf_at buf pos) (fd_bit_start field) (fd_bit_width field))
  | FIELD_TYPE_SKIP =>
      ok (pos + (if fd_size field =? 0 then 1 else fd_size field)) vars V_zero false
  | FIELD_TYPE_ASCII =>
      need (fd_size field)
        (let n := if fd_size field <? SCHEMA_MAX_NAME_LEN then fd_size field
                  else SCHEMA_MAX_NAME_LEN - 1 in
         ok (pos + fd_size field) vars
            (V_str (cstring_of_bytes (buf_slice buf pos (Z.to_nat n)))) true)
  | FIELD_TYPE_HEX =>
      need (fd_size field)
        (let hex_len := if fd_size field <? SCHEMA_MAX_NAME_LEN / 2 then fd_size field
                        else SCHEMA_MAX_NAME_LEN / 2 - 1 in
         ok (pos + fd_size field) vars
            (V_str (hex_of_bytes (buf_slice buf pos (Z.to_nat hex_len)))) true)
  | FIELD_TYPE_BASE64 =>
      need (fd_size field)
        (ok (pos + fd_size field) vars
            (V_str (string_of_list_ascii
                      (base64_loop buf pos (fd_size field)
                                   (Z.to_nat (fd_size field)) 0 0))) true)
  | FIELD_TYPE_BYTES =>
      need (fd_size field)
        (let copy_len := if fd_size field <? SCHEMA_MAX_NAME_LEN then fd_size field
                         else SCHEMA_MAX_NAME_LEN in
         ok (pos + fd_size field) vars
            (V_bytes (buf_slice buf pos (Z.to_nat copy_len))) true)
  | FIELD_TYPE_ENUM =>
      need (fd_size field)
        (let esize := if fd_size field =? 0 then 1 else fd_size field in
         let raw_value :=
           if esize =? 1 then read_u8 buf pos
           else if esize =? 2
                then (if big then read_u16_be buf pos else read_u16_le buf pos)
                else read_u8 buf pos in
         let pos' := pos + esize in
         match fd_lookup field with
         | [] => finish pos' raw_value
         | _ =>
             match lookup_find (fd_lookup field) (to_i32 raw_value) with
             | Some s => ok pos' (set_var raw_value) (V_str (strncpy31 s)) true
             | None =>
                 ok pos' (set_var raw_value)
                    (V_str (strncpy31 ("unknown(" ++ string_of_int (to_i32 raw_value) ++ ")")))
                    true
             end
         end)
  | FIELD_TYPE_UDEC =>
      need 1
        (let b := buf_at buf pos in
         let final_value :=
           F64.add (F64.of_Z (Z.shiftr b 4))
                   (F64.mul (F64.of_Z (Z.land b 0x0F)) (F64.dec 1 1)) in
         ok (pos + 1) vars (V_f64 (apply_modifiers false field final_value)) true)
  | FIELD_TYPE_SDEC =>
      need 1
        (let b := buf_at buf pos in
         let whole := to_i8 (Z.shiftr b 4) in
         let whole := if whole >=? 8 then to_i8 (whole - 16) else whole in
         let final_value :=
           F64.add (F64.of_Z whole)
                   (F64.mul (F64.of_Z (Z.land b 0x0F)) (F64.dec 1 1)) in
         ok (pos + 1) vars (V_f64 (apply_modifiers false field final_value)) true)
  | _ => fail SCHEMA_ERR_TYPE
  end.

(** ** Main decode function *)

(** The loop state of [schema_decode]: the cursor, the variables and the
    output fields counted so far. *)
Record decode_state_t := {
  st_pos : Z;
  st_vars : var_context_t;
  st_out : list decoded_field_t
}.

Definition decode_init : decode_state_t :=
  {| st_pos := 0; st_vars := []; st_out := [] |}.

(** [if (var_name[0] == '$') var_name++;] *)
Definition strip_dollar (s : string) : string :=
  match s with
  | String c rest => if Ascii.eqb c "$"%char then rest else s
  | EmptyString => s
  end.

(** [for (j = 0; cs->match_list[j] != -1 && j < 8; j++)
       if (cs->match_list[j] == (int)match_val) { matched = true; break; }] *)
Fixpoint match_list_scan (l : list Z) (j : nat) (fuel : nat) (match_val : Z) : bool :=
  match fuel with
  | O => false
  | S fuel' =>
      let x := nth j l 0 in
      if x =? -1 then false
      else if x =? to_i32 match_val then true
      else match_list_scan l (S j) fuel' match_val
  end.

Definition case_matches (cs : case_def_t) (match_val : Z) : bool :=
  if cs_is_default cs then true
  else if cs_match_value cs =? to_i32 match_val then true
  else if negb (cs_range_min cs =? cs_range_max cs)
       then (match_val >=? cs_range_min cs) && (match_val <=? cs_range_max cs)
       else match_list_scan (cs_match_list cs) 0 8 match_val.

(** [&schema->fields[idx]]; a negative index is outside the array. *)
Definition field_at (schema : schema_t) (idx : Z) : option field_def_t :=
  if idx <? 0 then None else nth_error (sc_fields schema) (Z.to_nat idx).

(** The fields of a matched case: [n] iterations are left and the next
    one decodes [fields[idx]].  A field is counted when it is valid.
    (An index below 0 is undefined in C; the loop is taken to stop
    there as it does past the end.) *)
Fixpoint decode_case_fields (schema : schema_t) (buf : list byte)
                            (n : nat) (idx : Z) (st : decode_state_t)
  : Z * decode_state_t :=
  match n with
  | O => (SCHEMA_OK, st)
  | S n' =>
      if idx >=? sc_field_count schema then (SCHEMA_OK, st)
      else
        match field_at schema idx with
        | None => (SCHEMA_OK, st)
        | Some field =>
            let r := decode_field field buf (st_pos st) (st_vars st) (sc_endian schema) in
            if negb (fr_rc r =? SCHEMA_OK) then (fr_rc r, st)
            else
              let out := if df_valid (fr_out r) then st_out st ++ [fr_out r]
                         else st_out st in
              decode_case_fields schema buf n' (idx + 1)
                {| st_pos := fr_pos r; st_vars := fr_vars r; st_out := out |}
        end
  end.

(** The first case that matches is decoded; no match decodes nothing. *)
Fixpoint decode_match (schema : schema_t) (buf : list byte)
                      (cases : list case_def_t) (match_val : Z) (st : decode_state_t)
  : Z * decode_state_t :=
  match cases with
  | [] => (SCHEMA_OK, st)
  | cs :: rest =>
      if case_matches cs match_val
      then decode_case_fields schema buf (Z.to_nat (cs_field_count cs))
                              (cs_field_start cs) st
      else decode_match schema buf rest match_val st
  end.

(** One iteration of the loop over [schema->fields]. *)
Definition decode_step (schema : schema_t) (buf : list byte)
                       (field : field_def_t) (st : decode_state_t)
  : Z * decode_state_t :=
  if is_match (fd_type field) then
    let match_val := var_get (st_vars st) (strip_dollar (fd_match_var field)) in
    decode_match schema buf (fd_cases field) match_val st
  else
    let r := decode_field field buf (st_pos st) (st_vars st) (sc_endian schema) in
    if negb (fr_rc r =? SCHEMA_OK) then (fr_rc r, st)
    else
      let out :=
        if df_valid (fr_out r) && nonempty (fd_name field)
           && negb (starts_with_underscore (fd_name field))
        then st_out st ++ [fr_out r]
        else st_out st in
      (SCHEMA_OK, {| st_pos := fr_pos r; st_vars := fr_vars r; st_out := out |}).

Fixpoint decode_loop (schema : schema_t) (buf : list byte)
                     (fields : list field_def_t) (st : decode_state_t)
  : Z * decode_state_t :=
  match fields with
  | [] => (SCHEMA_OK, st)
  | field :: rest =>
      let '(rc, st') := decode_step schema buf field st in
      if negb (rc =? SCHEMA_OK) then (rc, st')
      else decode_loop schema buf rest st'
  end.

(** [schema_decode] returns its code and fills the result, which starts
    zeroed: [bytes_consumed] is assigned after the loop only. *)
Definition schema_decode (schema : schema_t) (buf : list byte) : Z * decode_result_t :=
  let '(rc, st) := decode_loop schema buf (sc_fields schema) decode_init in
  if negb (rc =? SCHEMA_OK)
  then (rc, {| dr_fields := st_out st; dr_bytes_consumed := 0; dr_error_code := rc |})
  else (SCHEMA_OK, {| dr_fields := st_out st;
                      dr_bytes_consumed := to_i32 (st_pos st);
                      dr_error_code := 0 |}).

(** ** Encoder: values to payload bytes *)

(** [encode_result_t]: [data] is the 256-byte array. *)
Record encode_result_t := {
  er_data : list byte;
  er_len : Z;
  er_error_code : Z
}.

(** The members of [field_value_t] that [encode_inputs_add_int] and
    [encode_inputs_add_double] write. *)
Inductive input_value_t :=
| I_i64 (i : Z)
| I_f64 (d : spec_float).

Definition encode_inputs_t := list (string * input_value_t).

Definition encode_inputs_init : encode_inputs_t := [].

Definition encode_inputs_add_int (inputs : encode_inputs_t) (name : string) (val : Z)
  : encode_inputs_t :=
  if Z.of_nat (List.length inputs) >=? SCHEMA_MAX_FIELDS then inputs
  else inputs ++ [(strncpy31 name, I_i64 (to_i64 val))].

Definition encode_inputs_add_double (inputs : encode_inputs_t) (name : string)
                                    (val : spec_float) : encode_inputs_t :=
  if Z.of_nat (List.length inputs) >=? SCHEMA_MAX_FIELDS then inputs
  else inputs ++ [(strncpy31 name, I_f64 val)].

(** [input->value.f64]: the encoder reads the union as a double whatever
    member was written. *)
Definition input_f64 (v : input_value_t) : spec_float :=
  match v with
  | I_f64 d => d
  | I_i64 i => f64_of_bits (to_u64 i)
  end.

Fixpoint find_input (inputs : encode_inputs_t) (name : string) : option input_value_t :=
  match inputs with
  | [] => None
  | (n, v) :: rest => if String.eqb n name then Some v else find_input rest name
  end.

(** [buf[i] = v] on the output array (a write outside it is undefined in
    C and leaves the list as it is). *)
Fixpoint list_set (l : list byte) (i : nat) (v : byte) : list byte :=
  match l, i with
  | [], _ => []
  | _ :: r, O => v :: r
  | x :: r, S i' => x :: list_set r i' v
  end.

Definition buf_set (buf : list byte) (i : Z) (v : Z) : list byte :=
  if i <? 0 then buf else list_set buf (Z.to_nat i) (byte_of_Z v).

(** Big endian: [for (i = size - 1; i >= 0; i--) { buf[pos+i] = uval & 0xFF; uval >>= 8; }] *)
Fixpoint write_int_be (buf : list byte) (pos : Z) (uval : Z) (i : nat) : list byte :=
  match i with
  | O => buf
  | S i' => write_int_be (buf_set buf (pos + Z.of_nat i') (Z.land uval 0xFF))
                         pos (Z.shiftr uval 8) i'
  end.

(** Little endian: [for (i = 0; i < size; i++) { buf[pos+i] = uval & 0xFF; uval >>= 8; }] *)
Fixpoint write_int_le (buf : list byte) (pos : Z) (uval : Z) (n : nat) : list byte :=
  match n with
  | O => buf
  | S n' => write_int_le (buf_set buf pos (Z.land uval 0xFF)) (pos + 1) (Z.shiftr uval 8) n'
  end.

Definition write_int (buf : list byte) (pos : Z) (val : Z) (size : Z) (endian : endian_t)
  : list byte * Z :=
  let uval := to_u64 val in
  (if is_big endian then write_int_be buf pos uval (Z.to_nat size)
   else write_int_le buf pos uval (Z.to_nat size),
   pos + size).

(** [SKIP]: [size] times, a zero byte is written at the cursor and the
    cursor moves on by one. *)
Fixpoint write_zeros (buf : list byte) (pos : Z) (n : nat) : list byte * Z :=
  match n with
  | O => (buf, pos)
  | S n' => write_zeros (buf_set buf pos 0) (pos + 1) n'
  end.

Definition encode_field (field : field_def_t) (inputs : encode_inputs_t)
                        (buf : list byte) (pos : Z) (schema_endian : endian_t)
  : Z * list byte * Z :=
  let input := find_input inputs (fd_name field) in
  match input, is_skip (fd_type field) with
  | None, false => (SCHEMA_ERR_PARSE, buf, pos)   (* Missing input *)
  | _, _ =>
    let raw_val := match input with Some v => input_f64 v | None => F64.zero end in
    (* reverse modifiers *)
    let raw_val := if fd_has_add field then F64.sub raw_val (fd_add field) else raw_val in
    let raw_val := if fd_has_mult field && negb (F64.eqb (fd_mult field) F64.zero)
                   then F64.div raw_val (fd_mult field) else raw_val in
    let raw_val := if fd_has_div field then F64.mul raw_val (fd_div field) else raw_val in
    let int_val :=
      f64_to_i64 (F64.add raw_val (if F64.leb F64.zero raw_val then F64.dec 5 1
                                   else F64.opp (F64.dec 5 1))) in
    let endian := match fd_endian field with
                  | ENDIAN_DEFAULT => schema_endian
                  | e => e
                  end in
    let written (bp : list byte * Z) := (SCHEMA_OK, fst bp, snd bp) in
    match fd_type field with
    | FIELD_TYPE_U8 | FIELD_TYPE_S8 =>
        (SCHEMA_OK, buf_set buf pos (Z.land int_val 0xFF), pos + 1)
    | FIELD_TYPE_U16 | FIELD_TYPE_S16 => written (write_int buf pos int_val 2 endian)
    | FIELD_TYPE_U24 | FIELD_TYPE_S24 => written (write_int buf pos int_val 3 endian)
    | FIELD_TYPE_U32 | FIELD_TYPE_S32 => written (write_int buf pos int_val 4 endian)
    | FIELD_TYPE_U64 | FIELD_TYPE_S64 => written (write_int buf pos int_val 8 endian)
    | FIELD_TYPE_F32 =>
        written (write_int buf pos (bits_of_f32 (f64_to_f32 raw_val)) 4 endian)
    | FIELD_TYPE_F64 =>
        written (write_int buf pos (to_i64 (bits_of_f64 raw_val)) 8 endian)
    | FIELD_TYPE_BOOL =>
        (SCHEMA_OK, buf_set buf pos (if int_val =? 0 then 0 else 1), pos + 1)
    | FIELD_TYPE_BITS =>
        let byte_val := buf_at buf pos in
        let field_mask := bit_mask (fd_bit_width field) in
        let mask := to_u8 (shl_i32 field_mask (fd_bit_start field)) in
        let byte_val := to_u8 (Z.land byte_val (Z.lnot mask)) in
        let byte_val :=
          to_u8 (Z.lor byte_val
                       (shl_i64 (Z.land int_val field_mask) (fd_bit_start field))) in
        (SCHEMA_OK, buf_set buf pos byte_val,
         if fd_consume field then pos + 1 else pos)
    | FIELD_TYPE_SKIP => written (write_zeros buf pos (Z.to_nat (fd_size field)))
    | FIELD_TYPE_UDEC =>
        let whole := f64_to_i32 raw_val in
        let frac := f64_to_i32
                      (F64.add (F64.mul (F64.sub raw_val (F64.of_Z whole)) (F64.of_Z 10))
                               (F64.dec 5 1)) in
        let whole := if whole >? 9 then 9 else whole in
        let whole := if whole <? 0 then 0 else whole in
        let frac := if frac >? 9 then 9 else frac in
        (SCHEMA_OK,
         buf_set buf pos (to_u8 (Z.lor (Z.shiftl whole 4) (Z.land frac 0x0F))),
         pos + 1)
    | FIELD_TYPE_SDEC =>
        let whole := f64_to_i32 raw_val in
        let frac_part := F64.sub raw_val (F64.of_Z whole) in
        let adjust := F64.ltb raw_val F64.zero && negb (F64.eqb frac_part F64.zero) in
        let whole := if adjust then whole - 1 else whole in
        let frac_part := if adjust then F64.sub raw_val (F64.of_Z whole) else frac_part in
        let frac := f64_to_i32 (F64.add (F64.mul frac_part (F64.of_Z 10)) (F64.dec 5 1)) in
        let whole := if whole <? -8 then -8 else whole in
        let whole := if whole >? 7 then 7 else whole in
        let frac := if frac >? 9 then 9 else frac in
        let whole_nibble := to_u8 (Z.land whole 0x0F) in
        (SCHEMA_OK,
         buf_set buf pos (to_u8 (Z.lor (Z.shiftl whole_nibble 4) (Z.land frac 0x0F))),
         pos + 1)
    | _ => (SCHEMA_ERR_UNSUPPORTED, buf, pos)
    end
  end.

Fixpoint encode_loop (schema : schema_t) (inputs : encode_inputs_t)
                     (fields : list field_def_t) (buf : list byte) (pos : Z)
  : Z * list byte * Z :=
  match fields with
  | [] => (SCHEMA_OK, buf, pos)
  | field :: rest =>
      if Ascii.eqb (first_char (fd_name field)) "_"%char || is_match (fd_type field)
      then encode_loop schema inputs rest buf pos
      else
        let '(rc, buf', pos') := encode_field field inputs buf pos (sc_endian schema) in
        if negb (rc =? SCHEMA_OK) then (rc, buf', pos')
        else encode_loop schema inputs rest buf' pos'
  end.

Definition zero_data : list byte := repeat x00 (Z.to_nat SCHEMA_MAX_PAYLOAD).

(** [len] is assigned after the loop only. *)
Definition schema_encode (schema : schema_t) (inputs : encode_inputs_t)
  : Z * encode_result_t :=
  let '(rc, buf, pos) := encode_loop schema inputs (sc_fields schema) zero_data 0 in
  if negb (rc =? SCHEMA_OK)
  then (rc, {| er_data := buf; er_len := 0; er_error_code := rc |})
  else (SCHEMA_OK, {| er_data := buf; er_len := to_i32 pos; er_error_code := 0 |}).

(** The payload an encode result holds: [data[0 .. len)]. *)
Definition encoded_bytes (r : encode_result_t) : list byte :=
  firstn (Z.to_nat (er_len r)) (er_data r).

(** ** Convenience: build schema programmatically *)

(** [field_def_t f = {0};] *)
Definition field_zero : field_def_t :=
  {| fd_name := ""; fd_type := FIELD_TYPE_U8; fd_size := 0;
     fd_bit_start := 0; fd_bit_width := 0; fd_consume := false;
     fd_endian := ENDIAN_DEFAULT;
     fd_mult := F64.zero; fd_div := F64.zero; fd_add := F64.zero;
     fd_has_mult := false; fd_has_div := false; fd_has_add := false;
     fd_var_name := ""; fd_lookup := []; fd_match_var := ""; fd_cases := [] |}.

Definition mk_field (name : string) (type : field_type_t) (size : Z)
                    (bit_start bit_width : Z) (consume : bool) (endian : endian_t)
  : field_def_t :=
  {| fd_name := strncpy31 name; fd_type := type; fd_size := to_u8 size;
     fd_bit_start := to_u8 bit_start; fd_bit_width := to_u8 bit_width;
     fd_consume := consume; fd_endian := endian;
     fd_mult := F64.zero; fd_div := F64.zero; fd_add := F64.zero;
     fd_has_mult := false; fd_has_div := false; fd_has_add := false;
     fd_var_name := ""; fd_lookup := []; fd_match_var := ""; fd_cases := [] |}.

Definition field_u8 (name : string) := mk_field name FIELD_TYPE_U8 1 0 0 false ENDIAN_DEFAULT.
Definition field_u16 (name : string) (endian : endian_t) :=
  mk_field name FIELD_TYPE_U16 2 0 0 false endian.
Definition field_u24 (name : string) (endian : endian_t) :=
  mk_field name FIELD_TYPE_U24 3 0 0 false endian.
Definition field_u32 (name : string) (endian : endian_t) :=
  mk_field name FIELD_TYPE_U32 4 0 0 false endian.
Definition field_u64 (name : string) (endian : endian_t) :=
  mk_field name FIELD_TYPE_U64 8 0 0 false endian.
Definition field_s8 (name : string) := mk_field name FIELD_TYPE_S8 1 0 0 false ENDIAN_DEFAULT.
Definition field_s16 (name : string) (endian : endian_t) :=
  mk_field name FIELD_TYPE_S16 2 0 0 false endian.
Definition field_s24 (name : string) (endian : endian_t) :=
  mk_field name FIELD_TYPE_S24 3 0 0 false endian.
Definition field_s32 (name : string) (endian : endian_t) :=
  mk_field name FIELD_TYPE_S32 4 0 0 false endian.
Definition field_s64 (name : string) (endian : endian_t) :=
  mk_field name FIELD_TYPE_S64 8 0 0 false endian.
Definition field_f16 (name : string) (endian : endian_t) :=
  mk_field name FIELD_TYPE_F16 2 0 0 false endian.
Definition field_f32 (name : string) (endian : endian_t) :=
  mk_field name FIELD_TYPE_F32 4 0 0 false endian.
Definition field_f64 (name : string) (endian : endian_t) :=
  mk_field name FIELD_TYPE_F64 8 0 0 false endian.
Definition field_bits (name : string) (start width : Z) (consume : bool) :=
  mk_field name FIELD_TYPE_BITS 0 start width consume ENDIAN_DEFAULT.
Definition field_bool (name : string) (bit_pos : Z) (consume : bool) :=
  mk_field name FIELD_TYPE_BOOL 0 bit_pos 0 consume ENDIAN_DEFAULT.
Definition field_enum (name : string) (base_size : Z) :=
  mk_field name FIELD_TYPE_ENUM base_size 0 0 false ENDIAN_DEFAULT.
Definition field_hex (name : string) (length : Z) :=
  mk_field name FIELD_TYPE_HEX length 0 0 false ENDIAN_DEFAULT.
Definition field_ascii (name : string) (length : Z) :=
  mk_field name FIELD_TYPE_ASCII length 0 0 false ENDIAN_DEFAULT.
Definition field_skip (length : Z) :=
  mk_field "_skip" FIELD_TYPE_SKIP length 0 0 false ENDIAN_DEFAULT.
Definition field_bytes_type (name : string) (length : Z) :=
  mk_field name FIELD_TYPE_BYTES length 0 0 false ENDIAN_DEFAULT.

Definition field_set_mult (f : field_def_t) (mult : spec_float) : field_def_t :=
  {| fd_name := fd_name f; fd_type := fd_type f; fd_size := fd_size f;
     fd_bit_start := fd_bit_start f; fd_bit_width := fd_bit_width f;
     fd_consume := fd_consume f; fd_endian := fd_endian f;
     fd_mult := mult; fd_div := fd_div f; fd_add := fd_add f;
     fd_has_mult := true; fd_has_div := fd_has_div f; fd_has_add := fd_has_add f;
     fd_var_name := fd_var_name f; fd_lookup := fd_lookup f;
     fd_match_var := fd_match_var f; fd_cases := fd_cases f |}.

Definition field_set_div (f : field_def_t) (div : spec_float) : field_def_t :=
  {| fd_name := fd_name f; fd_type := fd_type f; fd_size := fd_size f;
     fd_bit_start := fd_bit_start f; fd_bit_width := fd_bit_width f;
     fd_consume := fd_consume f; fd_endian := fd_endian f;
     fd_mult := fd_mult f; fd_div := div; fd_add := fd_add f;
     fd_has_mult := fd_has_mult f; fd_has_div := true; fd_has_add := fd_has_add f;
     fd_var_name := fd_var_name f; fd_lookup := fd_lookup f;
     fd_match_var := fd_match_var f; fd_cases := fd_cases f |}.

Definition field_set_add (f : field_def_t) (add : spec_float) : field_def_t :=
  {| fd_name := fd_name f; fd_type := fd_type f; fd_size := fd_size f;
     fd_bit_start := fd_bit_start f; fd_bit_width := fd_bit_width f;
     fd_consume := fd_consume f; fd_endian := fd_endian f;
     fd_mult := fd_mult f; fd_div := fd_div f; fd_add := add;
     fd_has_mult := fd_has_mult f; fd_has_div := fd_has_div f; fd_has_add := true;
     fd_var_name := fd_var_name f; fd_lookup := fd_lookup f;
     fd_match_var := fd_match_var f; fd_cases := fd_cases f |}.

Definition field_set_var (f : field_def_t) (var_name : string) : field_def_t :=
  {| fd_name := fd_name f; fd_type := fd_type f; fd_size := fd_size f;
     fd_bit_start := fd_bit_start f; fd_bit_width := fd_bit_width f;
     fd_consume := fd_consume f; fd_endian := fd_endian f;
     fd_mult := fd_mult f; fd_div := fd_div f; fd_add := fd_add f;
     fd_has_mult := fd_has_mult f; fd_has_div := fd_has_div f;
     fd_has_add := fd_has_add f;
     fd_var_name := strncpy31 var_name; fd_lookup := fd_lookup f;
     fd_match_var := fd_match_var f; fd_cases := fd_cases f |}.

Definition field_set_lookup (f : field_def_t) (l : list lookup_entry_t) : field_def_t :=
  {| fd_name := fd_name f; fd_type := fd_type f; fd_size := fd_size f;
     fd_bit_start := fd_bit_start f; fd_bit_width := fd_bit_width f;
     fd_consume := fd_consume f; fd_endian := fd_endian f;
     fd_mult := fd_mult f; fd_div := fd_div f; fd_add := fd_add f;
     fd_has_mult := fd_has_mult f; fd_has_div := fd_has_div f;
     fd_has_add := fd_has_add f;
     fd_var_name := fd_var_name f; fd_lookup := l;
     fd_match_var := fd_match_var f; fd_cases := fd_cases f |}.

Definition field_add_lookup (f : field_def_t) (key : Z) (value : string) : field_def_t :=
  if Z.of_nat (List.length (fd_lookup f)) <? SCHEMA_MAX_LOOKUP
  then field_set_lookup f (fd_lookup f ++ [{| le_key := key; le_value := strncpy31 value |}])
  else f.

(** A match field as the tests build it: a zeroed field with its name,
    type, match variable and cases assigned. *)
Definition field_match (name match_var : string) (cases : list case_def_t) : field_def_t :=
  {| fd_name := strncpy31 name; fd_type := FIELD_TYPE_MATCH; fd_size := 0;
     fd_bit_start := 0; fd_bit_width := 0; fd_consume := false;
     fd_endian := ENDIAN_DEFAULT;
     fd_mult := F64.zero; fd_div := F64.zero; fd_add := F64.zero;
     fd_has_mult := false; fd_has_div := false; fd_has_add := false;
     fd_var_name := ""; fd_lookup := []; fd_match_var := strncpy31 match_var;
     fd_cases := cases |}.

(** A case on a single value, its [match_list] filled with the
    terminator -1. *)
Definition case_value (v field_start field_count : Z) : case_def_t :=
  {| cs_match_value := v; cs_match_list := repeat (-1) 8;
     cs_range_min := 0; cs_range_max := 0; cs_is_default := false;
     cs_field_start := field_start; cs_field_count := field_count |}.

(** ** Binary schema loading *)

Definition BINARY_TYPE_UINT : Z := 0x0.
Definition BINARY_TYPE_SINT : Z := 0x1.
Definition BINARY_TYPE_FLOAT : Z := 0x2.
Definition BINARY_TYPE_BYTES : Z := 0x3.
Definition BINARY_TYPE_BOOL : Z := 0x4.
Definition BINARY_TYPE_ENUM : Z := 0x5.
Definition BINARY_TYPE_BITFIELD : Z := 0x6.
Definition BINARY_TYPE_MATCH : Z := 0x7.
Definition BINARY_TYPE_SKIP : Z := 0x8.

Definition binary_type_to_field_type (type_code size : Z) : field_type_t :=
  if type_code =? BINARY_TYPE_UINT then
    if size =? 1 then FIELD_TYPE_U8
    else if size =? 2 then FIELD_TYPE_U16
    else if size =? 3 then FIELD_TYPE_U24
    else if size =? 4 then FIELD_TYPE_U32
    else if size =? 8 then FIELD_TYPE_U64
    else FIELD_TYPE_U8
  else if type_code =? BINARY_TYPE_SINT then
    if size =? 1 then FIELD_TYPE_S8
    else if size =? 2 then FIELD_TYPE_S16
    else if size =? 3 then FIELD_TYPE_S24
    else if size =? 4 then FIELD_TYPE_S32
    else if size =? 8 then FIELD_TYPE_S64
    else FIELD_TYPE_U8
  else if type_code =? BINARY_TYPE_FLOAT then
    if size =? 2 then FIELD_TYPE_F16
    else if size =? 4 then FIELD_TYPE_F32
    else FIELD_TYPE_F64
  else if type_code =? BINARY_TYPE_BOOL then FIELD_TYPE_BOOL
  else if type_code =? BINARY_TYPE_BITFIELD then FIELD_TYPE_BITS
  else if type_code =? BINARY_TYPE_SKIP then FIELD_TYPE_SKIP
  else if type_code =? BINARY_TYPE_BYTES then FIELD_TYPE_BYTES
  else if type_code =? BINARY_TYPE_MATCH then FIELD_TYPE_MATCH
  else FIELD_TYPE_U8.

Definition binary_exp_to_mult (exp : Z) : spec_float :=
  if exp =? 0 then F64.one
  else if exp =? 0x81 then F64.dec 5 1
  else if exp =? 0x82 then F64.dec 25 2
  else if exp =? 0x84 then F64.dec 625 4
  else
    let signed_exp := if exp >? 127 then to_i8 (exp - 256) else to_i8 exp in
    if signed_exp >? 0
    then repeat_step (fun m => F64.mul m (F64.of_Z 10)) (Z.to_nat signed_exp) F64.one
    else repeat_step (fun m => F64.div m (F64.of_Z 10)) (Z.to_nat (- signed_exp)) F64.one.

(** [%04x] of a [uint16_t] *)
Definition hex04 (id : Z) : string :=
  string_of_list_ascii
    [char_at hex_chars_lower (Z.land (Z.shiftr id 12) 0x0F);
     char_at hex_chars_lower (Z.land (Z.shiftr id 8) 0x0F);
     char_at hex_chars_lower (Z.land (Z.shiftr id 4) 0x0F);
     char_at hex_chars_lower (Z.land id 0x0F)].

Definition ipso_to_name (id : Z) : string :=
  if id =? 3303 then "temperature"
  else if id =? 3304 then "humidity"
  else if id =? 3315 then "pressure"
  else if id =? 3316 then "voltage"
  else if id =? 3317 then "current"
  else if id =? 3328 then "power"
  else if id =? 3330 then "distance"
  else if id =? 3301 then "illuminance"
  else "field_" ++ hex04 id.

(** The lookup-table loop: [n] entries may still be read. *)
Fixpoint load_lookup (data : list byte) (n : nat) (offset : Z)
                     (acc : list lookup_entry_t) : list lookup_entry_t * Z :=
  let len := buf_len data in
  match n with
  | O => (acc, offset)
  | S n' =>
      if negb (offset <? len) then (acc, offset)
      else
        let key := buf_at data offset in
        let offset := offset + 1 in
        if offset >=? len then (acc, offset)
        else
          let str_len := buf_at data offset in
          let offset := offset + 1 in
          if offset + str_len >? len then (acc, offset)
          else
            let copy_len := if str_len <? SCHEMA_MAX_NAME_LEN - 1 then str_len
                            else SCHEMA_MAX_NAME_LEN - 1 in
            let value := cstring_of_bytes (buf_slice data offset (Z.to_nat copy_len)) in
            load_lookup data n' (offset + str_len)
                        (acc ++ [{| le_key := key; le_value := value |}])
  end.

(** The body of the field loop, entered with [offset < len]: [None] is
    a [break], otherwise the field that is added and the next offset. *)
Definition load_field (data : list byte) (offset : Z) : option (field_def_t * Z) :=
  let len := buf_len data in
  let type_byte := buf_at data offset in
  let offset := offset + 1 in
  let has_lookup := negb (Z.land type_byte 0x80 =? 0) in
  let type_code := Z.land (Z.shiftr type_byte 4) 0x07 in
  let size := Z.land type_byte 0x0F in
  (* multiplier exponent *)
  if offset >=? len then None
  else
    let mult_exp := buf_at data offset in
    let offset := offset + 1 in
    let mult := binary_exp_to_mult mult_exp in
    let has_mult := negb (F64.eqb mult F64.one) in
    (* field ID, 2 bytes little endian *)
    if offset + 1 >=? len then None
    else
      let field_id := to_u16 (Z.lor (buf_at data offset)
                                    (Z.shiftl (buf_at data (offset + 1)) 8)) in
      let offset := offset + 2 in
      let name := strncpy31 (ipso_to_name field_id) in
      (* bitfield extra info *)
      let '(bit_start, bit_width, consume, offset) :=
        if (type_code =? BINARY_TYPE_BITFIELD) && (offset <? len) then
          let bf_byte := buf_at data offset in
          let offset := offset + 1 in
          if (offset <? len) && (buf_at data offset =? 0x01)
          then (Z.land (Z.shiftr bf_byte 4) 0x0F, Z.land bf_byte 0x0F, true, offset + 1)
          else (Z.land (Z.shiftr bf_byte 4) 0x0F, Z.land bf_byte 0x0F, false, offset)
        else (0, 0, false, offset) in
      (* add marker 0xA0 *)
      let '(add, has_add, offset) :=
        if (offset <? len) && (buf_at data offset =? 0xA0) then
          let offset := offset + 1 in
          if offset + 1 <? len then
            let add_val := to_i16 (Z.lor (buf_at data offset)
                                         (Z.shiftl (buf_at data (offset + 1)) 8)) in
            (F64.div (F64.of_Z add_val) (F64.of_Z 100), true, offset + 2)
          else (F64.zero, false, offset)
        else (F64.zero, false, offset) in
      (* lookup table *)
      let '(lookup, offset) :=
        if has_lookup && (offset <? len) then
          let lookup_count := buf_at data offset in
          load_lookup data (Z.to_nat (Z.min lookup_count SCHEMA_MAX_LOOKUP))
                      (offset + 1) []
        else ([], offset) in
      Some ({| fd_name := name;
               fd_type := binary_type_to_field_type type_code size;
               fd_size := size;
               fd_bit_start := bit_start; fd_bit_width := bit_width;
               fd_consume := consume; fd_endian := ENDIAN_DEFAULT;
               fd_mult := if has_mult then mult else F64.zero;
               fd_div := F64.zero; fd_add := add;
               fd_has_mult := has_mult; fd_has_div := false; fd_has_add := has_add;
               fd_var_name := ""; fd_lookup := lookup;
               fd_match_var := ""; fd_cases := [] |}, offset).

(** [for (int i = 0; i < field_count && offset < len; i++)], with [n]
    iterations left. *)
Fixpoint load_fields (data : list byte) (n : nat) (offset : Z) (schema : schema_t)
  : schema_t :=
  match n with
  | O => schema
  | S n' =>
      if negb (offset <? buf_len data) then schema
      else
        match load_field data offset with
        | None => schema
        | Some (f, offset') => load_fields data n' offset' (schema_add_field schema f)
        end
  end.

(** On a parse error the caller's schema is not written: no schema. *)
Definition schema_load_binary (data : list byte) : Z * option schema_t :=
  let len := buf_len data in
  if len <? 5 then (SCHEMA_ERR_PARSE, None)
  else if negb (buf_at data 0 =? 0x50 (* 'P' *)) || negb (buf_at data 1 =? 0x53 (* 'S' *))
  then (SCHEMA_ERR_PARSE, None)
  else
    let schema := {| sc_version := buf_at data 2;
                     sc_endian := if Z.land (buf_at data 3) 0x01 =? 0
                                  then ENDIAN_BIG else ENDIAN_LITTLE;
                     sc_fields := [] |} in
    let field_count := buf_at data 4 in
    (SCHEMA_OK, Some (load_fields data (Z.to_nat field_count) 5 schema)).


(** ** Values of floating-point numbers, for the statements *)

(** The rational a finite floating-point number stands for. *)
Definition sf_to_Q (x : spec_float) : option Q :=
  match x with
  | S754_zero _ => Some 0%Q
  | S754_finite s m e => Some (inject_Z (cond_Zopp s (Zpos m)) * Qpower 2 e)%Q
  | _ => None
  end.

(** [P 0 && ... && P (n - 1)] *)
Fixpoint all_below (P : Z -> bool) (n : nat) : bool :=
  match n with
  | O => true
  | S k => P (Z.of_nat k) && all_below P k
  end.

(** [P] on every 16-bit pattern, high byte by low byte. *)
Definition all_u16 (P : Z -> bool) : bool :=
  all_below (fun hi => all_below (fun lo => P (hi * 256 + lo)) 256) 256.

(** [P] on every 15-bit pattern. *)
Definition all_u15 (P : Z -> bool) : bool :=
  all_below (fun hi => all_below (fun lo => P (hi * 256 + lo)) 256) 128.

(** Two floating-point values are the same number: the same zero, the
    same infinity, both NaN, or finite with the same sign and
    [m * 2^e = n * 2^f] (compared at the smaller of the two exponents). *)
Definition sf_same_value (x y : spec_float) : bool :=
  match x, y with
  | S754_zero s, S754_zero t => Bool.eqb s t
  | S754_infinity s, S754_infinity t => Bool.eqb s t
  | S754_nan, S754_nan => true
  | S754_finite s m e, S754_finite t n f =>
      Bool.eqb s t
      && (Zpos m * 2 ^ (e - Z.min e f) =? Zpos n * 2 ^ (f - Z.min e f))
  | _, _ => false
  end.

(** The half-precision decode of the pattern [h] is the number the
    pattern stands for in IEEE 754 binary16: 1 sign bit, 5 exponent bits
    with bias 15, 10 fraction bits. *)
Definition f16_check (h : Z) : bool :=
  sf_same_value (f16_decode h) (sf_of_bits 10 5 h).

(** What the half-float reader is to return on a subnormal pattern [h]
    (exponent bits 0, fraction not 0): fraction/1024 * 2^-14, negated
    when the sign bit is set. *)
Definition f16_subnormal_value (h : Z) : Q :=
  ((if Z.testbit h 15 then - (1) else 1)
   * (Z.land h 0x3FF # 1024) * (1 # 16384))%Q.

Definition f16_subnormal_check (h : Z) : bool :=
  if (Z.land (Z.shiftr h 10) 0x1F =? 0) && negb (Z.land h 0x3FF =? 0) then
    match sf_to_Q (f16_decode h) with
    | Some q => Qeq_bool q (f16_subnormal_value h)
    | None => false
    end
  else true.

(** ** Notions used by the statements *)

(** A name is unbound when no entry of the context carries it. *)
Definition unbound (ctx : var_context_t) (name : string) : Prop :=
  forall n v, In (n, v) ctx -> n <> name.

(** The first case of a list that matches a value. *)
Definition first_matching_case (cases : list case_def_t) (match_val : Z)
  : option case_def_t :=
  find (fun cs => case_matches cs match_val) cases.

(** The bytes a skip field moves the cursor by. *)
Definition skip_advance (field : field_def_t) : Z :=
  if fd_size field =? 0 then 1 else fd_size field.

Definition total_skip_advance (fields : list field_def_t) : Z :=
  fold_right (fun f acc => skip_advance f + acc) 0 fields.

Definition schema_of (endian : endian_t) (fields : list field_def_t) : schema_t :=
  {| sc_version := 0; sc_endian := endian; sc_fields := fields |}.

(** The cursor [pos] of [schema_decode] when it returns. *)
Definition cursor_at_return (schema : schema_t) (buf : list byte) : Z :=
  st_pos (snd (decode_loop schema buf (sc_fields schema) decode_init)).

(** The output as name/value pairs. *)
Definition output_of (r : decode_result_t) : list (string * field_value_t) :=
  map (fun f => (df_name f, df_value f)) (dr_fields r).

(** ** The capacity of the result and of the payload *)

Definition match_free (schema : schema_t) : Prop :=
  forall f, In f (sc_fields schema) -> is_match (fd_type f) = false.

(** [schema_decode] hands [decode_field] the entry [fields[field_count]]
    of the result, an array of 32 entries, and [decode_field] writes the
    name into it before it tests anything.  The list [dr_fields] is the
    content of that array as long as every call finds an entry below 32.
    A call is made with no more entries counted than the run ends with,
    so this holds when the run ends with fewer than 32; and a schema
    without match fields decodes a field once, so it holds when such a
    schema has at most 32 fields. *)
Definition decode_within_capacity (schema : schema_t) (buf : list byte) : Prop :=
  dr_field_count (snd (schema_decode schema buf)) < SCHEMA_MAX_FIELDS
  \/ (match_free schema /\ sc_field_count schema <= SCHEMA_MAX_FIELDS).

(** The schema of the match test: [msg_type] bound to a variable, a
    match on it, then the fields of the two cases at indices 2 and 3. *)
Definition match_schema : schema_t :=
  schema_of ENDIAN_BIG
    [field_set_var (field_u8 "msg_type") "msg_type";
     field_match "_match" "$msg_type" [case_value 1 2 1; case_value 2 3 1];
     field_set_mult (field_s16 "temperature" ENDIAN_BIG) (F64.dec 1 2);
     field_u8 "humidity"].

(** A match whose case selects an internal field. *)
Definition internal_case_schema : schema_t :=
  schema_of ENDIAN_BIG
    [field_set_var (field_u8 "kind") "kind";
     field_match "_match" "$kind" [case_value 1 2 1];
     field_u8 "_internal"].

(** ** The descriptor format in the words of the specification *)

Definition header_valid (data : list byte) : Prop :=
  5 <= buf_len data /\ buf_at data 0 = 0x50 /\ buf_at data 1 = 0x53.

(** Follows the specification: [n] lookup records [(key, strlen,
    bytes[strlen])] from [offset]; the offset behind them, or [None]
    when they run past the buffer. *)
Fixpoint spec_lookup_end (data : list byte) (n : nat) (offset : Z) : option Z :=
  match n with
  | O => Some offset
  | S n' =>
      if offset + 2 >? buf_len data then None
      else
        let str_len := buf_at data (offset + 1) in
        if offset + 2 + str_len >? buf_len data then None
        else spec_lookup_end data n' (offset + 2 + str_len)
  end.

(** Follows the specification: the per-field record at [offset] is a
    type byte, an exponent byte and a 2-byte identifier; for the
    bitfield class one extra byte, optionally followed by 0x01; when the
    next byte is 0xA0, that marker and a 2-byte addend; when the lookup
    flag is set, a count and that many lookup records.  The result is the
    offset behind the record, or [None] when the record runs past the
    buffer. *)
Definition spec_record_end (data : list byte) (offset : Z) : option Z :=
  let len := buf_len data in
  if offset + 4 >? len then None
  else
    let type_byte := buf_at data offset in
    let has_lookup := Z.testbit type_byte 7 in
    let type_class := Z.land (Z.shiftr type_byte 4) 0x07 in
    let off := offset + 4 in
    let after_bits :=
      if type_class =? 6 then
        if off + 1 >? len then None
        else if (off + 1 <? len) && (buf_at data (off + 1) =? 0x01)
             then Some (off + 2) else Some (off + 1)
      else Some off in
    match after_bits with
    | None => None
    | Some off =>
        let after_add :=
          if (off <? len) && (buf_at data off =? 0xA0) then
            if off + 3 >? len then None else Some (off + 3)
          else Some off in
        match after_add with
        | None => None
        | Some off =>
            if has_lookup then
              if off + 1 >? len then None
              else spec_lookup_end data (Z.to_nat (buf_at data off)) (off + 1)
            else Some off
        end
    end.

(** Follows the specification: the number of complete records among the
    first [n], counted up to the first one that runs past the buffer. *)
Fixpoint spec_complete_records (data : list byte) (n : nat) (offset : Z) : Z :=
  match n with
  | O => 0
  | S n' =>
      match spec_record_end data offset with
      | None => 0
      | Some offset' => 1 + spec_complete_records data n' offset'
      end
  end.

(** A descriptor with one record whose addend is cut short: the marker
    0xA0 is followed by one byte instead of two. *)
Definition truncated_addend_descriptor : list byte :=
  [x50; x53; x01; x00; x01;  x01; x00; xe7; x0c; xa0; x10].

(** ** Plain integer fields *)

Definition is_plain_int (t : field_type_t) : bool :=
  match t with
  | FIELD_TYPE_U8 | FIELD_TYPE_S8 | FIELD_TYPE_U16 | FIELD_TYPE_S16
  | FIELD_TYPE_U24 | FIELD_TYPE_S24 | FIELD_TYPE_U32 | FIELD_TYPE_S32 => true
  | _ => false
  end.

Definition int_size (t : field_type_t) : Z :=
  match t with
  | FIELD_TYPE_U8 | FIELD_TYPE_S8 => 1
  | FIELD_TYPE_U16 | FIELD_TYPE_S16 => 2
  | FIELD_TYPE_U24 | FIELD_TYPE_S24 => 3
  | FIELD_TYPE_U32 | FIELD_TYPE_S32 => 4
  | _ => 0
  end.

Definition int_signed (t : field_type_t) : bool :=
  match t with
  | FIELD_TYPE_S8 | FIELD_TYPE_S16 | FIELD_TYPE_S24 | FIELD_TYPE_S32 => true
  | _ => false
  end.

(** An integer field of 1 to 4 bytes with no modifier and no lookup
    table, under a name that is not empty and not internal. *)
Definition plain_int_field (f : field_def_t) : Prop :=
  is_plain_int (fd_type f) = true
  /\ fd_has_mult f = false /\ fd_has_div f = false /\ fd_has_add f = false
  /\ fd_lookup f = []
  /\ nonempty (fd_name f) = true
  /\ starts_with_underscore (fd_name f) = false.

(** The input map gives the field, under its name, the integer [z] as a
    double. *)
Definition input_gives (inputs : encode_inputs_t) (f : field_def_t) (z : Z) : Prop :=
  find_input inputs (fd_name f) = Some (I_f64 (F64.of_Z z)).

(** The decoded field that carries the integer [z] for [f]. *)
Definition decoded_int (f : field_def_t) (z : Z) : decoded_field_t :=
  {| df_name := strncpy31 (fd_name f); df_value := V_f64 (F64.of_Z z);
     df_type := fd_type f; df_valid := true |}.

(** The environment sensor schema of the tests and its input. *)
Definition env_schema : schema_t :=
  schema_of ENDIAN_BIG
    [field_set_mult (field_s16 "temperature" ENDIAN_BIG) (F64.dec 1 2);
     field_set_mult (field_u8 "humidity") (F64.dec 5 1);
     field_u16 "battery" ENDIAN_BIG;
     field_u8 "status"].

Definition env_inputs : encode_inputs_t :=
  encode_inputs_add_double
    (encode_inputs_add_double
       (encode_inputs_add_double
          (encode_inputs_add_double encode_inputs_init
             "temperature" (F64.dec 2345 2))
          "humidity" (F64.of_Z 65))
       "battery" (F64.of_Z 3300))
    "status" (F64.of_Z 0).

(** A schema with the builder's skip field between two bytes. *)
Definition skip_schema : schema_t :=
  schema_of ENDIAN_BIG [field_u8 "header"; field_skip 2; field_u8 "data"].

Definition skip_inputs : encode_inputs_t :=
  encode_inputs_add_double
    (encode_inputs_add_double encode_inputs_init "header" (F64.of_Z 1))
    "data" (F64.of_Z 2).

(** The input map populates every field the encoder does not pass over. *)
Definition populates (inputs : encode_inputs_t) (schema : schema_t) : Prop :=
  forall f, In f (sc_fields schema) ->
            starts_with_underscore (fd_name f) = false ->
            is_match (fd_type f) = false ->
            find_input inputs (fd_name f) <> None.

(** Decoding what was encoded recovers the input map: both calls
    succeed and every input is in the output with its value. *)
Definition round_trip_holds (schema : schema_t) (inputs : encode_inputs_t) : Prop :=
  exists enc dec,
    schema_encode schema inputs = (SCHEMA_OK, enc)
    /\ schema_decode schema (encoded_bytes enc) = (SCHEMA_OK, dec)
    /\ forall name v, In (name, I_f64 v) inputs -> In (name, V_f64 v) (output_of dec).

(** * Notions used by the further properties *)

(** ** The cursor of [decode_field] *)

(** The types [decode_field] has a case for. *)
Definition decode_supported (t : field_type_t) : bool :=
  match t with
  | FIELD_TYPE_OBJECT | FIELD_TYPE_MATCH | FIELD_TYPE_BYTE_GROUP
  | FIELD_TYPE_UNKNOWN => false
  | _ => true
  end.

(** The bytes that must lie between the cursor and the end of the
    buffer for the field to be decoded. *)
Definition decode_need (f : field_def_t) : Z :=
  match fd_type f with
  | FIELD_TYPE_U8 | FIELD_TYPE_S8 | FIELD_TYPE_BOOL | FIELD_TYPE_BITS
  | FIELD_TYPE_UDEC | FIELD_TYPE_SDEC => 1
  | FIELD_TYPE_U16 | FIELD_TYPE_S16 | FIELD_TYPE_F16 => 2
  | FIELD_TYPE_U24 | FIELD_TYPE_S24 => 3
  | FIELD_TYPE_U32 | FIELD_TYPE_S32 | FIELD_TYPE_F32 => 4
  | FIELD_TYPE_U64 | FIELD_TYPE_S64 | FIELD_TYPE_F64 => 8
  | FIELD_TYPE_ASCII | FIELD_TYPE_HEX | FIELD_TYPE_BASE64 | FIELD_TYPE_BYTES
  | FIELD_TYPE_ENUM => fd_size f
  | _ => 0
  end.

(** The bytes the cursor moves by when the field is decoded. *)
Definition decode_advance (f : field_def_t) : Z :=
  match fd_type f with
  | FIELD_TYPE_BOOL | FIELD_TYPE_BITS => if fd_consume f then 1 else 0
  | FIELD_TYPE_SKIP | FIELD_TYPE_ENUM => if fd_size f =? 0 then 1 else fd_size f
  | _ => decode_need f
  end.

(** A field that cannot move the cursor past the end of the buffer:
    neither a skip nor an enum of size 0 ([size] is a [uint8_t], so not
    negative). *)
Definition bounded_field (f : field_def_t) : Prop :=
  fd_type f <> FIELD_TYPE_SKIP
  /\ (fd_type f = FIELD_TYPE_ENUM -> fd_size f <> 0)
  /\ 0 <= fd_size f.

(** ** The output of a schema without match fields *)

(** The fields a schema without match fields lists in its output. *)
Definition emitted (f : field_def_t) : bool :=
  negb (is_skip (fd_type f)) && nonempty (fd_name f)
  && negb (starts_with_underscore (fd_name f)).

(** The name and the type an output entry is stored under. *)
Definition entry_of_field (f : field_def_t) : string * field_type_t :=
  (strncpy31 (fd_name f), fd_type f).

Definition entry_of_decoded (d : decoded_field_t) : string * field_type_t :=
  (df_name d, df_type d).

(** ** The cursor of [encode_field] *)

(** The types [encode_field] has a case for. *)
Definition encode_supported (t : field_type_t) : bool :=
  match t with
  | FIELD_TYPE_U8 | FIELD_TYPE_S8 | FIELD_TYPE_U16 | FIELD_TYPE_S16
  | FIELD_TYPE_U24 | FIELD_TYPE_S24 | FIELD_TYPE_U32 | FIELD_TYPE_S32
  | FIELD_TYPE_U64 | FIELD_TYPE_S64 | FIELD_TYPE_F32 | FIELD_TYPE_F64
  | FIELD_TYPE_BOOL | FIELD_TYPE_BITS | FIELD_TYPE_SKIP
  | FIELD_TYPE_UDEC | FIELD_TYPE_SDEC => true
  | _ => false
  end.

(** The bytes the cursor moves by when the field is encoded. *)
Definition encode_width (f : field_def_t) : Z :=
  match fd_type f with
  | FIELD_TYPE_U8 | FIELD_TYPE_S8 | FIELD_TYPE_BOOL
  | FIELD_TYPE_UDEC | FIELD_TYPE_SDEC => 1
  | FIELD_TYPE_U16 | FIELD_TYPE_S16 => 2
  | FIELD_TYPE_U24 | FIELD_TYPE_S24 => 3
  | FIELD_TYPE_U32 | FIELD_TYPE_S32 | FIELD_TYPE_F32 => 4
  | FIELD_TYPE_U64 | FIELD_TYPE_S64 | FIELD_TYPE_F64 => 8
  | FIELD_TYPE_BITS => if fd_consume f then 1 else 0
  | FIELD_TYPE_SKIP => Z.max 0 (fd_size f)
  | _ => 0
  end.

(** The bytes [encode_field] may write: a bitfield writes the byte at
    the cursor whether it consumes it or not. *)
Definition encode_span (f : field_def_t) : Z :=
  match fd_type f with
  | FIELD_TYPE_BITS => 1
  | _ => encode_width f
  end.

(** The fields [schema_encode] passes to [encode_field]. *)
Definition encoded (f : field_def_t) : bool :=
  negb (Ascii.eqb (first_char (fd_name f)) "_"%char || is_match (fd_type f)).

(** A field [encode_field] accepts: its input is there, or it is a
    skip, and its type has a case. *)
Definition encodable (inputs : encode_inputs_t) (f : field_def_t) : bool :=
  (match find_input inputs (fd_name f) with Some _ => true | None => false end
   || is_skip (fd_type f))
  && encode_supported (fd_type f).

Definition sum_Z (l : list Z) : Z := fold_right Z.add 0 l.

(** [schema_encode] writes into [data], an array of 256 bytes, and tests
    no bound.  The list [er_data] is the content of that array as long
    as every write stays inside it, which it does when the bytes the
    encoded fields may write are at most 256 together. *)
Definition encode_within_capacity (schema : schema_t) : Prop :=
  sum_Z (map encode_span (filter encoded (sc_fields schema))) <= SCHEMA_MAX_PAYLOAD.

Definition rc_of (r : Z * list byte * Z) : Z := fst (fst r).
Definition buf_of (r : Z * list byte * Z) : list byte := snd (fst r).
Definition pos_of (r : Z * list byte * Z) : Z := snd r.

(** ** Bitfields *)

(** A field without multiplier, divisor and addend. *)
Definition unmodified (f : field_def_t) : Prop :=
  fd_has_mult f = false /\ fd_has_div f = false /\ fd_has_add f = false.

(** Bit [k] lies in the bitfield of [width] bits from bit [start]. *)
Definition in_bitfield (start width k : Z) : bool :=
  (start <=? k) && (k <? start + width).

(** ** Variables and inputs by name *)

(** [name] is the name of an entry of the context. *)
Definition is_bound {A : Type} (ctx : list (string * A)) (name : string) : bool :=
  existsb (fun p => String.eqb (fst p) name) ctx.

(** A name that fits the 32-byte name array with its terminator. *)
Definition fits_name (name : string) : Prop := (String.length name <= 31)%nat.

(** There is room for one more entry. *)
Definition has_room {A : Type} (ctx : list (string * A)) : Prop :=
  Z.of_nat (List.length ctx) < SCHEMA_MAX_FIELDS.

(** ** Building a schema field by field *)

(** [schema_init] followed by one [schema_add_field] per field. *)
Definition schema_build (fields : list field_def_t) : schema_t :=
  fold_left schema_add_field fields schema_init.

(** ** Bytes after the payload *)

(** An enum that has a size (0 stands for an enum of one byte that is
    read without a bounds test). *)
Definition enum_sized (f : field_def_t) : Prop :=
  fd_type f = FIELD_TYPE_ENUM -> 0 < fd_size f.

(** ** 64-bit fields *)

(** A value of the double format: a finite one has a canonical
    mantissa and exponent. *)
Definition valid_f64 (x : spec_float) : bool := valid_binary F64.prec F64.emax x.

(** The input map gives the field, under its name, the double [x]. *)
Definition input_gives_f64 (inputs : encode_inputs_t) (f : field_def_t)
                           (x : spec_float) : Prop :=
  find_input inputs (fd_name f) = Some (I_f64 x).

(** ** Schemas read from a binary descriptor *)

(** What every field read from a binary descriptor is like: a data type
    the decoder knows or an empty match, never a skip or an enum, with a
    size below 16, a public name, no variable, no divisor and at most 16
    lookup entries. *)
Definition loaded_shape (f : field_def_t) : Prop :=
  bounded_field f
  /\ fd_type f <> FIELD_TYPE_ENUM
  /\ (decode_supported (fd_type f) = true \/ fd_type f = FIELD_TYPE_MATCH)
  /\ fd_size f < 16
  /\ nonempty (fd_name f) = true
  /\ starts_with_underscore (fd_name f) = false
  /\ fd_cases f = []
  /\ fd_var_name f = ""%string
  /\ fd_has_div f = false
  /\ (List.length (fd_lookup f) <= 16)%nat.

(** The fields of a schema that are not match fields. *)
Definition data_fields (schema : schema_t) : list field_def_t :=
  filter (fun f => negb (is_match (fd_type f))) (sc_fields schema).

(** ** Integers outside the range of their field *)

(** The integer of the type's range that is congruent to [z] modulo 2
    to the number of bits of the type. *)
Definition wrap_int (t : field_type_t) (z : Z) : Z :=
  if int_signed t then to_signed (8 * int_size t) z
  else z mod 2 ^ (8 * int_size t).

(** ** Where the decoder applies the modifiers *)

(** The field with its multiplier, divisor and addend replaced. *)
Definition set_modifiers (f : field_def_t) (mult div add : spec_float)
                         (has_mult has_div has_add : bool) : field_def_t :=
  {| fd_name := fd_name f; fd_type := fd_type f; fd_size := fd_size f;
     fd_bit_start := fd_bit_start f; fd_bit_width := fd_bit_width f;
     fd_consume := fd_consume f; fd_endian := fd_endian f;
     fd_mult := mult; fd_div := div; fd_add := add;
     fd_has_mult := has_mult; fd_has_div := has_div; fd_has_add := has_add;
     fd_var_name := fd_var_name f; fd_lookup := fd_lookup f;
     fd_match_var := fd_match_var f; fd_cases := fd_cases f |}.

(** The fields whose decoded value is computed with the modifiers: the
    integers, bitfields and enums without a lookup table, the unsigned
    64-bit integer and the nibble decimals. *)
Definition scaled (f : field_def_t) : bool :=
  match fd_type f with
  | FIELD_TYPE_U8 | FIELD_TYPE_U16 | FIELD_TYPE_U24 | FIELD_TYPE_U32
  | FIELD_TYPE_S8 | FIELD_TYPE_S16 | FIELD_TYPE_S24 | FIELD_TYPE_S32
  | FIELD_TYPE_S64 | FIELD_TYPE_BITS | FIELD_TYPE_ENUM =>
      match fd_lookup f with [] => true | _ => false end
  | FIELD_TYPE_U64 | FIELD_TYPE_UDEC | FIELD_TYPE_SDEC => true
  | _ => false
  end.

(** ** Nibble decimals *)

(** A byte the nibble-decimal encoder can produce: tenths from 0 to 9
    and, for the unsigned type, a whole part from 0 to 9 (the encoder
    clamps the whole part at 9; the decoder reads up to 15). *)
Definition nibble_decimal (t : field_type_t) (b : Z) : bool :=
  (Z.land b 0x0F <=? 9)
  && match t with
     | FIELD_TYPE_UDEC => Z.shiftr b 4 <=? 9
     | _ => true
     end.

(** ** Integer inputs *)

(** The input map gives the field, under its name, the integer [i]
    stored with [encode_inputs_add_int]. *)
Definition input_gives_int (inputs : encode_inputs_t) (f : field_def_t) (i : Z) : Prop :=
  find_input inputs (fd_name f) = Some (I_i64 i).

(** The types whose bytes the encoder computes from the rounded value
    of the input. *)
Definition rounds_input (t : field_type_t) : bool :=
  match t with
  | FIELD_TYPE_U8 | FIELD_TYPE_S8 | FIELD_TYPE_U16 | FIELD_TYPE_S16
  | FIELD_TYPE_U24 | FIELD_TYPE_S24 | FIELD_TYPE_U32 | FIELD_TYPE_S32
  | FIELD_TYPE_U64 | FIELD_TYPE_S64 | FIELD_TYPE_BOOL | FIELD_TYPE_BITS => true
  | _ => false
  end.

(** ** The size of decoded values *)

(** The value fits its member of the 32-byte union: a string has at
    most 31 characters before its terminator, a byte array at most 32
    bytes. *)
Definition value_fits (v : field_value_t) : Prop :=
  match v with
  | V_str s => (String.length s <= 31)%nat
  | V_bytes l => (List.length l <= 32)%nat
  | _ => True
  end.

(** ** Signed readers *)

(** The signed reading of the [w]-bit pattern [u]. *)
Definition twos_complement (w u : Z) : Z :=
  if u <? 2 ^ (w - 1) then u else u - 2 ^ w.

(** ** Result access helpers *)

(** [result_get_field]: the first entry of the result with the name. *)
Fixpoint result_get_field (fields : list decoded_field_t) (name : string)
  : option decoded_field_t :=
  match fields with
  | [] => None
  | d :: rest => if String.eqb (df_name d) name then Some d
                 else result_get_field rest name
  end.

(** [f->value.f64] and [f->value.i64]: the first eight bytes of the
    union, read as a double or as an integer whatever member was
    written.  They are known when an integer or a double was written;
    behind a boolean, a string or bytes the embedding does not keep
    them. *)
Definition value_f64 (v : field_value_t) : option spec_float :=
  match v with
  | V_f64 x => Some x
  | V_i64 i => Some (f64_of_bits (to_u64 i))
  | V_u64 u => Some (f64_of_bits (to_u64 u))
  | _ => None
  end.

Definition value_i64 (v : field_value_t) : option Z :=
  match v with
  | V_i64 i => Some (to_i64 i)
  | V_u64 u => Some (to_i64 u)
  | V_f64 x => Some (to_i64 (bits_of_f64 x))
  | _ => None
  end.

Definition result_get_double (result : decode_result_t) (name : string)
                             (default_val : spec_float) : option spec_float :=
  match result_get_field (dr_fields result) name with
  | Some f => value_f64 (df_value f)
  | None => Some default_val
  end.

Definition result_get_int (result : decode_result_t) (name : string)
                          (default_val : Z) : option Z :=
  match result_get_field (dr_fields result) name with
  | Some f => value_i64 (df_value f)
  | None => Some default_val
  end.
(** * Notions used by the round-trip statement *)

(** ** The arithmetic of the encoder and of the decoder *)

(** [raw_val] of [encode_field]: the input with the modifiers reversed. *)
Definition reverse_modifiers (f : field_def_t) (x : spec_float) : spec_float :=
  let raw_val := if fd_has_add f then F64.sub x (fd_add f) else x in
  let raw_val := if fd_has_mult f && negb (F64.eqb (fd_mult f) F64.zero)
                 then F64.div raw_val (fd_mult f) else raw_val in
  if fd_has_div f then F64.mul raw_val (fd_div f) else raw_val.

(** [int_val] of [encode_field]:
    [(int64_t)(raw_val + (raw_val >= 0 ? 0.5 : -0.5))]. *)
Definition round_half_away (raw_val : spec_float) : Z :=
  f64_to_i64 (F64.add raw_val (if F64.leb F64.zero raw_val then F64.dec 5 1
                               else F64.opp (F64.dec 5 1))).

(** The byte [encode_field] writes for an unsigned nibble decimal. *)
Definition udec_byte (raw_val : spec_float) : Z :=
  let whole := f64_to_i32 raw_val in
  let frac := f64_to_i32
                (F64.add (F64.mul (F64.sub raw_val (F64.of_Z whole)) (F64.of_Z 10))
                         (F64.dec 5 1)) in
  let whole := if whole >? 9 then 9 else whole in
  let whole := if whole <? 0 then 0 else whole in
  let frac := if frac >? 9 then 9 else frac in
  to_u8 (Z.lor (Z.shiftl whole 4) (Z.land frac 0x0F)).

(** The byte [encode_field] writes for a signed nibble decimal. *)
Definition sdec_byte (raw_val : spec_float) : Z :=
  let whole := f64_to_i32 raw_val in
  let frac_part := F64.sub raw_val (F64.of_Z whole) in
  let adjust := F64.ltb raw_val F64.zero && negb (F64.eqb frac_part F64.zero) in
  let whole := if adjust then whole - 1 else whole in
  let frac_part := if adjust then F64.sub raw_val (F64.of_Z whole) else frac_part in
  let frac := f64_to_i32 (F64.add (F64.mul frac_part (F64.of_Z 10)) (F64.dec 5 1)) in
  let whole := if whole <? -8 then -8 else whole in
  let whole := if whole >? 7 then 7 else whole in
  let frac := if frac >? 9 then 9 else frac in
  let whole_nibble := to_u8 (Z.land whole 0x0F) in
  to_u8 (Z.lor (Z.shiftl whole_nibble 4) (Z.land frac 0x0F)).

(** The number [decode_field] reads from the byte [b] of an unsigned
    nibble decimal, before the modifiers. *)
Definition udec_value (b : Z) : spec_float :=
  F64.add (F64.of_Z (Z.shiftr b 4)) (F64.mul (F64.of_Z (Z.land b 0x0F)) (F64.dec 1 1)).

(** The same for a signed nibble decimal. *)
Definition sdec_value (b : Z) : spec_float :=
  let whole := to_i8 (Z.shiftr b 4) in
  let whole := if whole >=? 8 then to_i8 (whole - 16) else whole in
  F64.add (F64.of_Z whole) (F64.mul (F64.of_Z (Z.land b 0x0F)) (F64.dec 1 1)).

(** ** What comes back *)

(** The fields whose wire content is an integer the decoder scales. *)
Definition integer_field (f : field_def_t) : bool :=
  match fd_type f with
  | FIELD_TYPE_U8 | FIELD_TYPE_U16 | FIELD_TYPE_U24 | FIELD_TYPE_U32 | FIELD_TYPE_U64
  | FIELD_TYPE_S8 | FIELD_TYPE_S16 | FIELD_TYPE_S24 | FIELD_TYPE_S32 | FIELD_TYPE_S64
  | FIELD_TYPE_BITS => true
  | _ => false
  end.

(** The integer read back from a field to which the integer [z] was
    written: the integer of the field's range that is congruent to [z]
    modulo 2 to the number of bits of the field. *)
Definition wire_int (f : field_def_t) (z : Z) : Z :=
  match fd_type f with
  | FIELD_TYPE_U64 => to_u64 z
  | FIELD_TYPE_S64 => to_i64 z
  | FIELD_TYPE_BITS => z mod 2 ^ fd_bit_width f
  | t => wrap_int t z
  end.

(** The value [decode_field] returns for a field that [encode_field]
    wrote from the input [x]. *)
Definition trip_value (f : field_def_t) (x : spec_float) : field_value_t :=
  let raw_val := reverse_modifiers f x in
  match fd_type f with
  | FIELD_TYPE_U8 | FIELD_TYPE_U16 | FIELD_TYPE_U24 | FIELD_TYPE_U32 | FIELD_TYPE_U64
  | FIELD_TYPE_S8 | FIELD_TYPE_S16 | FIELD_TYPE_S24 | FIELD_TYPE_S32 | FIELD_TYPE_S64
  | FIELD_TYPE_BITS =>
      V_f64 (apply_modifiers true f (F64.of_Z (wire_int f (round_half_away raw_val))))
  | FIELD_TYPE_F32 =>
      V_f64 (f32_to_f64 (f32_of_bits (to_u32 (bits_of_f32 (f64_to_f32 raw_val)))))
  | FIELD_TYPE_F64 => V_f64 (f64_of_bits (to_u64 (bits_of_f64 raw_val)))
  | FIELD_TYPE_BOOL => V_b (negb (round_half_away raw_val =? 0))
  | FIELD_TYPE_UDEC => V_f64 (apply_modifiers false f (udec_value (udec_byte raw_val)))
  | FIELD_TYPE_SDEC => V_f64 (apply_modifiers false f (sdec_value (sdec_byte raw_val)))
  | _ => V_zero
  end.

(** The output entry of the field for the input [v]. *)
Definition trip_entry (f : field_def_t) (v : input_value_t) : decoded_field_t :=
  {| df_name := strncpy31 (fd_name f); df_value := trip_value f (input_f64 v);
     df_type := fd_type f; df_valid := true |}.

Fixpoint trip_entries (fields : list field_def_t) (vs : list input_value_t)
  : list decoded_field_t :=
  match fields, vs with
  | f :: fields', v :: vs' => trip_entry f v :: trip_entries fields' vs'
  | _, _ => []
  end.

(** ** The schemas of the round trip *)

(** A field both directions agree on: a name that is not empty and not
    internal; a type the encoder writes, other than a skip; no lookup
    table where the decoder would use it; for a boolean, bit 0 of a byte
    it consumes (the encoder writes the whole byte and moves on); for a
    bitfield, bits inside one byte. *)
Definition trip_field (f : field_def_t) : bool :=
  nonempty (fd_name f) && negb (starts_with_underscore (fd_name f))
  && match fd_type f with
     | FIELD_TYPE_U8 | FIELD_TYPE_U16 | FIELD_TYPE_U24 | FIELD_TYPE_U32
     | FIELD_TYPE_S8 | FIELD_TYPE_S16 | FIELD_TYPE_S24 | FIELD_TYPE_S32
     | FIELD_TYPE_S64 =>
         match fd_lookup f with [] => true | _ => false end
     | FIELD_TYPE_BITS =>
         match fd_lookup f with [] => true | _ => false end
         && (0 <=? fd_bit_start f) && (0 <=? fd_bit_width f)
         && (fd_bit_start f + fd_bit_width f <=? 8)
     | FIELD_TYPE_BOOL => (fd_bit_start f =? 0) && fd_consume f
     | FIELD_TYPE_U64 | FIELD_TYPE_F32 | FIELD_TYPE_F64
     | FIELD_TYPE_UDEC | FIELD_TYPE_SDEC => true
     | _ => false
     end.

(** The field is one of those and the input map has a value for it. *)
Definition field_input (inputs : encode_inputs_t) (f : field_def_t)
                       (v : input_value_t) : Prop :=
  trip_field f = true /\ find_input inputs (fd_name f) = Some v.

(** Bit [k] lies in one of the bitfields [used], given by start and
    width. *)
Definition used_bit (used : list (Z * Z)) (k : Z) : bool :=
  existsb (fun r => in_bitfield (fst r) (snd r) k) used.

Definition bits_apart (start width : Z) (r : Z * Z) : bool :=
  (fst r + snd r <=? start) || (start + width <=? fst r).

(** The bitfields are packed byte by byte: the bitfields that share a
    byte (a run of bitfields that do not consume it, closed by one that
    does) do not overlap, and no other field and not the end of the
    schema comes before the byte is consumed.  [used] are the bitfields
    of the byte at the cursor that came before. *)
Fixpoint bits_packed (used : list (Z * Z)) (fields : list field_def_t) : bool :=
  match fields with
  | [] => match used with [] => true | _ => false end
  | f :: rest =>
      match fd_type f with
      | FIELD_TYPE_BITS =>
          forallb (bits_apart (fd_bit_start f) (fd_bit_width f)) used
          && bits_packed (if fd_consume f then []
                          else (fd_bit_start f, fd_bit_width f) :: used) rest
      | _ => match used with [] => bits_packed [] rest | _ => false end
      end
  end.

(** The bytes of the payload: the sum of the widths of the fields. *)
Definition payload_size (fields : list field_def_t) : Z :=
  sum_Z (map encode_width fields).

(** ** The inputs that come back as they are *)

(** A value of the float format: a finite one has a canonical mantissa
    and exponent. *)
Definition valid_f32 (x : spec_float) : bool := valid_binary F32.prec F32.emax x.

(** The input [x] can be expressed in the field: it is the number the
    decoder computes for a content of the field (an integer of the
    field's range, a nibble-decimal byte the encoder produces) and the
    encoder's arithmetic finds this content again; or, for a float and
    for a double field without modifiers, it is a value of the format. *)
Definition expressible (f : field_def_t) (x : spec_float) : Prop :=
  match fd_type f with
  | FIELD_TYPE_F32 => unmodified f /\ exists y, valid_f32 y = true /\ x = f32_to_f64 y
  | FIELD_TYPE_F64 => unmodified f /\ valid_f64 x = true
  | FIELD_TYPE_UDEC =>
      exists b, 0 <= b < 256
                /\ x = apply_modifiers false f (udec_value b)
                /\ udec_byte (reverse_modifiers f x) = b
  | FIELD_TYPE_SDEC =>
      exists b, 0 <= b < 256
                /\ x = apply_modifiers false f (sdec_value b)
                /\ sdec_byte (reverse_modifiers f x) = b
  | _ =>
      integer_field f = true
      /\ exists z, wire_int f z = z
                   /\ x = apply_modifiers true f (F64.of_Z z)
                   /\ round_half_away (reverse_modifiers f x) = z
  end.

(** An integer of the field's range that a double holds exactly with
    room for the encoder's half. *)
Definition plain_integer (f : field_def_t) (z : Z) : Prop :=
  integer_field f = true /\ unmodified f /\ wire_int f z = z /\ - 2 ^ 52 < z < 2 ^ 52.

(** ** Bytes and bits shared by two buffers *)

(** The byte [encode_field] leaves for a bitfield: [byte_val] with the
    bits of the field replaced by the low bits of [int_val]. *)
Definition insert_bits (byte_val int_val start width : Z) : Z :=
  let field_mask := bit_mask width in
  let mask := to_u8 (shl_i32 field_mask start) in
  let byte_val := to_u8 (Z.land byte_val (Z.lnot mask)) in
  to_u8 (Z.lor byte_val (shl_i64 (Z.land int_val field_mask) start)).

(** The buffers [b1] and [b2] hold the same content for the field [f]
    at [pos]: the same bytes, or for a bitfield the same bits. *)
Definition same_content (f : field_def_t) (pos : Z) (b1 b2 : list byte) : Prop :=
  match fd_type f with
  | FIELD_TYPE_BITS =>
      forall k, 0 <= k < 8 ->
                in_bitfield (fd_bit_start f) (fd_bit_width f) k = true ->
                Z.testbit (buf_at b1 pos) k = Z.testbit (buf_at b2 pos) k
  | _ => forall i, pos <= i < pos + encode_width f -> buf_at b1 i = buf_at b2 i
  end.

(** The buffers hold the same bytes before [pos] and, in the byte at
    [pos], the same bits of the bitfields [used]. *)
Definition stable (used : list (Z * Z)) (pos : Z) (b1 b2 : list byte) : Prop :=
  (forall i, i < pos -> buf_at b1 i = buf_at b2 i)
  /\ (forall k, 0 <= k < 8 -> used_bit used k = true ->
                Z.testbit (buf_at b1 pos) k = Z.testbit (buf_at b2 pos) k).

(** The number the decoder reads from a nibble-decimal byte. *)
Definition nibble_value (t : field_type_t) (b : Z) : spec_float :=
  match t with
  | FIELD_TYPE_UDEC => udec_value b
  | _ => sdec_value b
  end.

(** The byte the encoder writes for a nibble decimal. *)
Definition nibble_byte (t : field_type_t) (raw_val : spec_float) : Z :=
  match t with
  | FIELD_TYPE_UDEC => udec_byte raw_val
  | _ => sdec_byte raw_val
  end.

(** ** Where the round trip ends *)

(** What decoding the encoded payload returns: the code and the output. *)
Definition trip_output (schema : schema_t) (inputs : encode_inputs_t)
  : Z * list (string * field_value_t) :=
  let payload := encoded_bytes (snd (schema_encode schema inputs)) in
  (fst (schema_decode schema payload), output_of (snd (schema_decode schema payload))).

(** An input map of doubles. *)
Definition inputs_of (l : list (string * spec_float)) : encode_inputs_t :=
  fold_left (fun acc nv => encode_inputs_add_double acc (fst nv) (snd nv))
            l encode_inputs_init.

(** A schema with two bitfields in one byte, integers in both byte
    orders, a float, a boolean and a scaled byte, and inputs for it. *)
Definition mixed_schema : schema_t :=
  schema_of ENDIAN_LITTLE
    [field_bits "lo" 0 3 false; field_bits "hi" 3 5 true;
     field_s16 "t" ENDIAN_DEFAULT; field_u32 "n" ENDIAN_BIG;
     field_f32 "x" ENDIAN_BIG; field_bool "on" 0 true;
     field_set_mult (field_u8 "h") (F64.dec 5 1)].

Definition mixed_values : list input_value_t :=
  [I_f64 (F64.of_Z 5); I_f64 (F64.of_Z 17); I_f64 (F64.of_Z (-100));
   I_f64 (F64.of_Z 4000000000); I_f64 (F64.dec 15 1); I_f64 (F64.of_Z 1);
   I_f64 (F64.of_Z 65)].

Definition mixed_inputs : encode_inputs_t :=
  combine ["lo"; "hi"; "t"; "n"; "x"; "on"; "h"]%string mixed_values.
(** * Properties *)

(** ** Machine integers and bytes *)

Lemma u8_of_byte_range (b : byte) : 0 <= u8_of_byte b < 256.
Proof.
  unfold u8_of_byte. pose proof (Byte.to_N_bounded b). lia.
Qed.

Lemma buf_at_range (buf : list byte) (i : Z) : 0 <= buf_at buf i < 256.
Proof.
  unfold buf_at. destruct (i <? 0); [lia | apply u8_of_byte_range].
Qed.

(** A value below [2^n] fills the low bits left free by a shift. *)
Lemma lor_shiftl_low (hi lo n : Z) :
  0 <= n -> 0 <= lo < 2 ^ n -> Z.lor (Z.shiftl hi n) lo = hi * 2 ^ n + lo.
Proof.
  intros Hn Hlo.
  assert (Hdisj : Z.land (Z.shiftl hi n) lo = 0).
  { apply Z.bits_inj'. intros k Hk.
    rewrite Z.land_spec, Z.bits_0.
    destruct (Z.lt_ge_cases k n) as [Hlt | Hge].
    - rewrite Z.shiftl_spec_low by assumption. reflexivity.
    - replace lo with (lo mod 2 ^ n) by (apply Z.mod_small; assumption).
      rewrite Z.mod_pow2_bits_high by lia. apply andb_false_r. }
  rewrite <- Z.lxor_lor by assumption.
  rewrite <- Z.add_nocarry_lxor by assumption.
  rewrite Z.shiftl_mul_pow2 by assumption. reflexivity.
Qed.

Lemma lor_mul_pow2_low (hi lo n : Z) :
  0 <= n -> 0 <= lo < 2 ^ n -> Z.lor (hi * 2 ^ n) lo = hi * 2 ^ n + lo.
Proof.
  intros Hn Hlo. rewrite <- (lor_shiftl_low hi lo n) by assumption.
  now rewrite Z.shiftl_mul_pow2.
Qed.

Lemma read_u24_be_value (buf : list byte) (p : Z) :
  read_u24_be buf p
  = buf_at buf p * 65536 + buf_at buf (p + 1) * 256 + buf_at buf (p + 2).
Proof.
  unfold read_u24_be, to_u32.
  pose proof (buf_at_range buf p). pose proof (buf_at_range buf (p + 1)).
  pose proof (buf_at_range buf (p + 2)).
  rewrite !Z.shiftl_mul_pow2 by lia.
  rewrite (lor_mul_pow2_low (buf_at buf p) _ 16) by lia.
  replace (buf_at buf p * 2 ^ 16 + buf_at buf (p + 1) * 2 ^ 8)
    with ((buf_at buf p * 256 + buf_at buf (p + 1)) * 2 ^ 8) by lia.
  rewrite lor_mul_pow2_low by lia.
  rewrite Z.mod_small; lia.
Qed.

Lemma read_u24_le_value (buf : list byte) (p : Z) :
  read_u24_le buf p
  = buf_at buf (p + 2) * 65536 + buf_at buf (p + 1) * 256 + buf_at buf p.
Proof.
  unfold read_u24_le, to_u32.
  pose proof (buf_at_range buf p). pose proof (buf_at_range buf (p + 1)).
  pose proof (buf_at_range buf (p + 2)).
  rewrite !Z.shiftl_mul_pow2 by lia.
  rewrite (lor_mul_pow2_low (buf_at buf (p + 2)) _ 16) by lia.
  replace (buf_at buf (p + 2) * 2 ^ 16 + buf_at buf (p + 1) * 2 ^ 8)
    with ((buf_at buf (p + 2) * 256 + buf_at buf (p + 1)) * 2 ^ 8) by lia.
  rewrite lor_mul_pow2_low by lia.
  rewrite Z.mod_small; lia.
Qed.

Lemma testbit_23_of_u24 (v : Z) :
  0 <= v < 2 ^ 24 -> Z.testbit v 23 = negb (v <? 2 ^ 23).
Proof.
  intros Hv. rewrite Z.testbit_eqb by lia.
  destruct (Z.ltb_spec v (2 ^ 23)) as [Hlt | Hge]; cbn [negb].
  - rewrite Z.div_small by lia. reflexivity.
  - replace (v / 2 ^ 23) with 1; [reflexivity |].
    apply Z.div_unique with (r := v - 2 ^ 23); lia.
Qed.

Lemma land_bit_23_of_u24 (v : Z) :
  0 <= v < 2 ^ 24 -> Z.land v 0x800000 = if v <? 2 ^ 23 then 0 else 0x800000.
Proof.
  intros Hv.
  change 0x800000 with (2 ^ 23) at 1.
  apply Z.bits_inj'. intros k Hk.
  rewrite Z.land_spec, Z.pow2_bits_eqb by lia.
  destruct (Z.eqb_spec 23 k) as [<- | Hne].
  - rewrite testbit_23_of_u24 by assumption.
    destruct (v <? 2 ^ 23); reflexivity.
  - rewrite andb_false_r.
    destruct (v <? 2 ^ 23); [now rewrite Z.bits_0 |].
    change 0x800000 with (2 ^ 23). rewrite Z.pow2_bits_eqb by lia.
    symmetry. apply Z.eqb_neq. assumption.
Qed.

Lemma sign_extend_24_value (v : Z) :
  0 <= v < 2 ^ 24 ->
  sign_extend_24 v = if Z.testbit v 23 then v - 2 ^ 24 else v.
Proof.
  intros Hv. unfold sign_extend_24.
  rewrite land_bit_23_of_u24, testbit_23_of_u24 by assumption.
  destruct (Z.ltb_spec v (2 ^ 23)) as [Hlt | Hge]; cbn [negb Z.eqb].
  - unfold to_i32, to_signed. rewrite Z.mod_small; lia.
  - change 0xFF000000 with (Z.shiftl 255 24).
    rewrite Z.lor_comm, lor_shiftl_low by lia.
    unfold to_u32, to_i32, to_signed.
    rewrite (Z.mod_small (255 * 2 ^ 24 + v)) by lia.
    replace (255 * 2 ^ 24 + v + 2 ^ (32 - 1))
      with ((v - 2 ^ 24 + 2 ^ 31) + 1 * 2 ^ 32) by lia.
    rewrite Z.mod_add by lia. rewrite Z.mod_small; lia.
Qed.

Lemma read_u24_be_range (buf : list byte) (p : Z) : 0 <= read_u24_be buf p < 2 ^ 24.
Proof.
  rewrite read_u24_be_value.
  pose proof (buf_at_range buf p). pose proof (buf_at_range buf (p + 1)).
  pose proof (buf_at_range buf (p + 2)). lia.
Qed.

Lemma read_u24_le_range (buf : list byte) (p : Z) : 0 <= read_u24_le buf p < 2 ^ 24.
Proof.
  rewrite read_u24_le_value.
  pose proof (buf_at_range buf p). pose proof (buf_at_range buf (p + 1)).
  pose proof (buf_at_range buf (p + 2)). lia.
Qed.

(** C8: in both byte orders the signed three-byte read is the unsigned
    read when bit 23 of it is clear and the unsigned read minus 2^24
    when bit 23 is set, at every offset of every buffer (a three-byte
    buffer is read at offset 0); the bytes FF FF 9C read big-endian
    give -100. *)
Theorem read_s24_sign_extends :
  (forall (buf : list byte) (p : Z),
      read_s24_be buf p
      = (if Z.testbit (read_u24_be buf p) 23
         then read_u24_be buf p - 2 ^ 24 else read_u24_be buf p)
      /\ read_s24_le buf p
         = (if Z.testbit (read_u24_le buf p) 23
            then read_u24_le buf p - 2 ^ 24 else read_u24_le buf p))
  /\ read_s24_be [xff; xff; x9c] 0 = -100.
Proof.
  split; [| reflexivity].
  intros buf p. unfold read_s24_be, read_s24_le. split.
  - apply sign_extend_24_value, read_u24_be_range.
  - apply sign_extend_24_value, read_u24_le_range.
Qed.

(** ** Half-precision floats *)

Lemma all_below_spec (P : Z -> bool) (n : nat) :
  all_below P n = true -> forall z, 0 <= z < Z.of_nat n -> P z = true.
Proof.
  induction n as [| k IH]; intros Hall z Hz.
  - lia.
  - cbn [all_below] in Hall. apply andb_true_iff in Hall as [Hk Hrest].
    destruct (Z.eq_dec z (Z.of_nat k)) as [-> | Hne]; [assumption |].
    apply IH; [assumption | lia].
Qed.

Lemma read_u16_be_range (buf : list byte) (p : Z) : 0 <= read_u16_be buf p < 65536.
Proof.
  unfold read_u16_be, to_u16. apply Z.mod_pos_bound. lia.
Qed.

Lemma all_u16_spec (P : Z -> bool) :
  all_u16 P = true -> forall z, 0 <= z < 65536 -> P z = true.
Proof.
  intros Hall z Hz. unfold all_u16 in Hall.
  pose proof (Z.div_mod z 256 ltac:(lia)) as Hdm.
  pose proof (Z.mod_pos_bound z 256 ltac:(lia)) as Hlo.
  assert (Hhi : 0 <= z / 256 < Z.of_nat 256).
  { split; [apply Z.div_pos; lia | apply Z.div_lt_upper_bound; lia]. }
  pose proof (all_below_spec _ _ Hall _ Hhi) as Hrow. cbv beta in Hrow.
  pose proof (all_below_spec _ _ Hrow (z mod 256) ltac:(lia)) as Hz'.
  cbv beta in Hz'.
  replace (z / 256 * 256 + z mod 256) with z in Hz' by lia.
  exact Hz'.
Qed.

Lemma f16_subnormal_all : all_u16 f16_subnormal_check = true.
Proof. vm_cast_no_check (eq_refl true). Qed.

Lemma all_u15_spec (P : Z -> bool) :
  all_u15 P = true -> forall z, 0 <= z < 32768 -> P z = true.
Proof.
  intros Hall z Hz. unfold all_u15 in Hall.
  pose proof (Z.div_mod z 256 ltac:(lia)) as Hdm.
  pose proof (Z.mod_pos_bound z 256 ltac:(lia)) as Hlo.
  assert (Hhi : 0 <= z / 256 < Z.of_nat 128).
  { split; [apply Z.div_pos; lia | apply Z.div_lt_upper_bound; lia]. }
  pose proof (all_below_spec _ _ Hall _ Hhi) as Hrow. cbv beta in Hrow.
  pose proof (all_below_spec _ _ Hrow (z mod 256) ltac:(lia)) as Hz'.
  cbv beta in Hz'.
  replace (z / 256 * 256 + z mod 256) with z in Hz' by lia.
  exact Hz'.
Qed.

(** The patterns with the sign bit clear, one by one. *)
Lemma f16_positive_all : all_u15 f16_check = true.
Proof. vm_cast_no_check (eq_refl true). Qed.

(** The three fields of a pattern with the sign bit set. *)
Lemma f16_fields_of_negative (h : Z) :
  0 <= h < 32768 ->
  Z.testbit h 15 = false /\ Z.testbit (h + 32768) 15 = true
  /\ Z.land (Z.shiftr h 15) 1 = 0 /\ Z.land (Z.shiftr (h + 32768) 15) 1 = 1
  /\ Z.land (Z.shiftr (h + 32768) 10) 0x1F = Z.land (Z.shiftr h 10) 0x1F
  /\ Z.land (h + 32768) 0x3FF = Z.land h 0x3FF.
Proof.
  intros Hh.
  assert (H1 : forall x, Z.land x 1 = x mod 2)
    by (intros x; apply (Z.land_ones x 1); lia).
  assert (H5 : forall x, Z.land x 0x1F = x mod 32)
    by (intros x; apply (Z.land_ones x 5); lia).
  assert (H10 : forall x, Z.land x 0x3FF = x mod 1024)
    by (intros x; apply (Z.land_ones x 10); lia).
  rewrite !H1, !H5, !H10, !Z.shiftr_div_pow2 by lia.
  split; [apply Z.testbit_false; [lia |] | split; [apply Z.testbit_true; [lia |] |]].
  all: change (2 ^ 15) with 32768; change (2 ^ 10) with 1024.
  all: repeat split; Z.to_euclidean_division_equations; lia.
Qed.

Lemma f16_decode_negative (h : Z) :
  0 <= h < 32768 -> f16_decode (h + 32768) = SFopp (f16_decode h).
Proof.
  intros Hh. destruct (f16_fields_of_negative h Hh) as (_ & _ & Hs0 & Hs1 & He & Hf).
  unfold f16_decode. cbv zeta. rewrite Hs0, Hs1, He, Hf.
  cbn [Z.eqb negb]. unfold F32.opp.
  repeat match goal with
         | |- context [if ?c then _ else _] => destruct c
         end; try reflexivity;
    match goal with |- _ = SFopp ?x => destruct x; reflexivity end.
Qed.

Lemma sf_of_bits_negative (h : Z) :
  0 <= h < 32768 -> sf_of_bits 10 5 (h + 32768) = SFopp (sf_of_bits 10 5 h).
Proof.
  intros Hh. destruct (f16_fields_of_negative h Hh) as (Ht0 & Ht1 & _ & _ & He & Hf).
  unfold sf_of_bits. cbv zeta.
  change (10 + 5) with 15. change (2 ^ 5 - 1) with 0x1F. change (2 ^ 10 - 1) with 0x3FF.
  rewrite Ht0, Ht1, He, Hf.
  repeat match goal with
         | |- context [if ?c then _ else _] => destruct c
         | |- context [match ?x with Z0 => _ | Zpos _ => _ | Zneg _ => _ end] => destruct x
         end; reflexivity.
Qed.

Lemma sf_same_value_opp (x y : spec_float) :
  sf_same_value (SFopp x) (SFopp y) = sf_same_value x y.
Proof.
  destruct x as [s | s | | s m e], y as [t | t | | t n f]; try reflexivity;
    destruct s, t; reflexivity.
Qed.

Lemma f16_decode_ieee (h : Z) : 0 <= h < 65536 -> f16_check h = true.
Proof.
  intros Hh. destruct (Z_lt_le_dec h 32768) as [Hlt | Hge].
  - apply (all_u15_spec _ f16_positive_all). lia.
  - replace h with (h - 32768 + 32768) by lia. unfold f16_check.
    rewrite f16_decode_negative, sf_of_bits_negative, sf_same_value_opp by lia.
    apply (all_u15_spec _ f16_positive_all). lia.
Qed.

(** C7: the half-precision reader gives 1.0 for 3C00, +0.0 for 0000,
    +infinity for 7C00, -infinity for FC00 and NaN for 7E00 (big endian),
    and on every subnormal pattern (exponent bits 0, fraction bits not 0)
    the finite value fraction/1024 * 2^-14 with the sign applied.  On
    every 16-bit pattern, in both byte orders, it returns the number the
    pattern stands for in IEEE 754 binary16: the zero or the infinity of
    the sign bit, NaN, or the finite number of that sign, exponent and
    fraction. *)
Theorem read_f16_be_ieee :
  read_f16_be [x3c; x00] 0 = F32.of_Z 1
  /\ read_f16_be [x00; x00] 0 = S754_zero false
  /\ read_f16_be [x7c; x00] 0 = S754_infinity false
  /\ read_f16_be [xfc; x00] 0 = S754_infinity true
  /\ read_f16_be [x7e; x00] 0 = S754_nan
  /\ (forall (buf : list byte) (p : Z),
        let h := read_u16_be buf p in
        Z.land (Z.shiftr h 10) 0x1F = 0 ->
        Z.land h 0x3FF <> 0 ->
        exists q, sf_to_Q (read_f16_be buf p) = Some q
                  /\ (q == f16_subnormal_value h)%Q)
  /\ (forall (buf : list byte) (p : Z),
        sf_same_value (read_f16_be buf p) (sf_of_bits 10 5 (read_u16_be buf p)) = true
        /\ sf_same_value (read_f16_le buf p) (sf_of_bits 10 5 (read_u16_le buf p))
           = true).
Proof.
  do 5 (split; [vm_compute; reflexivity |]).
  split.
  - intros buf p h Hexp Hfrac.
    pose proof (all_u16_spec _ f16_subnormal_all h (read_u16_be_range buf p)) as Hchk.
    unfold f16_subnormal_check in Hchk.
    rewrite Hexp in Hchk.
    destruct (Z.eqb_spec (Z.land h 0x3FF) 0) as [H0 | _]; [contradiction |].
    cbn [Z.eqb andb negb] in Hchk.
    unfold read_f16_be. fold h.
    destruct (sf_to_Q (f16_decode h)) as [q |]; [| discriminate].
    exists q. split; [reflexivity | apply Qeq_bool_eq; assumption].
  - intros buf p. split.
    + apply f16_decode_ieee, read_u16_be_range.
    + unfold read_f16_le. fold (read_u16_le buf p).
      apply f16_decode_ieee. unfold read_u16_le, to_u16. apply Z.mod_pos_bound. lia.
Qed.

Lemma read_f16_be_ieee_witness :
  exists q, sf_to_Q (read_f16_be [x80; x01] 0) = Some q
            /\ (q == f16_subnormal_value (read_u16_be [x80; x01] 0))%Q.
Proof.
  apply (proj1 (proj2 (proj2 (proj2 (proj2 (proj2 read_f16_be_ieee))))) [x80; x01] 0).
  - vm_compute. reflexivity.
  - vm_compute. discriminate.
Defined.

(** ** Variables and match dispatch *)

Lemma var_get_unbound (ctx : var_context_t) (name : string) :
  unbound ctx name -> var_get ctx name = 0.
Proof.
  induction ctx as [| [n v] rest IH]; intros Hun; cbn [var_get].
  - reflexivity.
  - destruct (String.eqb_spec n name) as [Heq | Hne].
    + exfalso. apply (Hun n v); [left; reflexivity | exact Heq].
    + apply IH. intros n' v' Hin. apply (Hun n' v'). right. exact Hin.
Qed.

Lemma decode_match_first (schema : schema_t) (buf : list byte)
      (cases : list case_def_t) (match_val : Z) (st : decode_state_t) :
  decode_match schema buf cases match_val st
  = match first_matching_case cases match_val with
    | Some cs => decode_case_fields schema buf (Z.to_nat (cs_field_count cs))
                                    (cs_field_start cs) st
    | None => (SCHEMA_OK, st)
    end.
Proof.
  unfold first_matching_case.
  induction cases as [| cs rest IH]; cbn [decode_match find].
  - reflexivity.
  - destruct (case_matches cs match_val); [reflexivity | exact IH].
Qed.

(** C10: a name that no entry of the variable context carries reads as
    0, and a match field whose variable is unbound when the field is
    reached decodes exactly what it decodes for the value 0: the fields
    of the first case that matches 0 (by value, range, list or default),
    or nothing when no case does.  At the start of a decode every
    variable is unbound. *)
Theorem unbound_variable_dispatches_as_zero :
  (forall (ctx : var_context_t) (name : string),
      unbound ctx name -> var_get ctx name = 0)
  /\ (forall (schema : schema_t) (buf : list byte) (field : field_def_t)
             (st : decode_state_t),
        fd_type field = FIELD_TYPE_MATCH ->
        unbound (st_vars st) (strip_dollar (fd_match_var field)) ->
        decode_step schema buf field st
        = decode_match schema buf (fd_cases field) 0 st
        /\ decode_step schema buf field st
           = match first_matching_case (fd_cases field) 0 with
             | Some cs => decode_case_fields schema buf (Z.to_nat (cs_field_count cs))
                                             (cs_field_start cs) st
             | None => (SCHEMA_OK, st)
             end)
  /\ (forall name : string, unbound (st_vars decode_init) name).
Proof.
  split; [exact var_get_unbound | split].
  - intros schema buf field st Hty Hun.
    unfold decode_step. rewrite Hty. cbn [is_match].
    rewrite (var_get_unbound _ _ Hun).
    split; [reflexivity | apply decode_match_first].
  - intros name n v Hin. destruct Hin.
Qed.

Lemma unbound_variable_dispatches_as_zero_witness :
  var_get [("a"%string, 5)] "b" = 0
  /\ decode_step (schema_of ENDIAN_BIG
                     [field_match "_m" "$kind" [case_value 0 1 1]; field_u8 "x"])
                 [x07] (field_match "_m" "$kind" [case_value 0 1 1]) decode_init
     = decode_match (schema_of ENDIAN_BIG
                       [field_match "_m" "$kind" [case_value 0 1 1]; field_u8 "x"])
                    [x07] [case_value 0 1 1] 0 decode_init.
Proof.
  split.
  - apply (proj1 unbound_variable_dispatches_as_zero).
    intros n v [Heq | []]. inversion Heq. discriminate.
  - apply (proj1 (proj2 unbound_variable_dispatches_as_zero)).
    + reflexivity.
    + intros n v [].
Defined.

(** ** Skip fields *)

Lemma decode_field_skip (field : field_def_t) (buf : list byte) (pos : Z)
      (vars : var_context_t) (e : endian_t) :
  fd_type field = FIELD_TYPE_SKIP ->
  decode_field field buf pos vars e
  = {| fr_rc := SCHEMA_OK; fr_pos := pos + skip_advance field; fr_vars := vars;
       fr_out := {| df_name := strncpy31 (fd_name field); df_value := V_zero;
                    df_type := FIELD_TYPE_SKIP; df_valid := false |} |}.
Proof.
  intros Hty. unfold decode_field, skip_advance. rewrite Hty. reflexivity.
Qed.

Lemma decode_step_skip (schema : schema_t) (buf : list byte) (field : field_def_t)
      (st : decode_state_t) :
  fd_type field = FIELD_TYPE_SKIP ->
  decode_step schema buf field st
  = (SCHEMA_OK, {| st_pos := st_pos st + skip_advance field;
                   st_vars := st_vars st; st_out := st_out st |}).
Proof.
  intros Hty. unfold decode_step.
  rewrite (decode_field_skip _ _ _ _ _ Hty). rewrite Hty. reflexivity.
Qed.

Lemma decode_loop_skips (schema : schema_t) (buf : list byte)
      (fields : list field_def_t) (st : decode_state_t) :
  Forall (fun f => fd_type f = FIELD_TYPE_SKIP) fields ->
  decode_loop schema buf fields st
  = (SCHEMA_OK, {| st_pos := st_pos st + total_skip_advance fields;
                   st_vars := st_vars st; st_out := st_out st |}).
Proof.
  intros Hall. revert st.
  induction Hall as [| f rest Hf Hrest IH]; intros st; cbn [decode_loop].
  - cbn [total_skip_advance fold_right]. rewrite Z.add_0_r. destruct st; reflexivity.
  - rewrite (decode_step_skip _ _ _ _ Hf). cbn [Z.eqb SCHEMA_OK negb].
    rewrite IH. cbn [st_pos st_vars st_out total_skip_advance fold_right].
    rewrite Z.add_assoc. reflexivity.
Qed.

(** C9: a skip field is decoded without looking at the input length:
    [decode_field] returns OK for every buffer and cursor, moves the
    cursor by the field's size (by 1 when the size is 0) and produces no
    output; a schema of skip fields therefore decodes every payload
    successfully and reports the sum of the advances, and a successful
    decode can report more bytes consumed than the payload has. *)
Theorem skip_ignores_input_length :
  (forall (field : field_def_t) (buf : list byte) (pos : Z)
          (vars : var_context_t) (e : endian_t),
      fd_type field = FIELD_TYPE_SKIP ->
      let r := decode_field field buf pos vars e in
      fr_rc r = SCHEMA_OK
      /\ fr_rc r <> SCHEMA_ERR_BUFFER
      /\ fr_pos r = pos + (if fd_size field =? 0 then 1 else fd_size field)
      /\ df_valid (fr_out r) = false)
  /\ (forall (e : endian_t) (fields : list field_def_t) (buf : list byte),
        Forall (fun f => fd_type f = FIELD_TYPE_SKIP) fields ->
        fst (schema_decode (schema_of e fields) buf) = SCHEMA_OK
        /\ dr_bytes_consumed (snd (schema_decode (schema_of e fields) buf))
           = to_i32 (total_skip_advance fields))
  /\ (let schema := schema_of ENDIAN_BIG [field_u8 "header"; field_skip 2] in
      let buf := [x01] in
      fst (schema_decode schema buf) = SCHEMA_OK
      /\ dr_bytes_consumed (snd (schema_decode schema buf)) = 3
      /\ buf_len buf < dr_bytes_consumed (snd (schema_decode schema buf))).
Proof.
  split; [| split].
  - intros field buf pos vars e Hty r. subst r.
    rewrite (decode_field_skip _ _ _ _ _ Hty). cbn.
    repeat split. discriminate.
  - intros e fields buf Hall. unfold schema_decode.
    cbn [sc_fields schema_of].
    rewrite (decode_loop_skips _ _ _ _ Hall). cbn. split; reflexivity.
  - vm_compute. repeat split.
Qed.

Lemma skip_ignores_input_length_witness :
  fr_rc (decode_field (field_skip 0) [] 0 [] ENDIAN_BIG) = SCHEMA_OK
  /\ fst (schema_decode (schema_of ENDIAN_BIG [field_skip 4; field_skip 0]) [x01])
     = SCHEMA_OK.
Proof.
  split.
  - apply (proj1 skip_ignores_input_length (field_skip 0) [] 0 [] ENDIAN_BIG).
    reflexivity.
  - apply (proj1 (proj2 skip_ignores_input_length) ENDIAN_BIG
                 [field_skip 4; field_skip 0] [x01]).
    repeat constructor.
Defined.

(** ** Internal fields *)

Lemma first_char_strncpy31 (s : string) : first_char (strncpy31 s) = first_char s.
Proof. destruct s; reflexivity. Qed.

Lemma decode_field_name (field : field_def_t) (buf : list byte) (pos : Z)
      (vars : var_context_t) (e : endian_t) :
  df_name (fr_out (decode_field field buf pos vars e)) = strncpy31 (fd_name field).
Proof.
  unfold decode_field.
  repeat match goal with
         | |- context [match ?x with _ => _ end] => destruct x
         end; reflexivity.
Qed.

Lemma decode_step_regular (schema : schema_t) (buf : list byte)
      (field : field_def_t) (st : decode_state_t) :
  is_match (fd_type field) = false ->
  decode_step schema buf field st
  = let r := decode_field field buf (st_pos st) (st_vars st) (sc_endian schema) in
    if fr_rc r =? SCHEMA_OK
    then (SCHEMA_OK,
          {| st_pos := fr_pos r; st_vars := fr_vars r;
             st_out := if df_valid (fr_out r) && nonempty (fd_name field)
                          && negb (starts_with_underscore (fd_name field))
                       then st_out st ++ [fr_out r] else st_out st |})
    else (fr_rc r, st).
Proof.
  intros Hreg. unfold decode_step. rewrite Hreg. cbv zeta.
  destruct (fr_rc _ =? SCHEMA_OK); reflexivity.
Qed.

(** On the regular path a field whose name begins with an underscore is
    never counted: a schema without match fields has no such name in
    its output. *)
Lemma regular_fields_suppress_underscore (schema : schema_t) (buf : list byte)
      (fields : list field_def_t) (st : decode_state_t) :
  Forall (fun f => is_match (fd_type f) = false) fields ->
  Forall (fun d => starts_with_underscore (df_name d) = false) (st_out st) ->
  Forall (fun d => starts_with_underscore (df_name d) = false)
         (st_out (snd (decode_loop schema buf fields st))).
Proof.
  intros Hreg. revert st.
  induction Hreg as [| f rest Hf Hrest IH]; intros st Hout; cbn [decode_loop].
  - exact Hout.
  - rewrite (decode_step_regular _ _ _ _ Hf). cbv zeta.
    destruct (fr_rc _ =? SCHEMA_OK) eqn:Hrc.
    + cbn [negb Z.eqb SCHEMA_OK]. apply IH. cbn [st_out].
      destruct (df_valid _ && nonempty (fd_name f)
                && negb (starts_with_underscore (fd_name f))) eqn:Hemit; [| exact Hout].
      apply Forall_app. split; [exact Hout |].
      constructor; [| constructor].
      rewrite decode_field_name.
      apply andb_true_iff in Hemit as [_ Hus].
      unfold starts_with_underscore in *. rewrite first_char_strncpy31.
      destruct (Ascii.eqb (first_char (fd_name f)) "_"); [discriminate | reflexivity].
    + rewrite Hrc. cbn [negb snd]. exact Hout.
Qed.

(** C3 (the code on the failing input): the case selected by the match
    holds the internal field [_internal]; decoding 01 07 07 succeeds and
    lists [_internal] in the output, put there by the match path, which
    counts every valid field whatever its name.  The regular path (the
    third field, decoded once more) leaves it out. *)
Theorem match_case_emits_internal_field :
  fst (schema_decode internal_case_schema [x01; x07; x07]) = SCHEMA_OK
  /\ map df_name (dr_fields (snd (schema_decode internal_case_schema [x01; x07; x07])))
     = ["kind"; "_internal"]%string
  /\ dr_bytes_consumed (snd (schema_decode internal_case_schema [x01; x07; x07])) = 3.
Proof. vm_compute. repeat split. Qed.

(** ** Match dispatch on the test schema *)

(** C2 (the code on the failing inputs): on 01 09 29 and on 02 64 the
    selected case is decoded and the output is as expected, but the loop
    then goes on to the case fields at indices 2 and 3 as regular
    fields, finds no bytes left for [temperature] and returns the buffer
    error, with no bytes-consumed count. *)
Theorem match_schema_decode_underruns :
  schema_decode match_schema [x01; x09; x29]
  = (SCHEMA_ERR_BUFFER,
     {| dr_fields :=
          [ {| df_name := "msg_type"; df_value := V_f64 (F64.of_Z 1);
               df_type := FIELD_TYPE_U8; df_valid := true |};
            {| df_name := "temperature"; df_value := V_f64 (F64.dec 2345 2);
               df_type := FIELD_TYPE_S16; df_valid := true |} ];
        dr_bytes_consumed := 0;
        dr_error_code := SCHEMA_ERR_BUFFER |})
  /\ schema_decode match_schema [x02; x64]
     = (SCHEMA_ERR_BUFFER,
        {| dr_fields :=
             [ {| df_name := "msg_type"; df_value := V_f64 (F64.of_Z 2);
                  df_type := FIELD_TYPE_U8; df_valid := true |};
               {| df_name := "humidity"; df_value := V_f64 (F64.of_Z 100);
                  df_type := FIELD_TYPE_U8; df_valid := true |} ];
           dr_bytes_consumed := 0;
           dr_error_code := SCHEMA_ERR_BUFFER |}).
Proof. split; vm_compute; reflexivity. Qed.

(** With bytes left in the payload the case fields are decoded a second
    time and listed twice. *)
Lemma match_schema_decodes_case_fields_again :
  fst (schema_decode match_schema [x01; x09; x29; x09; x29; x64]) = SCHEMA_OK
  /\ map df_name (dr_fields (snd (schema_decode match_schema
                                                [x01; x09; x29; x09; x29; x64])))
     = ["msg_type"; "temperature"; "temperature"; "humidity"]%string.
Proof. vm_compute. split; reflexivity. Qed.

(** ** Missing encoder input *)

Lemma encode_field_missing (field : field_def_t) (inputs : encode_inputs_t)
      (buf : list byte) (pos : Z) (e : endian_t) :
  find_input inputs (fd_name field) = None ->
  fd_type field <> FIELD_TYPE_SKIP ->
  encode_field field inputs buf pos e = (SCHEMA_ERR_PARSE, buf, pos).
Proof.
  intros Hmiss Hty. unfold encode_field. rewrite Hmiss.
  destruct (fd_type field); try reflexivity. contradiction.
Qed.

(** C4 (the code on the failing input): with [humidity] absent from the
    input map the encoder returns -1, the parse error, not -7. *)
Theorem encode_missing_input_returns_parse_error :
  let schema := schema_of ENDIAN_BIG [field_u8 "temperature"; field_u8 "humidity"] in
  let inputs := encode_inputs_add_double encode_inputs_init "temperature" (F64.of_Z 25) in
  find_input inputs "humidity" = None
  /\ fst (schema_encode schema inputs) = -1
  /\ fst (schema_encode schema inputs) = SCHEMA_ERR_PARSE
  /\ fst (schema_encode schema inputs) <> SCHEMA_ERR_MISSING.
Proof. vm_compute. repeat split. discriminate. Qed.
(** ** Decode failures *)

Lemma decode_loop_failure (schema : schema_t) (buf : list byte)
      (fields : list field_def_t) :
  forall (st0 : decode_state_t) (rc : Z) (st' : decode_state_t),
    decode_loop schema buf fields st0 = (rc, st') ->
    rc <> SCHEMA_OK ->
    exists pre field post st,
      fields = pre ++ field :: post
      /\ decode_loop schema buf pre st0 = (SCHEMA_OK, st)
      /\ decode_step schema buf field st = (rc, st').
Proof.
  induction fields as [| f rest IH]; intros st0 rc st' Hrun Hrc; cbn [decode_loop] in Hrun.
  - inversion Hrun. congruence.
  - destruct (decode_step schema buf f st0) as [rc1 st1] eqn:Hstep.
    destruct (Z.eqb_spec rc1 SCHEMA_OK) as [Hok | Hko]; cbn [negb] in Hrun.
    + destruct (IH st1 rc st' Hrun Hrc) as (pre & field & post & st & Hsplit & Hpre & Hfail).
      exists (f :: pre), field, post, st. repeat split.
      * rewrite Hsplit. reflexivity.
      * cbn [decode_loop]. rewrite Hstep, Hok. cbn. rewrite <- Hpre. reflexivity.
      * exact Hfail.
    + inversion Hrun; subst. exists [], f, rest, st0. repeat split. exact Hstep.
Qed.

Lemma decode_case_fields_extends (schema : schema_t) (buf : list byte) (n : nat) :
  forall (idx : Z) (st : decode_state_t),
  exists more, st_out (snd (decode_case_fields schema buf n idx st)) = st_out st ++ more.
Proof.
  induction n as [| n IH]; intros idx st; cbn [decode_case_fields].
  - exists []. rewrite app_nil_r. reflexivity.
  - destruct (idx >=? sc_field_count schema); [exists []; now rewrite app_nil_r |].
    destruct (field_at schema idx) as [field |]; [| exists []; now rewrite app_nil_r].
    destruct (negb (fr_rc _ =? SCHEMA_OK)); [exists []; now rewrite app_nil_r |].
    match goal with
    | |- context [decode_case_fields schema buf n (idx + 1) ?s] =>
        destruct (IH (idx + 1) s) as [more Hmore]; rewrite Hmore
    end.
    cbn [st_out].
    destruct (df_valid _).
    + eexists. rewrite <- app_assoc. reflexivity.
    + exists more. reflexivity.
Qed.

Lemma decode_step_extends (schema : schema_t) (buf : list byte)
      (field : field_def_t) (st : decode_state_t) :
  exists more, st_out (snd (decode_step schema buf field st)) = st_out st ++ more.
Proof.
  unfold decode_step. destruct (is_match (fd_type field)).
  - generalize (var_get (st_vars st) (strip_dollar (fd_match_var field))). intros v.
    induction (fd_cases field) as [| cs rest IH]; cbn [decode_match].
    + exists []. now rewrite app_nil_r.
    + destruct (case_matches cs v); [apply decode_case_fields_extends | exact IH].
  - destruct (negb (fr_rc _ =? SCHEMA_OK)); [exists []; now rewrite app_nil_r |].
    cbn [snd st_out]. destruct (_ && _).
    + eexists. reflexivity.
    + exists []. now rewrite app_nil_r.
Qed.

Lemma decode_step_regular_failure (schema : schema_t) (buf : list byte)
      (field : field_def_t) (st st' : decode_state_t) (rc : Z) :
  is_match (fd_type field) = false ->
  decode_step schema buf field st = (rc, st') ->
  rc <> SCHEMA_OK ->
  st' = st.
Proof.
  intros Hreg Hstep Hrc. rewrite (decode_step_regular _ _ _ _ Hreg) in Hstep.
  cbv zeta in Hstep. destruct (fr_rc _ =? SCHEMA_OK); inversion Hstep; congruence.
Qed.

Lemma schema_decode_code (schema : schema_t) (buf : list byte) :
  fst (schema_decode schema buf)
  = fst (decode_loop schema buf (sc_fields schema) decode_init)
  /\ dr_fields (snd (schema_decode schema buf))
     = st_out (snd (decode_loop schema buf (sc_fields schema) decode_init)).
Proof.
  unfold schema_decode.
  destruct (decode_loop schema buf (sc_fields schema) decode_init) as [rc st].
  destruct (Z.eqb_spec rc SCHEMA_OK) as [Hok | Hko]; cbn; auto.
Qed.



(** ** Binary schema loading *)

Lemma load_field_fixed_part (data : list byte) (offset : Z) :
  offset < buf_len data ->
  (buf_len data < offset + 4 -> load_field data offset = None)
  /\ (offset + 4 <= buf_len data ->
      exists f offset', load_field data offset = Some (f, offset')).
Proof.
  intros Hin. unfold load_field. split.
  - intros Hshort.
    destruct (Z.geb_spec (offset + 1) (buf_len data)); [reflexivity |].
    destruct (Z.geb_spec (offset + 1 + 1 + 1) (buf_len data)); [reflexivity | lia].
  - intros Hlong.
    destruct (Z.geb_spec (offset + 1) (buf_len data)); [lia |].
    destruct (Z.geb_spec (offset + 1 + 1 + 1) (buf_len data)); [lia |].
    repeat match goal with
           | |- context [let '(_, _) := ?x in _] => destruct x
           end.
    eexists _, _. reflexivity.
Qed.

Lemma load_fields_stops (data : list byte) (n : nat) (offset : Z) (schema : schema_t) :
  buf_len data < offset + 4 -> load_fields data n offset schema = schema.
Proof.
  intros Hshort. destruct n as [| n]; cbn [load_fields]; [reflexivity |].
  destruct (Z.ltb_spec offset (buf_len data)) as [Hin | Hout]; cbn [negb]; [| reflexivity].
  rewrite (proj1 (load_field_fixed_part data offset Hin) Hshort). reflexivity.
Qed.

Lemma load_fields_adds (data : list byte) (n : nat) (offset : Z) (schema : schema_t) :
  0 <= offset -> offset + 4 <= buf_len data ->
  exists f offset',
    load_field data offset = Some (f, offset')
    /\ load_fields data (S n) offset schema
       = load_fields data n offset' (schema_add_field schema f).
Proof.
  intros Hpos Hlong.
  assert (Hin : offset < buf_len data) by lia.
  destruct (proj2 (load_field_fixed_part data offset Hin) Hlong) as (f & offset' & Hf).
  exists f, offset'. split; [exact Hf |].
  cbn [load_fields].
  destruct (Z.ltb_spec offset (buf_len data)); [| lia]. cbn [negb].
  rewrite Hf. reflexivity.
Qed.

Lemma schema_add_field_count (schema : schema_t) (f : field_def_t) :
  sc_field_count schema <= sc_field_count (schema_add_field schema f)
                        <= Z.max (sc_field_count schema) SCHEMA_MAX_FIELDS
  /\ sc_field_count (schema_add_field schema f) <= sc_field_count schema + 1.
Proof.
  unfold schema_add_field, sc_field_count, SCHEMA_MAX_FIELDS.
  destruct (Z.ltb_spec (Z.of_nat (List.length (sc_fields schema))) 32);
    cbn [sc_fields]; [rewrite length_app; cbn [List.length] |]; lia.
Qed.

Lemma load_fields_count (data : list byte) (n : nat) :
  forall (offset : Z) (schema : schema_t),
    sc_field_count schema <= SCHEMA_MAX_FIELDS ->
    sc_field_count (load_fields data n offset schema) <= SCHEMA_MAX_FIELDS
    /\ sc_field_count (load_fields data n offset schema)
       <= sc_field_count schema + Z.of_nat n.
Proof.
  induction n as [| n IH]; intros offset schema Hcap; cbn [load_fields].
  - lia.
  - destruct (negb (offset <? buf_len data)); [lia |].
    destruct (load_field data offset) as [[f offset'] |]; [| lia].
    pose proof (schema_add_field_count schema f) as [Hc1 Hc2].
    destruct (IH offset' (schema_add_field schema f)) as [H1 H2]; lia.
Qed.



(** ** Exact binary64 arithmetic on integers *)

Lemma digits2_pos_log2 (p : positive) :
  Zpos (digits2_pos p) = Z.log2 (Zpos p) + 1.
Proof.
  assert (Hsize : forall q, digits2_pos q = Pos.size q)
    by (induction q; cbn; congruence).
  rewrite Hsize. destruct p; cbn [Z.log2 Pos.size]; lia.
Qed.

Lemma digits2_pos_bounds (p : positive) :
  2 ^ (Zpos (digits2_pos p) - 1) <= Zpos p < 2 ^ Zpos (digits2_pos p).
Proof.
  rewrite digits2_pos_log2.
  replace (Z.log2 (Zpos p) + 1 - 1) with (Z.log2 (Zpos p)) by lia.
  replace (Z.log2 (Zpos p) + 1) with (Z.succ (Z.log2 (Zpos p))) by lia.
  apply Z.log2_spec. lia.
Qed.

Lemma digits2_pos_unique (p : positive) (d : Z) :
  2 ^ (d - 1) <= Zpos p < 2 ^ d -> Zpos (digits2_pos p) = d.
Proof.
  intros Hb. rewrite digits2_pos_log2.
  assert (Hd : 1 <= d).
  { destruct (Z.le_gt_cases 1 d) as [H | H]; [exact H |].
    exfalso. assert (2 ^ d <= 2 ^ 0) by (apply Z.pow_le_mono_r; lia).
    change (2 ^ 0) with 1 in *. lia. }
  rewrite (Z.log2_unique (Zpos p) (d - 1)); [lia | lia |].
  replace (Z.succ (d - 1)) with d by lia. exact Hb.
Qed.

Lemma pos_iter_xO_value (p k : positive) :
  Zpos (Pos.iter xO p k) = Zpos p * 2 ^ Zpos k.
Proof.
  induction k as [| k IH] using Pos.peano_ind.
  - cbn [Pos.iter]. lia.
  - rewrite Pos.iter_succ, Pos2Z.inj_xO, IH, Pos2Z.inj_succ, Z.pow_succ_r by lia. lia.
Qed.

Lemma iter_pos_shr_1 (k q : positive) :
  iter_pos shr_1 k {| shr_m := Zpos (Pos.iter xO q k); shr_r := false; shr_s := false |}
  = {| shr_m := Zpos q; shr_r := false; shr_s := false |}.
Proof.
  assert (Hiter : forall (A : Type) (f : A -> A) n x, iter_pos f n x = Pos.iter f x n).
  { intros A f n. induction n as [n IH | n IH |]; intros x; cbn [iter_pos Pos.iter].
    - rewrite !IH. rewrite !Pos.iter_swap. reflexivity.
    - rewrite !IH. reflexivity.
    - reflexivity. }
  rewrite Hiter. revert q.
  induction k as [| k IH] using Pos.peano_ind; intros q.
  - reflexivity.
  - rewrite Pos.iter_succ_r with (f := shr_1). rewrite Pos.iter_succ with (f := xO).
    cbn [shr_1 orb]. apply IH.
Qed.

(** A mantissa [q * 2^k] whose [q] has 53 digits is rounded to [q]
    without loss, within the exponent range. *)
Lemma binary_round_aux_exact (s : bool) (M q : positive) (k e : Z) :
  0 <= k ->
  Zpos M = Zpos q * 2 ^ k ->
  Zpos (digits2_pos q) = 53 ->
  -1074 <= e + k <= 971 ->
  binary_round_aux 53 1024 s (Zpos M) e loc_Exact = S754_finite s q (e + k).
Proof.
  intros Hk HM Hq He.
  pose proof (digits2_pos_bounds q) as Hqb. rewrite Hq in Hqb.
  assert (HdM : Zpos (digits2_pos M) = 53 + k).
  { apply digits2_pos_unique. rewrite HM.
    replace (53 + k - 1) with (52 + k) by lia.
    rewrite !Z.pow_add_r by lia.
    assert (0 < 2 ^ k) by (apply Z.pow_pos_nonneg; lia). nia. }
  unfold binary_round_aux, shr_fexp.
  cbn [Zdigits2 shr_record_of_loc]. rewrite HdM.
  assert (Hf1 : fexp 53 1024 (53 + k + e) - e = k) by (unfold fexp, emin; lia).
  rewrite Hf1.
  assert (Hstep : shr {| shr_m := Zpos M; shr_r := false; shr_s := false |} e k
                  = ({| shr_m := Zpos q; shr_r := false; shr_s := false |}, e + k)).
  { destruct k as [| kk | kk]; [| | lia].
    - cbn [shr]. rewrite Z.add_0_r. do 3 f_equal. change (2 ^ 0) with 1 in HM. lia.
    - cbn [shr]. f_equal.
      assert (HMq : M = Pos.iter xO q kk).
      { apply Pos2Z.inj. rewrite pos_iter_xO_value. exact HM. }
      rewrite HMq. apply iter_pos_shr_1. }
  rewrite Hstep. cbn [shr_m loc_of_shr_record round_nearest_even Zdigits2].
  rewrite Hq.
  assert (Hf2 : fexp 53 1024 (53 + (e + k)) - (e + k) = 0) by (unfold fexp, emin; lia).
  rewrite Hf2. cbn [shr shr_m].
  destruct (Z.leb_spec (e + k) (1024 - 53)); [reflexivity | lia].
Qed.

(** The double of an integer below 2^52 in absolute value. *)
Lemma binary_round_integer (s : bool) (p : positive) :
  Zpos p < 2 ^ 52 ->
  exists m e,
    binary_round 53 1024 s p 0 = S754_finite s m e
    /\ -52 <= e <= -1
    /\ Zpos m = Zpos p * 2 ^ (- e)
    /\ Zpos (digits2_pos m) = 53.
Proof.
  intros Hp.
  pose proof (digits2_pos_bounds p) as Hb.
  set (d := Zpos (digits2_pos p)) in *.
  assert (Hd : 1 <= d <= 52).
  { split; [unfold d; lia |].
    destruct (Z.le_gt_cases d 52) as [H | H]; [exact H |].
    assert (2 ^ 52 <= 2 ^ (d - 1)) by (apply Z.pow_le_mono_r; lia). lia. }
  unfold binary_round. rewrite Z.add_0_r. fold d.
  assert (Hf : fexp 53 1024 d = d - 53) by (unfold fexp, emin; lia).
  rewrite Hf. unfold shl_align. rewrite Z.sub_0_r.
  destruct (d - 53) as [| j | j] eqn:Hj; [lia | lia |].
  assert (Hjv : Zpos j = 53 - d) by lia.
  exists (Pos.iter xO p j), (Z.neg j).
  assert (Hdig : Zpos (digits2_pos (Pos.iter xO p j)) = 53).
  { apply digits2_pos_unique. rewrite pos_iter_xO_value, Hjv.
    assert (Hx1 : 2 ^ (d - 1) * 2 ^ (53 - d) = 2 ^ (53 - 1))
      by (rewrite <- Z.pow_add_r by lia; f_equal; lia).
    assert (Hx2 : 2 ^ d * 2 ^ (53 - d) = 2 ^ 53)
      by (rewrite <- Z.pow_add_r by lia; f_equal; lia).
    assert (Hx : 0 < 2 ^ (53 - d)) by (apply Z.pow_pos_nonneg; lia).
    rewrite <- Hx1, <- Hx2. split.
    - apply Z.mul_le_mono_nonneg_r; lia.
    - apply Z.mul_lt_mono_pos_r; lia. }
  split.
  - rewrite (binary_round_aux_exact s _ (Pos.iter xO p j) 0 (Z.neg j)); try lia.
    + rewrite Z.add_0_r. reflexivity.
  - split; [lia |]. split; [| exact Hdig].
    rewrite pos_iter_xO_value. f_equal.
Qed.

Lemma half_value : F64.dec 5 1 = S754_finite false 4503599627370496 (-53).
Proof. vm_compute. reflexivity. Qed.

(** Adding one half, with the sign of the number, to a double that is
    an integer below 2^52 in absolute value is exact. *)
Lemma add_half_exact (s : bool) (m : positive) (e z : Z) :
  -52 <= e <= -1 ->
  Zpos (digits2_pos m) = 53 ->
  Zpos m = z * 2 ^ (- e) ->
  exists q,
    F64.add (S754_finite s m e) (S754_finite s 4503599627370496 (-53))
    = S754_finite s q e
    /\ Zpos q = Zpos m + 2 ^ (- 1 - e).
Proof.
  intros He Hdig Hz.
  pose proof (digits2_pos_bounds m) as Hmb. rewrite Hdig in Hmb.
  assert (Hpe : 0 < 2 ^ (- e)) by (apply Z.pow_pos_nonneg; lia).
  assert (Hph : 0 < 2 ^ (- 1 - e)) by (apply Z.pow_pos_nonneg; lia).
  assert (Hpk : 0 < 2 ^ (e + 53)) by (apply Z.pow_pos_nonneg; lia).
  assert (Hdouble : 2 ^ (- e) = 2 * 2 ^ (- 1 - e)).
  { rewrite <- Z.pow_succ_r by lia. f_equal. lia. }
  assert (H53 : 2 ^ (- e) * 2 ^ (e + 53) = 2 ^ 53)
    by (rewrite <- Z.pow_add_r by lia; f_equal; lia).
  assert (H52 : 2 ^ (- 1 - e) * 2 ^ (e + 53) = 2 ^ 52)
    by (rewrite <- Z.pow_add_r by lia; f_equal; lia).
  (* the integer is below 2^53 / 2^-e *)
  assert (Hzlt : z * 2 ^ (- e) + 2 ^ (- 1 - e) < 2 ^ 53).
  { assert (z < 2 ^ (e + 53)) by nia.
    assert (z + 1 <= 2 ^ (e + 53)) by lia.
    assert ((z + 1) * 2 ^ (- e) <= 2 ^ (e + 53) * 2 ^ (- e))
      by (apply Z.mul_le_mono_nonneg_r; lia).
    nia. }
  set (q := Z.to_pos (Zpos m + 2 ^ (- 1 - e))).
  assert (Hq : Zpos q = Zpos m + 2 ^ (- 1 - e)) by (unfold q; rewrite Z2Pos.id; lia).
  exists q. split; [| exact Hq].
  unfold F64.add, SFadd.
  rewrite Z.min_r by lia.
  change (shl_align 4503599627370496 (-53) (-53)) with (4503599627370496%positive, -53).
  unfold shl_align.
  destruct (-53 - e) as [| j | j] eqn:Hj; [lia | lia |].
  cbn [fst].
  assert (Hsum : cond_Zopp s (Zpos (Pos.iter xO m j)) + cond_Zopp s 4503599627370496
                 = cond_Zopp s (Zpos (Pos.iter xO m j + 4503599627370496))).
  { destruct s; reflexivity. }
  rewrite Hsum. clear Hsum.
  set (M := (Pos.iter xO m j + 4503599627370496)%positive).
  assert (HM : Zpos M = Zpos q * 2 ^ (e + 53)).
  { unfold M. rewrite Pos2Z.inj_add, pos_iter_xO_value, Hq.
    replace (Zpos j) with (e + 53) by lia.
    rewrite Z.mul_add_distr_r, H52. reflexivity. }
  assert (Hqdig : Zpos (digits2_pos q) = 53).
  { apply digits2_pos_unique. rewrite Hq. change (53 - 1) with 52. lia. }
  assert (HMdig : Zpos (digits2_pos M) = 53 + (e + 53)).
  { apply digits2_pos_unique. rewrite HM.
    pose proof (digits2_pos_bounds q) as Hqb. rewrite Hqdig in Hqb.
    replace (53 + (e + 53) - 1) with (52 + (e + 53)) by lia.
    rewrite (Z.pow_add_r 2 52 (e + 53)), (Z.pow_add_r 2 53 (e + 53)) by lia.
    change (53 - 1) with 52 in Hqb. split.
    - apply Z.mul_le_mono_nonneg_r; lia.
    - apply Z.mul_lt_mono_pos_r; lia. }
  assert (Hround : binary_round 53 1024 s M (-53) = S754_finite s q e).
  { unfold binary_round. rewrite HMdig.
    assert (Hf : fexp 53 1024 (53 + (e + 53) + -53) = e) by (unfold fexp, emin; lia).
    rewrite Hf. unfold shl_align.
    destruct (e - -53) as [| t | t] eqn:Ht; [lia | | lia].
    rewrite (binary_round_aux_exact s M q (e + 53) (-53) ltac:(lia) HM Hqdig ltac:(lia)).
    f_equal. lia. }
  destruct s; cbn [cond_Zopp Z.opp binary_normalize]; exact Hround.
Qed.

(** [(int64_t)(raw_val + (raw_val >= 0 ? 0.5 : -0.5))] gives back the
    integer whose double [raw_val] is, for an integer below 2^52 in
    absolute value. *)
Lemma round_of_integer (z : Z) :
  - 2 ^ 52 < z < 2 ^ 52 ->
  f64_to_i64 (F64.add (F64.of_Z z)
                      (if F64.leb F64.zero (F64.of_Z z) then F64.dec 5 1
                       else F64.opp (F64.dec 5 1)))
  = z.
Proof.
  intros Hz. rewrite half_value.
  assert (Hcase : forall (s : bool) (p : positive),
             Zpos p < 2 ^ 52 ->
             f64_to_i64 (F64.add (binary_round 53 1024 s p 0)
                                 (S754_finite s 4503599627370496 (-53)))
             = cond_Zopp s (Zpos p)).
  { intros s p Hp.
    destruct (binary_round_integer s p Hp) as (m & e & Hrep & He & Hm & Hdig).
    rewrite Hrep.
    destruct (add_half_exact s m e (Zpos p) He Hdig Hm) as (q & Hadd & Hq).
    rewrite Hadd. unfold f64_to_i64, f64_to_int, sf_trunc.
    destruct (Z.leb_spec 0 e); [lia |].
    assert (Hpe : 0 < 2 ^ (- e)) by (apply Z.pow_pos_nonneg; lia).
    assert (Hph : 0 <= 2 ^ (- 1 - e)) by (apply Z.pow_nonneg; lia).
    assert (Hdouble : 2 ^ (- e) = 2 * 2 ^ (- 1 - e)).
    { rewrite <- Z.pow_succ_r by lia. f_equal. lia. }
    assert (Hdiv : Zpos q / 2 ^ (- e) = Zpos p).
    { symmetry. apply Z.div_unique with (r := 2 ^ (- 1 - e)); lia. }
    rewrite Hdiv.
    assert (Hrange : (- 2 ^ (64 - 1) <=? cond_Zopp s (Zpos p))
                     && (cond_Zopp s (Zpos p) <? 2 ^ (64 - 1)) = true).
    { apply andb_true_iff. split; [apply Z.leb_le | apply Z.ltb_lt];
        destruct s; cbn [cond_Zopp]; lia. }
    rewrite Hrange. reflexivity. }
  destruct z as [| p | p].
  - vm_compute. reflexivity.
  - unfold F64.of_Z. cbn [binary_normalize].
    destruct (binary_round_integer false p ltac:(lia)) as (m & e & Hrep & _).
    assert (Hle : F64.leb F64.zero (binary_round 53 1024 false p 0) = true)
      by (rewrite Hrep; reflexivity).
    unfold F64.prec, F64.emax. rewrite Hle. apply (Hcase false p). lia.
  - unfold F64.of_Z. cbn [binary_normalize].
    destruct (binary_round_integer true p ltac:(lia)) as (m & e & Hrep & _).
    assert (Hle : F64.leb F64.zero (binary_round 53 1024 true p 0) = false)
      by (rewrite Hrep; reflexivity).
    unfold F64.prec, F64.emax. rewrite Hle. apply (Hcase true p). lia.
Qed.
(** ** Bytes written and read back *)

Lemma u8_of_byte_of_Z (v : Z) : u8_of_byte (byte_of_Z v) = v mod 256.
Proof.
  unfold u8_of_byte, byte_of_Z, to_u8. change (2 ^ 8) with 256.
  pose proof (Z.mod_pos_bound v 256 ltac:(lia)) as Hb.
  destruct (Byte.of_N (Z.to_N (v mod 256))) as [b |] eqn:Hof.
  - apply Byte.to_of_N in Hof. rewrite Hof. lia.
  - apply Byte.of_N_None_iff in Hof. lia.
Qed.

Lemma read_u16_be_value (buf : list byte) (p : Z) :
  read_u16_be buf p = buf_at buf p * 256 + buf_at buf (p + 1).
Proof.
  unfold read_u16_be, to_u16.
  pose proof (buf_at_range buf p). pose proof (buf_at_range buf (p + 1)).
  rewrite Z.shiftl_mul_pow2 by lia. rewrite lor_mul_pow2_low by lia.
  rewrite Z.mod_small; lia.
Qed.

Lemma read_u16_le_value (buf : list byte) (p : Z) :
  read_u16_le buf p = buf_at buf (p + 1) * 256 + buf_at buf p.
Proof.
  unfold read_u16_le, to_u16.
  pose proof (buf_at_range buf p). pose proof (buf_at_range buf (p + 1)).
  rewrite Z.shiftl_mul_pow2 by lia. rewrite lor_mul_pow2_low by lia.
  rewrite Z.mod_small; lia.
Qed.

Lemma read_u32_be_value (buf : list byte) (p : Z) :
  read_u32_be buf p
  = buf_at buf p * 16777216 + buf_at buf (p + 1) * 65536
    + buf_at buf (p + 2) * 256 + buf_at buf (p + 3).
Proof.
  unfold read_u32_be, to_u32.
  pose proof (buf_at_range buf p). pose proof (buf_at_range buf (p + 1)).
  pose proof (buf_at_range buf (p + 2)). pose proof (buf_at_range buf (p + 3)).
  rewrite !Z.shiftl_mul_pow2 by lia.
  rewrite (lor_mul_pow2_low (buf_at buf p) _ 24) by lia.
  replace (buf_at buf p * 2 ^ 24 + buf_at buf (p + 1) * 2 ^ 16)
    with ((buf_at buf p * 256 + buf_at buf (p + 1)) * 2 ^ 16) by lia.
  rewrite (lor_mul_pow2_low _ _ 16) by lia.
  replace ((buf_at buf p * 256 + buf_at buf (p + 1)) * 2 ^ 16 + buf_at buf (p + 2) * 2 ^ 8)
    with (((buf_at buf p * 256 + buf_at buf (p + 1)) * 256 + buf_at buf (p + 2)) * 2 ^ 8)
    by lia.
  rewrite lor_mul_pow2_low by lia.
  rewrite Z.mod_small; lia.
Qed.

Lemma read_u32_le_value (buf : list byte) (p : Z) :
  read_u32_le buf p
  = buf_at buf (p + 3) * 16777216 + buf_at buf (p + 2) * 65536
    + buf_at buf (p + 1) * 256 + buf_at buf p.
Proof.
  unfold read_u32_le, to_u32.
  pose proof (buf_at_range buf p). pose proof (buf_at_range buf (p + 1)).
  pose proof (buf_at_range buf (p + 2)). pose proof (buf_at_range buf (p + 3)).
  rewrite !Z.shiftl_mul_pow2 by lia.
  rewrite (lor_mul_pow2_low (buf_at buf (p + 3)) _ 24) by lia.
  replace (buf_at buf (p + 3) * 2 ^ 24 + buf_at buf (p + 2) * 2 ^ 16)
    with ((buf_at buf (p + 3) * 256 + buf_at buf (p + 2)) * 2 ^ 16) by lia.
  rewrite (lor_mul_pow2_low _ _ 16) by lia.
  replace ((buf_at buf (p + 3) * 256 + buf_at buf (p + 2)) * 2 ^ 16
           + buf_at buf (p + 1) * 2 ^ 8)
    with (((buf_at buf (p + 3) * 256 + buf_at buf (p + 2)) * 256 + buf_at buf (p + 1)) * 2 ^ 8)
    by lia.
  rewrite lor_mul_pow2_low by lia.
  rewrite Z.mod_small; lia.
Qed.

Lemma land_0xFF (u : Z) : Z.land u 0xFF = u mod 256.
Proof. change 0xFF with (Z.ones 8). rewrite Z.land_ones by lia. reflexivity. Qed.

Lemma shiftr_8 (u : Z) : Z.shiftr u 8 = u / 256.
Proof. rewrite Z.shiftr_div_pow2 by lia. reflexivity. Qed.

(** * Further properties *)

(** ** The cursor of [decode_field] *)

Lemma decode_field_cases (f : field_def_t) (buf : list byte) (pos : Z)
        (vars : var_context_t) (e : endian_t) :
  let r := decode_field f buf pos vars e in
  if negb (decode_supported (fd_type f)) then
    fr_rc r = SCHEMA_ERR_TYPE /\ fr_pos r = pos /\ fr_vars r = vars
    /\ df_valid (fr_out r) = false
  else if negb (is_skip (fd_type f)) && (pos + decode_need f >? buf_len buf) then
    fr_rc r = SCHEMA_ERR_BUFFER /\ fr_pos r = pos /\ fr_vars r = vars
    /\ df_valid (fr_out r) = false
  else
    fr_rc r = SCHEMA_OK /\ fr_pos r = pos + decode_advance f
    /\ df_valid (fr_out r) = negb (is_skip (fd_type f)).
Proof.
  unfold decode_field, decode_advance, decode_need. cbv zeta.
  destruct (fd_type f) eqn:Hty; cbn [decode_supported negb is_skip andb];
    try (repeat split; reflexivity);
    try replace (pos >=? buf_len buf) with (pos + 1 >? buf_len buf)
      by (destruct (Z.gtb_spec (pos + 1) (buf_len buf));
          destruct (Z.geb_spec pos (buf_len buf)); lia || reflexivity);
    destruct (pos + _ >? buf_len buf);
    try (repeat split; reflexivity);
    repeat match goal with
           | |- context [match ?x with _ => _ end] => destruct x
           end;
    repeat split; cbn [fr_rc fr_pos fr_vars fr_out df_valid];
    try reflexivity; lia.
Qed.

(** X1: Whether a field is decoded depends on its type and on the bytes left
    only: an unsupported type gives the type error, too few bytes (for a
    type other than skip) the buffer error, and both leave the cursor
    and the variables as they were and the output slot invalid;
    otherwise the field is decoded and the cursor moves by an amount
    fixed by the field definition. *)
Theorem decode_field_outcome (f : field_def_t) (buf : list byte) (pos : Z)
        (vars : var_context_t) (e : endian_t) :
  let r := decode_field f buf pos vars e in
  if negb (decode_supported (fd_type f)) then
    fr_rc r = SCHEMA_ERR_TYPE /\ fr_pos r = pos /\ fr_vars r = vars
    /\ df_valid (fr_out r) = false
  else if negb (is_skip (fd_type f)) && (pos + decode_need f >? buf_len buf) then
    fr_rc r = SCHEMA_ERR_BUFFER /\ fr_pos r = pos /\ fr_vars r = vars
    /\ df_valid (fr_out r) = false
  else
    fr_rc r = SCHEMA_OK /\ fr_pos r = pos + decode_advance f
    /\ df_valid (fr_out r) = negb (is_skip (fd_type f)).
Proof. exact (decode_field_cases f buf pos vars e). Qed.

Lemma decode_field_ok_advance (f : field_def_t) (buf : list byte) (pos : Z)
      (vars : var_context_t) (e : endian_t) :
  fr_rc (decode_field f buf pos vars e) = SCHEMA_OK ->
  fr_pos (decode_field f buf pos vars e) = pos + decode_advance f
  /\ df_valid (fr_out (decode_field f buf pos vars e)) = negb (is_skip (fd_type f))
  /\ (is_skip (fd_type f) = false -> pos + decode_need f <= buf_len buf).
Proof.
  intros Hok. pose proof (decode_field_cases f buf pos vars e) as H. cbv zeta in H.
  destruct (negb (decode_supported (fd_type f))).
  - destruct H as (Hrc & _). rewrite Hrc in Hok. discriminate.
  - destruct (is_skip (fd_type f)); cbn [negb andb] in H.
    + destruct H as (_ & Hpos & Hval). repeat split; try assumption. discriminate.
    + destruct (Z.gtb_spec (pos + decode_need f) (buf_len buf)).
      * destruct H as (Hrc & _). rewrite Hrc in Hok. discriminate.
      * destruct H as (_ & Hpos & Hval). repeat split; try assumption.
        intros _. lia.
Qed.

Lemma decode_field_codes (f : field_def_t) (buf : list byte) (pos : Z)
      (vars : var_context_t) (e : endian_t) :
  fr_rc (decode_field f buf pos vars e) = SCHEMA_OK
  \/ fr_rc (decode_field f buf pos vars e) = SCHEMA_ERR_BUFFER
  \/ fr_rc (decode_field f buf pos vars e) = SCHEMA_ERR_TYPE.
Proof.
  pose proof (decode_field_cases f buf pos vars e) as H. cbv zeta in H.
  destruct (negb (decode_supported (fd_type f))); [tauto |].
  destruct (negb (is_skip (fd_type f)) && _); tauto.
Qed.

Lemma decode_field_within (f : field_def_t) (buf : list byte) (pos : Z)
        (vars : var_context_t) (e : endian_t) :
  bounded_field f ->
  fr_rc (decode_field f buf pos vars e) = SCHEMA_OK ->
  fr_pos (decode_field f buf pos vars e) <= buf_len buf.
Proof.
  intros (Hskip & Henum & _) Hok.
  destruct (decode_field_ok_advance f buf pos vars e Hok) as (Hpos & _ & Hneed).
  rewrite Hpos. unfold decode_advance, decode_need in *.
  destruct (fd_type f) eqn:Hty; cbn [is_skip] in Hneed;
    try specialize (Hneed eq_refl); try congruence;
    try lia; try (destruct (fd_consume f); lia).
  specialize (Henum eq_refl). destruct (Z.eqb_spec (fd_size f) 0); [contradiction | lia].
Qed.

(** X2: A field that is neither a skip nor an enum of size 0 is decoded
    only from bytes inside the buffer: after it the cursor is at most
    the length of the buffer. *)
Theorem decode_field_stays_in_buffer (f : field_def_t) (buf : list byte) (pos : Z)
        (vars : var_context_t) (e : endian_t) :
  bounded_field f ->
  fr_rc (decode_field f buf pos vars e) = SCHEMA_OK ->
  fr_pos (decode_field f buf pos vars e) <= buf_len buf.
Proof. exact (decode_field_within f buf pos vars e). Qed.

Lemma decode_field_stays_in_buffer_witness :
  fr_pos (decode_field (field_u16 "v" ENDIAN_BIG) [x01; x02; x03] 1 [] ENDIAN_BIG)
  <= buf_len [x01; x02; x03].
Proof.
  apply decode_field_stays_in_buffer.
  - split; [discriminate | split; [discriminate | vm_compute; discriminate]].
  - reflexivity.
Defined.

(** X3: An enum of size 0 is the exception among the data types: its bounds
    test asks for 0 bytes, and the decoder then reads one byte at the
    cursor and passes it.  With the cursor at the end of the buffer it
    succeeds, and leaves the cursor one past the end. *)
Theorem enum_of_size_0_passes_the_end (f : field_def_t) (buf : list byte)
        (vars : var_context_t) (e : endian_t) :
  fd_type f = FIELD_TYPE_ENUM ->
  fd_size f = 0 ->
  fr_rc (decode_field f buf (buf_len buf) vars e) = SCHEMA_OK
  /\ fr_pos (decode_field f buf (buf_len buf) vars e) = buf_len buf + 1
  /\ df_valid (fr_out (decode_field f buf (buf_len buf) vars e)) = true.
Proof.
  intros Hty Hsz.
  pose proof (decode_field_cases f buf (buf_len buf) vars e) as H. cbv zeta in H.
  unfold decode_need, decode_advance in H. rewrite Hty, Hsz in H.
  cbn [decode_supported negb is_skip andb Z.eqb] in H.
  destruct (Z.gtb_spec (buf_len buf + 0) (buf_len buf)); [lia | exact H].
Qed.

Lemma enum_of_size_0_passes_the_end_witness :
  fr_pos (decode_field (field_enum "e" 0) [x07] (buf_len [x07]) [] ENDIAN_BIG)
  = buf_len [x07] + 1.
Proof.
  apply (enum_of_size_0_passes_the_end (field_enum "e" 0) [x07] [] ENDIAN_BIG);
    reflexivity.
Defined.

(** ** Return codes and bounds of [schema_decode] *)

Lemma decode_case_fields_inv (schema : schema_t) (buf : list byte)
      (P : decode_state_t -> Prop) :
  (forall f st, In f (sc_fields schema) -> P st ->
                fr_rc (decode_field f buf (st_pos st) (st_vars st) (sc_endian schema))
                = SCHEMA_OK ->
                forall out,
                  P {| st_pos := fr_pos (decode_field f buf (st_pos st) (st_vars st)
                                                      (sc_endian schema));
                       st_vars := fr_vars (decode_field f buf (st_pos st) (st_vars st)
                                                        (sc_endian schema));
                       st_out := out |}) ->
  forall (n : nat) (idx : Z) (st : decode_state_t),
    P st ->
    P (snd (decode_case_fields schema buf n idx st))
    /\ (fst (decode_case_fields schema buf n idx st) = SCHEMA_OK
        \/ fst (decode_case_fields schema buf n idx st) = SCHEMA_ERR_BUFFER
        \/ fst (decode_case_fields schema buf n idx st) = SCHEMA_ERR_TYPE).
Proof.
  intros Hstep. induction n as [| n IH]; intros idx st HP; cbn [decode_case_fields].
  - cbn. auto.
  - destruct (idx >=? sc_field_count schema); [cbn; auto |].
    destruct (field_at schema idx) as [f |] eqn:Hat; [| cbn; auto].
    assert (Hin : In f (sc_fields schema)).
    { unfold field_at in Hat. destruct (idx <? 0); [discriminate |].
      eapply nth_error_In; eassumption. }
    destruct (Z.eqb_spec (fr_rc (decode_field f buf (st_pos st) (st_vars st)
                                              (sc_endian schema))) SCHEMA_OK)
      as [Hok | Hko]; cbn [negb].
    + apply IH. apply Hstep; assumption.
    + cbn [fst snd]. split; [assumption |].
      destruct (decode_field_codes f buf (st_pos st) (st_vars st) (sc_endian schema))
        as [H | H]; [contradiction | tauto].
Qed.

Lemma decode_loop_inv (schema : schema_t) (buf : list byte)
      (P : decode_state_t -> Prop) :
  (forall f st, In f (sc_fields schema) -> P st ->
                fr_rc (decode_field f buf (st_pos st) (st_vars st) (sc_endian schema))
                = SCHEMA_OK ->
                forall out,
                  P {| st_pos := fr_pos (decode_field f buf (st_pos st) (st_vars st)
                                                      (sc_endian schema));
                       st_vars := fr_vars (decode_field f buf (st_pos st) (st_vars st)
                                                        (sc_endian schema));
                       st_out := out |}) ->
  forall (fields : list field_def_t) (st : decode_state_t),
    incl fields (sc_fields schema) ->
    P st ->
    P (snd (decode_loop schema buf fields st))
    /\ (fst (decode_loop schema buf fields st) = SCHEMA_OK
        \/ fst (decode_loop schema buf fields st) = SCHEMA_ERR_BUFFER
        \/ fst (decode_loop schema buf fields st) = SCHEMA_ERR_TYPE).
Proof.
  intros Hstep. induction fields as [| f rest IH]; intros st Hincl HP; cbn [decode_loop].
  - cbn. auto.
  - assert (Hf : In f (sc_fields schema)) by (apply Hincl; left; reflexivity).
    assert (Hrest : incl rest (sc_fields schema))
      by (intros x Hx; apply Hincl; right; exact Hx).
    assert (Hone : P (snd (decode_step schema buf f st))
                   /\ (fst (decode_step schema buf f st) = SCHEMA_OK
                       \/ fst (decode_step schema buf f st) = SCHEMA_ERR_BUFFER
                       \/ fst (decode_step schema buf f st) = SCHEMA_ERR_TYPE)).
    { unfold decode_step. destruct (is_match (fd_type f)).
      - generalize (var_get (st_vars st) (strip_dollar (fd_match_var f))). intros v.
        induction (fd_cases f) as [| cs cases IHc]; cbn [decode_match].
        + cbn. auto.
        + destruct (case_matches cs v); [| exact IHc].
          apply decode_case_fields_inv; assumption.
      - destruct (Z.eqb_spec (fr_rc (decode_field f buf (st_pos st) (st_vars st)
                                                  (sc_endian schema))) SCHEMA_OK)
          as [Hok | Hko]; cbn [negb fst snd].
        + split; [apply Hstep; assumption | auto].
        + split; [assumption |].
          destruct (decode_field_codes f buf (st_pos st) (st_vars st) (sc_endian schema))
            as [H | H]; [contradiction | tauto]. }
    destruct (decode_step schema buf f st) as [rc st1]. cbn [fst snd] in Hone.
    destruct Hone as [HP1 Hrc1].
    destruct (Z.eqb_spec rc SCHEMA_OK) as [Hok | Hko]; cbn [negb].
    + apply IH; assumption.
    + cbn [fst snd]. split; [assumption |].
      destruct Hrc1 as [H | H]; [contradiction | right; exact H].
Qed.



Lemma decode_cursor_within (schema : schema_t) (buf : list byte) :
  Forall bounded_field (sc_fields schema) ->
  fst (schema_decode schema buf) = SCHEMA_OK ->
  0 <= cursor_at_return schema buf <= buf_len buf
  /\ (buf_len buf < 2 ^ 31 ->
      dr_bytes_consumed (snd (schema_decode schema buf)) = cursor_at_return schema buf).
Proof.
  intros Hall Hok.
  assert (Hinv : 0 <= cursor_at_return schema buf <= buf_len buf).
  { unfold cursor_at_return.
    apply (decode_loop_inv schema buf (fun st => 0 <= st_pos st <= buf_len buf)).
    - intros f st Hin Hst Hrc out. cbn [st_pos].
      rewrite Forall_forall in Hall.
      pose proof (decode_field_within f buf (st_pos st) (st_vars st)
                        (sc_endian schema) (Hall f Hin) Hrc) as Hle.
      destruct (decode_field_ok_advance _ _ _ _ _ Hrc) as (Hpos & _).
      split; [| exact Hle]. rewrite Hpos.
      assert (0 <= decode_advance f).
      { destruct (Hall f Hin) as (Hs & He & Hsz).
        pose proof (decode_field_ok_advance _ _ _ _ _ Hrc) as (_ & _ & Hneed).
        unfold decode_advance, decode_need in *.
        destruct (fd_type f); try destruct (fd_consume f);
          try destruct (Z.eqb_spec (fd_size f) 0); try lia; try congruence;
          cbn [is_skip] in Hneed; specialize (Hneed eq_refl); lia. }
      lia.
    - apply incl_refl.
    - cbn. unfold buf_len. lia. }
  split; [exact Hinv |].
  intros Hsmall. unfold schema_decode, cursor_at_return in *.
  destruct (decode_loop schema buf (sc_fields schema) decode_init) as [rc st].
  cbn [snd] in *.
  destruct (Z.eqb_spec rc SCHEMA_OK) as [Hrc | Hrc]; cbn [negb fst snd] in *.
  - cbn [dr_bytes_consumed]. unfold to_i32, to_signed. rewrite Z.mod_small; lia.
  - congruence.
Qed.



(** ** The output of a schema without match fields *)

Lemma decode_field_type (field : field_def_t) (buf : list byte) (pos : Z)
      (vars : var_context_t) (e : endian_t) :
  df_type (fr_out (decode_field field buf pos vars e)) = fd_type field.
Proof.
  unfold decode_field.
  repeat match goal with
         | |- context [match ?x with _ => _ end] => destruct x
         end; reflexivity.
Qed.

Lemma decode_loop_entries (schema : schema_t) (buf : list byte)
      (fields : list field_def_t) :
  forall (st st' : decode_state_t),
    (forall f, In f fields -> is_match (fd_type f) = false) ->
    decode_loop schema buf fields st = (SCHEMA_OK, st') ->
    map entry_of_decoded (st_out st')
    = map entry_of_decoded (st_out st) ++ map entry_of_field (filter emitted fields).
Proof.
  induction fields as [| f rest IH]; intros st st' Hnm Hrun; cbn [decode_loop] in Hrun.
  - inversion Hrun; subst. cbn. rewrite app_nil_r. reflexivity.
  - rewrite (decode_step_regular schema buf f st (Hnm f (or_introl eq_refl))) in Hrun.
    cbv zeta in Hrun.
    destruct (fr_rc _ =? SCHEMA_OK) eqn:Hrc.
    + change (negb (SCHEMA_OK =? SCHEMA_OK)) with false in Hrun. cbv iota in Hrun.
      apply Z.eqb_eq in Hrc.
      destruct (decode_field_ok_advance _ _ _ _ _ Hrc) as (_ & Hvalid & _).
      rewrite (IH _ _ (fun g Hg => Hnm g (or_intror Hg)) Hrun).
      cbn [st_out filter]. unfold emitted at 2. rewrite <- Hvalid.
      destruct (df_valid _ && nonempty (fd_name f) && _).
      * rewrite map_app, <- app_assoc. cbn [map app].
        unfold entry_of_decoded at 2, entry_of_field at 2.
        rewrite decode_field_name, decode_field_type. reflexivity.
      * reflexivity.
    + destruct (negb (fr_rc _ =? SCHEMA_OK)) eqn:Hn.
      * inversion Hrun. rewrite H0 in Hrc. discriminate.
      * rewrite Hrc in Hn. discriminate.
Qed.

(** X6: When a schema without match fields decodes a payload, the result
    lists, in the order of the schema, exactly the fields that are not
    skips, have a name and whose name does not start with an
    underscore, each under its name cut to 31 characters and with its
    type. *)
Theorem match_free_output_entries (schema : schema_t) (buf : list byte) :
  match_free schema ->
  fst (schema_decode schema buf) = SCHEMA_OK ->
  map entry_of_decoded (dr_fields (snd (schema_decode schema buf)))
  = map entry_of_field (filter emitted (sc_fields schema)).
Proof.
  intros Hnm Hok.
  destruct (schema_decode_code schema buf) as [Hc Hf]. rewrite Hf. rewrite Hc in Hok.
  destruct (decode_loop schema buf (sc_fields schema) decode_init) as [rc st] eqn:Hrun.
  cbn [fst snd] in *. subst rc.
  exact (decode_loop_entries schema buf _ _ _ Hnm Hrun).
Qed.

Lemma match_free_output_entries_witness :
  map entry_of_decoded
      (dr_fields (snd (schema_decode env_schema [x09; x29; x82; x0c; xe4; x00; xff])))
  = map entry_of_field (filter emitted (sc_fields env_schema)).
Proof.
  apply match_free_output_entries.
  - intros f Hin. cbn in Hin.
    repeat (destruct Hin as [<- | Hin]; [reflexivity |]). contradiction.
  - vm_compute. reflexivity.
Defined.

(** ** The encoder: codes, cursor and written bytes *)

Lemma length_list_set (l : list byte) (i : nat) (v : byte) :
  List.length (list_set l i v) = List.length l.
Proof.
  revert i; induction l as [| x r IH]; intros [| i]; cbn; auto.
Qed.

Lemma length_buf_set (buf : list byte) (i v : Z) :
  List.length (buf_set buf i v) = List.length buf.
Proof. unfold buf_set. destruct (i <? 0); [reflexivity | apply length_list_set]. Qed.

Lemma nth_list_set_other (l : list byte) (i j : nat) (v : byte) :
  i <> j -> nth i (list_set l j v) x00 = nth i l x00.
Proof.
  revert i j; induction l as [| x r IH]; intros [| i] [| j] Hij; cbn; auto; try lia.
Qed.

Lemma buf_at_buf_set_other (buf : list byte) (i j v : Z) :
  i <> j -> buf_at (buf_set buf j v) i = buf_at buf i.
Proof.
  intros Hij. unfold buf_at, buf_set.
  destruct (Z.ltb_spec i 0); [reflexivity |].
  destruct (Z.ltb_spec j 0); [reflexivity |].
  rewrite nth_list_set_other by lia. reflexivity.
Qed.

Lemma write_int_be_frame (n : nat) :
  forall (buf : list byte) (pos uval i : Z),
    i < pos \/ pos + Z.of_nat n <= i ->
    List.length (write_int_be buf pos uval n) = List.length buf
    /\ buf_at (write_int_be buf pos uval n) i = buf_at buf i.
Proof.
  induction n as [| n IH]; intros buf pos uval i Hi; cbn [write_int_be]; [auto |].
  destruct (IH (buf_set buf (pos + Z.of_nat n) (Z.land uval 255)) pos
               (Z.shiftr uval 8) i ltac:(lia)) as [Hl Ha].
  rewrite Hl, Ha, length_buf_set, buf_at_buf_set_other by lia. auto.
Qed.

Lemma write_int_le_frame (n : nat) :
  forall (buf : list byte) (pos uval i : Z),
    i < pos \/ pos + Z.of_nat n <= i ->
    List.length (write_int_le buf pos uval n) = List.length buf
    /\ buf_at (write_int_le buf pos uval n) i = buf_at buf i.
Proof.
  induction n as [| n IH]; intros buf pos uval i Hi; cbn [write_int_le]; [auto |].
  destruct (IH (buf_set buf pos (Z.land uval 255)) (pos + 1)
               (Z.shiftr uval 8) i ltac:(lia)) as [Hl Ha].
  rewrite Hl, Ha, length_buf_set, buf_at_buf_set_other by lia. auto.
Qed.

Lemma write_int_frame (buf : list byte) (pos val size : Z) (e : endian_t) (i : Z) :
  0 <= size ->
  i < pos \/ pos + size <= i ->
  List.length (fst (write_int buf pos val size e)) = List.length buf
  /\ buf_at (fst (write_int buf pos val size e)) i = buf_at buf i
  /\ snd (write_int buf pos val size e) = pos + size.
Proof.
  intros Hs Hi. unfold write_int. cbn [fst snd].
  destruct (is_big e).
  - destruct (write_int_be_frame (Z.to_nat size) buf pos (to_u64 val) i ltac:(lia)); auto.
  - destruct (write_int_le_frame (Z.to_nat size) buf pos (to_u64 val) i ltac:(lia)); auto.
Qed.

Lemma write_zeros_frame (n : nat) :
  forall (buf : list byte) (pos i : Z),
    i < pos \/ pos + Z.of_nat n <= i ->
    List.length (fst (write_zeros buf pos n)) = List.length buf
    /\ buf_at (fst (write_zeros buf pos n)) i = buf_at buf i
    /\ snd (write_zeros buf pos n) = pos + Z.of_nat n.
Proof.
  induction n as [| n IH]; intros buf pos i Hi; cbn [write_zeros].
  - cbn. repeat split; lia.
  - destruct (IH (buf_set buf pos 0) (pos + 1) i ltac:(lia)) as (Hl & Ha & Hp).
    rewrite Hl, Ha, Hp, length_buf_set, buf_at_buf_set_other by lia.
    repeat split; lia.
Qed.

Lemma encode_field_cases (f : field_def_t) (inputs : encode_inputs_t)
        (buf : list byte) (pos : Z) (e : endian_t) :
  let r := encode_field f inputs buf pos e in
  List.length (buf_of r) = List.length buf
  /\ match find_input inputs (fd_name f), is_skip (fd_type f) with
     | None, false => rc_of r = SCHEMA_ERR_PARSE /\ buf_of r = buf /\ pos_of r = pos
     | _, _ =>
         if encode_supported (fd_type f)
         then rc_of r = SCHEMA_OK /\ pos_of r = pos + encode_width f
         else rc_of r = SCHEMA_ERR_UNSUPPORTED /\ buf_of r = buf /\ pos_of r = pos
     end.
Proof.
  cbv zeta. unfold encode_field, encode_width, rc_of, buf_of, pos_of.
  cbv beta zeta.
  assert (Hw : forall v size en,
             0 <= size ->
             List.length (fst (write_int buf pos v size en)) = List.length buf
             /\ snd (write_int buf pos v size en) = pos + size).
  { intros v size en Hs.
    destruct (write_int_frame buf pos v size en (pos - 1) Hs ltac:(lia)) as (? & _ & ?).
    auto. }
  assert (Hz : List.length (fst (write_zeros buf pos (Z.to_nat (fd_size f))))
               = List.length buf
               /\ snd (write_zeros buf pos (Z.to_nat (fd_size f)))
                  = pos + Z.max 0 (fd_size f)).
  { destruct (write_zeros_frame (Z.to_nat (fd_size f)) buf pos (pos - 1) ltac:(lia))
      as (? & _ & ?). split; [assumption | lia]. }
  destruct (find_input inputs (fd_name f)) as [v |];
    destruct (fd_type f) eqn:Hty; cbn [is_skip encode_supported fst snd];
    rewrite ?length_buf_set;
    try (split; [reflexivity | repeat split; reflexivity]);
    try (destruct Hz as [Hl Hp]; rewrite Hl, Hp; auto);
    try match goal with
    | |- context [write_int buf pos ?v ?s ?en] =>
        destruct (Hw v s en ltac:(lia)) as [Hl Hp]; rewrite Hl, Hp; auto
    end.
  all: destruct (fd_consume f); repeat split; lia.
Qed.

(** X7: [encode_field] tests for a missing input first, then for the type.
    It fails with the parse error when the field is not a skip and has
    no input, with the unsupported error when the type has no case, and
    then leaves buffer and cursor as they were.  Otherwise it returns 0
    and moves the cursor by the width of the type.  It never changes
    the length of the buffer. *)
Theorem encode_field_outcome (f : field_def_t) (inputs : encode_inputs_t)
        (buf : list byte) (pos : Z) (e : endian_t) :
  let r := encode_field f inputs buf pos e in
  List.length (buf_of r) = List.length buf
  /\ match find_input inputs (fd_name f), is_skip (fd_type f) with
     | None, false => rc_of r = SCHEMA_ERR_PARSE /\ buf_of r = buf /\ pos_of r = pos
     | _, _ =>
         if encode_supported (fd_type f)
         then rc_of r = SCHEMA_OK /\ pos_of r = pos + encode_width f
         else rc_of r = SCHEMA_ERR_UNSUPPORTED /\ buf_of r = buf /\ pos_of r = pos
     end.
Proof. exact (encode_field_cases f inputs buf pos e). Qed.

(** X8: [encode_field] writes only at the cursor and up to the width of the
    field behind it; every other byte of the buffer is the one that was
    there. *)
Theorem encode_field_frame (f : field_def_t) (inputs : encode_inputs_t)
        (buf : list byte) (pos : Z) (e : endian_t) (i : Z) :
  i < pos \/ pos + encode_span f <= i ->
  buf_at (buf_of (encode_field f inputs buf pos e)) i = buf_at buf i.
Proof.
  unfold encode_field, encode_span, encode_width, buf_of.
  cbv beta zeta. intros Hi.
  destruct (find_input inputs (fd_name f)) as [v |];
    destruct (fd_type f) eqn:Hty; cbn [is_skip fst snd] in *;
    try reflexivity;
    try (apply buf_at_buf_set_other; lia);
    try (apply write_zeros_frame; lia);
    apply write_int_frame; lia.
Qed.

Lemma encode_field_frame_witness :
  buf_at (buf_of (encode_field (field_u16 "battery" ENDIAN_BIG) env_inputs
                               [x11; x22; x33; x44] 1 ENDIAN_BIG)) 3
  = buf_at [x11; x22; x33; x44] 3.
Proof.
  apply encode_field_frame. right. vm_compute. discriminate.
Defined.

(** ** [schema_encode]: when it succeeds and how long the payload is *)

Lemma encode_loop_outcome (schema : schema_t) (inputs : encode_inputs_t)
      (fields : list field_def_t) :
  forall (buf : list byte) (pos : Z),
    let r := encode_loop schema inputs fields buf pos in
    List.length (buf_of r) = List.length buf
    /\ if forallb (encodable inputs) (filter encoded fields)
       then rc_of r = SCHEMA_OK
            /\ pos_of r = pos + sum_Z (map encode_width (filter encoded fields))
       else rc_of r = SCHEMA_ERR_PARSE \/ rc_of r = SCHEMA_ERR_UNSUPPORTED.
Proof.
  induction fields as [| f rest IH]; intros buf pos; cbn [encode_loop filter].
  - cbn. repeat split; lia.
  - unfold encoded at 1 3 4.
    destruct (Ascii.eqb (first_char (fd_name f)) "_" || is_match (fd_type f));
      cbn [negb]; [apply IH |].
    pose proof (encode_field_cases f inputs buf pos (sc_endian schema)) as Hf.
    cbv zeta in Hf. unfold rc_of, buf_of, pos_of in Hf.
    destruct (encode_field f inputs buf pos (sc_endian schema)) as [[rc buf'] pos'].
    cbn [fst snd] in Hf. destruct Hf as [Hlen Hf].
    cbn [forallb map sum_Z fold_right]. unfold encodable at 1.
    specialize (IH buf' pos'). cbv zeta in IH. rewrite Hlen in IH.
    destruct (find_input inputs (fd_name f)) as [v |];
      destruct (is_skip (fd_type f)); cbn [orb andb];
      destruct (encode_supported (fd_type f)); cbn [andb];
      try (destruct Hf as (-> & -> & ->); cbn; auto; fail);
      destruct Hf as (-> & ->); cbn [Z.eqb SCHEMA_OK negb];
      change (negb (SCHEMA_OK =? SCHEMA_OK)) with false; cbv iota;
      (destruct IH as [IHl IHr]; split; [exact IHl |]);
      destruct (forallb (encodable inputs) (filter encoded rest)); try exact IHr;
      destruct IHr as [-> ->]; (split; [reflexivity |]).
  all: unfold sum_Z; lia.
Qed.

Lemma schema_encode_cases (schema : schema_t) (inputs : encode_inputs_t) :
  let r := schema_encode schema inputs in
  let fields := filter encoded (sc_fields schema) in
  buf_len (er_data (snd r)) = SCHEMA_MAX_PAYLOAD
  /\ er_error_code (snd r) = fst r
  /\ if forallb (encodable inputs) fields
     then fst r = SCHEMA_OK
          /\ er_len (snd r) = to_i32 (sum_Z (map encode_width fields))
     else (fst r = SCHEMA_ERR_PARSE \/ fst r = SCHEMA_ERR_UNSUPPORTED)
          /\ er_len (snd r) = 0.
Proof.
  cbv zeta. unfold schema_encode.
  pose proof (encode_loop_outcome schema inputs (sc_fields schema) zero_data 0) as H.
  cbv zeta in H. unfold rc_of, buf_of, pos_of in H.
  destruct (encode_loop schema inputs (sc_fields schema) zero_data 0) as [[rc buf] pos].
  cbn [fst snd] in H. destruct H as [Hlen H].
  assert (Hdata : buf_len buf = SCHEMA_MAX_PAYLOAD).
  { unfold buf_len. rewrite Hlen. reflexivity. }
  destruct (forallb (encodable inputs) (filter encoded (sc_fields schema))).
  - destruct H as [-> ->]. cbn [negb fst snd er_data er_len er_error_code Z.eqb SCHEMA_OK].
    rewrite ?Z.add_0_l. auto.
  - destruct H as [-> | ->]; cbn; auto.
Qed.

(** X9: For a schema whose encoded fields (those that are not a match and
    whose name does not start with an underscore) write at most 256
    bytes together, the capacity of the data array, [schema_encode]
    succeeds exactly when every such field has a type the encoder writes
    and is a skip or has an input.  It then reports as length the sum of
    the widths of those fields, as a 32-bit integer, and code 0.
    Otherwise it returns the parse or the unsupported error, stores it,
    and reports length 0.  The data array keeps its 256 bytes. *)
Theorem schema_encode_outcome (schema : schema_t) (inputs : encode_inputs_t) :
  encode_within_capacity schema ->
  let r := schema_encode schema inputs in
  let fields := filter encoded (sc_fields schema) in
  buf_len (er_data (snd r)) = SCHEMA_MAX_PAYLOAD
  /\ er_error_code (snd r) = fst r
  /\ if forallb (encodable inputs) fields
     then fst r = SCHEMA_OK
          /\ er_len (snd r) = to_i32 (sum_Z (map encode_width fields))
     else (fst r = SCHEMA_ERR_PARSE \/ fst r = SCHEMA_ERR_UNSUPPORTED)
          /\ er_len (snd r) = 0.
Proof. intros _. exact (schema_encode_cases schema inputs). Qed.

Lemma schema_encode_outcome_witness :
  er_error_code (snd (schema_encode env_schema env_inputs))
  = fst (schema_encode env_schema env_inputs).
Proof.
  refine (proj1 (proj2 (schema_encode_outcome env_schema env_inputs _))).
  vm_compute. discriminate.
Defined.

Lemma encode_width_bounds (f : field_def_t) :
  0 <= encode_width f
  /\ (fd_type f <> FIELD_TYPE_SKIP -> encode_width f <= 8).
Proof.
  unfold encode_width.
  destruct (fd_type f); try destruct (fd_consume f); split; intros; try lia; congruence.
Qed.

Lemma sum_widths_bounds (fields : list field_def_t) :
  (forall f, In f fields -> fd_type f <> FIELD_TYPE_SKIP) ->
  0 <= sum_Z (map encode_width (filter encoded fields))
  <= 8 * Z.of_nat (List.length fields).
Proof.
  induction fields as [| f rest IH]; intros Hns; [cbn; lia |].
  specialize (IH (fun g Hg => Hns g (or_intror Hg))).
  destruct (encode_width_bounds f) as [H0 H8].
  specialize (H8 (Hns f (or_introl eq_refl))).
  cbn [filter List.length]. destruct (encoded f); cbn [map sum_Z fold_right];
    unfold sum_Z in *; lia.
Qed.

(** X10: A schema of at most 32 fields, none of them a skip, is encoded
    inside the 256 bytes of the result: each field takes at most 8
    bytes, so the length reported on success is the sum of the widths,
    at most 256, and the payload has that many bytes. *)
Theorem schema_encode_fits_payload (schema : schema_t) (inputs : encode_inputs_t) :
  sc_field_count schema <= SCHEMA_MAX_FIELDS ->
  (forall f, In f (sc_fields schema) -> fd_type f <> FIELD_TYPE_SKIP) ->
  fst (schema_encode schema inputs) = SCHEMA_OK ->
  er_len (snd (schema_encode schema inputs))
  = sum_Z (map encode_width (filter encoded (sc_fields schema)))
  /\ 0 <= er_len (snd (schema_encode schema inputs)) <= SCHEMA_MAX_PAYLOAD
  /\ buf_len (encoded_bytes (snd (schema_encode schema inputs)))
     = er_len (snd (schema_encode schema inputs)).
Proof.
  intros Hcount Hns Hok.
  pose proof (schema_encode_cases schema inputs) as H. cbv zeta in H.
  destruct H as (Hdata & _ & H).
  pose proof (sum_widths_bounds (sc_fields schema) Hns) as Hsum.
  unfold sc_field_count, SCHEMA_MAX_FIELDS in Hcount.
  destruct (forallb (encodable inputs) (filter encoded (sc_fields schema))).
  - destruct H as [_ Hlen].
    assert (Hwrap : to_i32 (sum_Z (map encode_width (filter encoded (sc_fields schema))))
                    = sum_Z (map encode_width (filter encoded (sc_fields schema)))).
    { unfold to_i32, to_signed. rewrite Z.mod_small; lia. }
    rewrite Hwrap in Hlen. unfold SCHEMA_MAX_PAYLOAD in *.
    split; [exact Hlen |]. split; [lia |].
    unfold encoded_bytes, buf_len in *. rewrite length_firstn. lia.
  - destruct H as [[H | H] _]; rewrite H in Hok; discriminate.
Qed.

Lemma schema_encode_fits_payload_witness :
  er_len (snd (schema_encode env_schema env_inputs))
  = sum_Z (map encode_width (filter encoded (sc_fields env_schema))).
Proof.
  apply (schema_encode_fits_payload env_schema env_inputs).
  - vm_compute. discriminate.
  - intros f Hin. cbn in Hin.
    repeat (destruct Hin as [<- | Hin]; [discriminate |]). contradiction.
  - vm_compute. reflexivity.
Defined.

(** ** Bitfields: what the encoder writes and the decoder reads back *)

Lemma nth_list_set_same (l : list byte) (i : nat) (v : byte) :
  (i < List.length l)%nat -> nth i (list_set l i v) x00 = v.
Proof.
  revert i; induction l as [| x r IH]; intros [| i] Hi; cbn in *; try lia; auto.
  apply IH. lia.
Qed.

Lemma buf_at_buf_set_same (buf : list byte) (i v : Z) :
  0 <= i < buf_len buf -> buf_at (buf_set buf i v) i = v mod 256.
Proof.
  unfold buf_len. intros Hi. unfold buf_at, buf_set.
  destruct (Z.ltb_spec i 0); [lia |].
  rewrite nth_list_set_same by lia. apply u8_of_byte_of_Z.
Qed.

Lemma testbit_to_u8 (x k : Z) :
  0 <= k < 8 -> Z.testbit (to_u8 x) k = Z.testbit x k.
Proof. intros Hk. unfold to_u8. apply Z.mod_pow2_bits_low. lia. Qed.

Lemma shiftl_1_ones (w : Z) : 0 <= w -> Z.shiftl 1 w - 1 = Z.ones w.
Proof. intros Hw. rewrite Z.ones_equiv, Z.shiftl_1_l. lia. Qed.

Lemma testbit_ones_range (w k : Z) :
  0 <= w -> Z.testbit (Z.ones w) k = (0 <=? k) && (k <? w).
Proof.
  intros Hw. destruct (Z.leb_spec 0 k); cbn [andb].
  - apply Z.testbit_ones_nonneg; lia.
  - apply Z.testbit_neg_r. lia.
Qed.

(** Within the width of an [int] the C shifts are the shifts of [Z]. *)
Lemma to_u8_to_signed (w x : Z) : 8 <= w -> to_u8 (to_signed w x) = to_u8 x.
Proof.
  intros Hw. unfold to_u8, to_signed.
  assert (H8 : 2 ^ w = 2 ^ 8 * 2 ^ (w - 8))
    by (rewrite <- Z.pow_add_r by lia; f_equal; lia).
  assert (Hh : 2 ^ (w - 1) = 2 ^ 8 * 2 ^ (w - 9) \/ w = 8).
  { destruct (Z.eq_dec w 8) as [-> | Hne]; [right; reflexivity | left].
    rewrite <- Z.pow_add_r by lia. f_equal. lia. }
  pose proof (Z.pow_pos_nonneg 2 (w - 8) ltac:(lia) ltac:(lia)) as Hp.
  destruct Hh as [Hh | ->].
  - rewrite Hh, H8.
    set (a := 2 ^ (w - 9)) in *. set (b := 2 ^ (w - 8)) in *.
    Z.to_euclidean_division_equations; nia.
  - change (2 ^ (8 - 1)) with 128. change (2 ^ 8) with 256.
    Z.to_euclidean_division_equations; lia.
Qed.

Lemma bit_mask_small (w : Z) : 0 <= w < 32 -> bit_mask w = Z.shiftl 1 w - 1.
Proof.
  intros Hw. unfold bit_mask, shl_i32. rewrite Z.mod_small by lia.
  rewrite Z.shiftl_1_l.
  assert (Hp : 1 <= 2 ^ w <= 2 ^ 31).
  { split; [pose proof (Z.pow_pos_nonneg 2 w); lia | apply Z.pow_le_mono_r; lia]. }
  unfold to_i32, to_signed. change (2 ^ (32 - 1)) with 2147483648 in *.
  change (2 ^ 32) with 4294967296. change (2 ^ 31) with 2147483648 in *.
  Z.to_euclidean_division_equations; lia.
Qed.

Lemma shr_i32_small (x n : Z) : 0 <= n < 32 -> shr_i32 x n = Z.shiftr x n.
Proof. intros Hn. unfold shr_i32. rewrite Z.mod_small by lia. reflexivity. Qed.

Lemma to_u8_shl_i32 (x n : Z) : 0 <= n < 32 -> to_u8 (shl_i32 x n) = to_u8 (Z.shiftl x n).
Proof.
  intros Hn. unfold shl_i32, to_i32. rewrite to_u8_to_signed by lia.
  rewrite Z.mod_small by lia. reflexivity.
Qed.

Lemma to_u8_lor_shl_i64 (a x n : Z) :
  0 <= n < 64 -> to_u8 (Z.lor a (shl_i64 x n)) = to_u8 (Z.lor a (Z.shiftl x n)).
Proof.
  intros Hn. unfold shl_i64, to_i64. rewrite Z.mod_small by lia.
  unfold to_u8. rewrite <- !Z.land_ones by lia.
  rewrite !Z.land_lor_distr_l. f_equal.
  rewrite !Z.land_ones by lia. apply (to_u8_to_signed 64). lia.
Qed.

(** Bit [k] of the byte the encoder leaves for a bitfield. *)
Lemma bits_byte_testbit (old v start width k : Z) :
  0 <= start -> 0 <= width -> 0 <= k < 8 ->
  let field_mask := Z.shiftl 1 width - 1 in
  let mask := to_u8 (Z.shiftl field_mask start) in
  Z.testbit
    (to_u8 (Z.lor (to_u8 (Z.land old (Z.lnot mask)))
                  (Z.shiftl (Z.land v field_mask) start))) k
  = if in_bitfield start width k then Z.testbit v (k - start) else Z.testbit old k.
Proof.
  intros Hs Hw Hk. cbv zeta. rewrite shiftl_1_ones by lia.
  rewrite testbit_to_u8, Z.lor_spec, testbit_to_u8, Z.land_spec, Z.lnot_spec,
    testbit_to_u8, !Z.shiftl_spec, Z.land_spec, !testbit_ones_range by lia.
  unfold in_bitfield.
  destruct (Z.leb_spec start k); destruct (Z.ltb_spec k (start + width));
    destruct (Z.leb_spec 0 (k - start)); destruct (Z.ltb_spec (k - start) width);
    try lia; cbn [andb negb orb];
    rewrite ?andb_true_r, ?andb_false_r, ?orb_false_r, ?orb_false_l; reflexivity.
Qed.

Lemma extract_bits_testbit (b start width k : Z) :
  0 <= start < 32 -> 0 <= width < 32 -> 0 <= k ->
  Z.testbit (extract_bits b start width) k
  = (k <? 8) && Z.testbit b (k + start) && (k <? width).
Proof.
  intros Hs Hw Hk. unfold extract_bits, to_u8.
  rewrite bit_mask_small, shr_i32_small by lia.
  rewrite shiftl_1_ones by lia.
  destruct (Z.ltb_spec k 8); cbn [andb].
  - rewrite Z.mod_pow2_bits_low, Z.land_spec, Z.shiftr_spec, testbit_ones_range by lia.
    destruct (Z.leb_spec 0 k); [reflexivity | lia].
  - apply Z.mod_pow2_bits_high. lia.
Qed.

(** X11: A bitfield whose start and width are below 32 (the range in which
    C defines the shifts of an [int]) is written into the byte at the
    cursor without touching the other bits of that byte: encoded from an
    integer [z] with no modifier, bit [k] of the byte is bit [k - start]
    of [z] inside the field and the bit that was there outside it.  So a
    field that fits the byte reads back as [z] modulo [2 ^ width], and
    any bitfield beside it in the same byte (start and width below 32 as
    well) reads back as before. *)
Theorem encode_bits_packs (f : field_def_t) (inputs : encode_inputs_t)
        (buf : list byte) (pos : Z) (e : endian_t) (z : Z) :
  fd_type f = FIELD_TYPE_BITS ->
  unmodified f ->
  input_gives inputs f z ->
  - 2 ^ 52 < z < 2 ^ 52 ->
  0 <= pos < buf_len buf ->
  0 <= fd_bit_start f < 32 -> 0 <= fd_bit_width f < 32 ->
  let b' := buf_at (buf_of (encode_field f inputs buf pos e)) pos in
  (forall k, 0 <= k < 8 ->
             Z.testbit b' k
             = if in_bitfield (fd_bit_start f) (fd_bit_width f) k
               then Z.testbit z (k - fd_bit_start f)
               else Z.testbit (buf_at buf pos) k)
  /\ (fd_bit_start f + fd_bit_width f <= 8 ->
      extract_bits b' (fd_bit_start f) (fd_bit_width f) = z mod 2 ^ fd_bit_width f)
  /\ (forall start width,
         0 <= start < 32 -> 0 <= width < 32 ->
         start + width <= fd_bit_start f \/ fd_bit_start f + fd_bit_width f <= start ->
         extract_bits b' start width = extract_bits (buf_at buf pos) start width).
Proof.
  intros Hty (Hmult & Hdiv & Hadd) Hin Hz Hpos Hs Hw. cbv zeta.
  assert (Hbits : forall k, 0 <= k < 8 ->
             Z.testbit (buf_at (buf_of (encode_field f inputs buf pos e)) pos) k
             = if in_bitfield (fd_bit_start f) (fd_bit_width f) k
               then Z.testbit z (k - fd_bit_start f)
               else Z.testbit (buf_at buf pos) k).
  { intros k Hk.
    unfold encode_field, input_gives, buf_of in *. cbv zeta.
    rewrite Hin, Hty, Hmult, Hdiv, Hadd. cbv beta iota. cbn [input_f64 andb fst snd].
    rewrite round_of_integer by exact Hz.
    rewrite buf_at_buf_set_same by exact Hpos.
    rewrite to_u8_lor_shl_i64, to_u8_shl_i32, bit_mask_small by lia.
    change 256 with (2 ^ 8). fold (to_u8 (to_u8
      (Z.lor (to_u8 (Z.land (buf_at buf pos)
                            (Z.lnot (to_u8 (Z.shiftl (Z.shiftl 1 (fd_bit_width f) - 1)
                                                     (fd_bit_start f))))))
             (Z.shiftl (Z.land z (Z.shiftl 1 (fd_bit_width f) - 1)) (fd_bit_start f))))).
    rewrite testbit_to_u8 by lia.
    apply (bits_byte_testbit (buf_at buf pos) z (fd_bit_start f) (fd_bit_width f) k);
      lia. }
  assert (Hhigh : forall k, 8 <= k ->
             Z.testbit (buf_at (buf_of (encode_field f inputs buf pos e)) pos) k = false).
  { intros k Hk. pose proof (buf_at_range (buf_of (encode_field f inputs buf pos e)) pos).
    apply Z.bits_above_log2; [lia |].
    destruct (Z.eq_dec (buf_at (buf_of (encode_field f inputs buf pos e)) pos) 0) as [-> | Hnz].
    - cbn. lia.
    - apply Z.log2_lt_pow2; [lia |]. 
      apply Z.lt_le_trans with (2 ^ 8); [lia |]. apply Z.pow_le_mono_r; lia. }
  assert (Hold : forall k, 8 <= k -> Z.testbit (buf_at buf pos) k = false).
  { intros k Hk. pose proof (buf_at_range buf pos).
    apply Z.bits_above_log2; [lia |].
    destruct (Z.eq_dec (buf_at buf pos) 0) as [-> | Hnz].
    - cbn. lia.
    - apply Z.log2_lt_pow2; [lia |].
      apply Z.lt_le_trans with (2 ^ 8); [lia |]. apply Z.pow_le_mono_r; lia. }
  split; [exact Hbits |]. split.
  - intros Hfit. apply Z.bits_inj'. intros k Hk.
    rewrite extract_bits_testbit by lia.
    rewrite <- Z.land_ones, Z.land_spec, testbit_ones_range by lia.
    destruct (Z.leb_spec 0 k); [cbn [andb] | lia].
    destruct (Z.ltb_spec k 8); cbn [andb].
    + destruct (Z.ltb_spec k (fd_bit_width f)); rewrite ?andb_false_r; [| reflexivity].
      rewrite Hbits by lia. unfold in_bitfield.
      destruct (Z.leb_spec (fd_bit_start f) (k + fd_bit_start f)); [| lia].
      destruct (Z.ltb_spec (k + fd_bit_start f) (fd_bit_start f + fd_bit_width f)); [| lia].
      cbn [andb]. rewrite ?andb_true_r.
      replace (k + fd_bit_start f - fd_bit_start f) with k by lia. reflexivity.
    + destruct (Z.ltb_spec k (fd_bit_width f)); [lia | rewrite andb_false_r; reflexivity].
  - intros start width Hst Hwd Hdisj. apply Z.bits_inj'. intros k Hk.
    rewrite !extract_bits_testbit by lia.
    destruct (Z.ltb_spec k 8); cbn [andb]; [| reflexivity].
    destruct (Z.ltb_spec k width); rewrite ?andb_false_r; [| reflexivity].
    rewrite !andb_true_r.
    destruct (Z_lt_le_dec (k + start) 8) as [Hlt | Hge].
    + rewrite Hbits by lia. unfold in_bitfield.
      destruct (Z.leb_spec (fd_bit_start f) (k + start));
        destruct (Z.ltb_spec (k + start) (fd_bit_start f + fd_bit_width f));
        cbn [andb]; try reflexivity; lia.
    + rewrite Hhigh, Hold by lia. reflexivity.
Qed.

Lemma encode_bits_packs_witness :
  extract_bits
    (buf_at (buf_of (encode_field (field_bits "mode" 2 3 true)
                                  (encode_inputs_add_double encode_inputs_init "mode"
                                                            (F64.of_Z 5))
                                  [xff; x00] 0 ENDIAN_BIG)) 0)
    0 2
  = extract_bits (buf_at [xff; x00] 0) 0 2.
Proof.
  apply (encode_bits_packs (field_bits "mode" 2 3 true)
           (encode_inputs_add_double encode_inputs_init "mode" (F64.of_Z 5))
           [xff; x00] 0 ENDIAN_BIG 5);
    try reflexivity; try (vm_compute; intuition discriminate).
Defined.

(** ** Variables and inputs by name *)

Lemma substring_all (s : string) (n : nat) :
  (String.length s <= n)%nat -> substring 0 n s = s.
Proof.
  revert n; induction s as [| c s IH]; intros [| n] Hn; cbn in *; try lia; auto.
  rewrite IH by lia. reflexivity.
Qed.

Lemma strncpy31_fits (name : string) : fits_name name -> strncpy31 name = name.
Proof. apply substring_all. Qed.

Lemma var_update_bound (ctx : var_context_t) (name : string) (value : Z) :
  match var_update ctx name value with
  | Some ctx' =>
      is_bound ctx name = true
      /\ List.length ctx' = List.length ctx
      /\ var_get ctx' name = value
      /\ forall other, other <> name -> var_get ctx' other = var_get ctx other
  | None => is_bound ctx name = false
  end.
Proof.
  induction ctx as [| [n v] rest IH]; cbn [var_update is_bound existsb fst]; [reflexivity |].
  destruct (String.eqb_spec n name) as [Heq | Hne]; cbn [orb].
  - subst n. repeat split.
    + cbn [var_get]. rewrite String.eqb_refl. reflexivity.
    + intros other Hother. cbn [var_get].
      destruct (String.eqb_spec name other); [congruence | reflexivity].
  - fold (is_bound rest name).
    destruct (var_update rest name value) as [rest' |]; [| exact IH].
    destruct IH as (Hb & Hl & Hg & Hf). repeat split; cbn [List.length var_get]; auto.
    + destruct (String.eqb_spec n name); [contradiction | exact Hg].
    + intros other Hother. rewrite (Hf other Hother). reflexivity.
Qed.

Lemma var_get_app_unbound (ctx : var_context_t) (n name : string) (v : Z) :
  is_bound ctx name = false ->
  var_get (ctx ++ [(n, v)]) name = if String.eqb n name then v else 0.
Proof.
  induction ctx as [| [n0 v0] rest IH]; cbn [is_bound existsb fst app var_get].
  - reflexivity.
  - intros Hb. apply orb_false_iff in Hb. destruct Hb as [Hn Hrest].
    rewrite Hn. apply IH. exact Hrest.
Qed.

Lemma var_get_app_other (ctx : var_context_t) (n other : string) (v : Z) :
  other <> n -> var_get (ctx ++ [(n, v)]) other = var_get ctx other.
Proof.
  intros Hne. induction ctx as [| [n0 v0] rest IH]; cbn [app var_get].
  - destruct (String.eqb_spec n other); [congruence | reflexivity].
  - rewrite IH. reflexivity.
Qed.

(** X12: A variable that is set is read back: when the name is bound
    already, or there is room for one more of the 32 entries, [var_get]
    after [var_set] gives the value set. *)
Theorem var_get_after_var_set (ctx : var_context_t) (name : string) (value : Z) :
  fits_name name ->
  is_bound ctx name = true \/ has_room ctx ->
  var_get (var_set ctx name value) name = value.
Proof.
  intros Hfit Hroom. unfold var_set.
  pose proof (var_update_bound ctx name value) as Hu.
  destruct (var_update ctx name value) as [ctx' |].
  - apply Hu.
  - destruct Hroom as [Hb | Hroom]; [congruence |].
    unfold has_room in Hroom.
    destruct (Z.ltb_spec (Z.of_nat (List.length ctx)) SCHEMA_MAX_FIELDS); [| lia].
    rewrite var_get_app_unbound by exact Hu.
    rewrite strncpy31_fits by exact Hfit. rewrite String.eqb_refl. reflexivity.
Qed.

Lemma var_get_after_var_set_witness :
  var_get (var_set [("a"%string, 1)] "b" 7) "b" = 7.
Proof.
  apply var_get_after_var_set.
  - unfold fits_name. cbn. lia.
  - right. unfold has_room. cbn. reflexivity.
Defined.

(** X13: [var_set] changes one variable only, and never more than 32 are
    held: the other names read as before, the context grows by at most
    one entry, and a context that is full drops a new name, which then
    still reads as 0. *)
Theorem var_set_frame (ctx : var_context_t) (name : string) (value : Z) :
  fits_name name ->
  (forall other, other <> name ->
                 var_get (var_set ctx name value) other = var_get ctx other)
  /\ (Z.of_nat (List.length ctx) <= SCHEMA_MAX_FIELDS ->
      Z.of_nat (List.length (var_set ctx name value)) <= SCHEMA_MAX_FIELDS)
  /\ (is_bound ctx name = false -> ~ has_room ctx ->
      var_set ctx name value = ctx /\ var_get (var_set ctx name value) name = 0).
Proof.
  intros Hfit. unfold var_set.
  pose proof (var_update_bound ctx name value) as Hu.
  destruct (var_update ctx name value) as [ctx' |].
  - destruct Hu as (Hb & Hl & Hg & Hf). repeat split.
    + exact Hf.
    + rewrite Hl. auto.
    + congruence.
    + congruence.
  - unfold has_room.
    destruct (Z.ltb_spec (Z.of_nat (List.length ctx)) SCHEMA_MAX_FIELDS) as [Hlt | Hge];
      repeat split; try reflexivity; try lia.
    + intros other Hother. apply var_get_app_other.
      rewrite strncpy31_fits by exact Hfit. exact Hother.
    + intros _. rewrite length_app. cbn [List.length]. lia.
    + apply var_get_unbound. unfold unbound. intros n v Hin Heq.
      assert (Hex : is_bound ctx name = true).
      { unfold is_bound. apply existsb_exists. exists (n, v). split; [exact Hin |].
        cbn [fst]. apply String.eqb_eq. exact Heq. }
      congruence.
Qed.

Lemma var_set_frame_witness :
  var_get (var_set [("a"%string, 1)] "b" 7) "a" = var_get [("a"%string, 1)] "a".
Proof.
  assert (Hfit : fits_name "b") by (unfold fits_name; cbn; lia).
  apply (proj1 (var_set_frame [("a"%string, 1)] "b" 7 Hfit)). discriminate.
Defined.

Lemma find_input_app (inputs : encode_inputs_t) (n name : string) (v : input_value_t) :
  find_input (inputs ++ [(n, v)]) name
  = match find_input inputs name with
    | Some old => Some old
    | None => if String.eqb n name then Some v else None
    end.
Proof.
  induction inputs as [| [n0 v0] rest IH]; cbn [app find_input].
  - reflexivity.
  - destruct (String.eqb n0 name); [reflexivity | exact IH].
Qed.

(** X14: An input that is added does not replace one of the same name: the
    encoder finds the first.  A new name is found with the value added
    while there is room for one more of the 32 inputs, and is dropped
    without notice when there is not.  The other names are found as
    before. *)
Theorem find_input_after_add (inputs : encode_inputs_t) (name : string)
        (d : spec_float) (i : Z) :
  fits_name name ->
  let found (v : input_value_t) :=
    match find_input inputs name with
    | Some old => Some old
    | None => if Z.of_nat (List.length inputs) <? SCHEMA_MAX_FIELDS then Some v else None
    end in
  find_input (encode_inputs_add_double inputs name d) name = found (I_f64 d)
  /\ find_input (encode_inputs_add_int inputs name i) name = found (I_i64 (to_i64 i))
  /\ forall other, other <> name ->
       find_input (encode_inputs_add_double inputs name d) other = find_input inputs other
       /\ find_input (encode_inputs_add_int inputs name i) other = find_input inputs other.
Proof.
  intros Hfit. cbv zeta. unfold encode_inputs_add_double, encode_inputs_add_int.
  rewrite Z.geb_leb.
  destruct (Z.leb_spec SCHEMA_MAX_FIELDS (Z.of_nat (List.length inputs))) as [Hfull | Hroom];
    destruct (Z.ltb_spec (Z.of_nat (List.length inputs)) SCHEMA_MAX_FIELDS); try lia.
  - repeat split; destruct (find_input inputs name); reflexivity.
  - rewrite !find_input_app, strncpy31_fits, String.eqb_refl by exact Hfit.
    repeat split; rewrite find_input_app;
      destruct (find_input inputs other); try reflexivity;
      destruct (String.eqb_spec name other); congruence.
Qed.

Lemma find_input_after_add_witness :
  find_input (encode_inputs_add_double
                (encode_inputs_add_double encode_inputs_init "t" (F64.of_Z 1))
                "t" (F64.of_Z 2)) "t"
  = Some (I_f64 (F64.of_Z 1)).
Proof.
  assert (Hfit : fits_name "t") by (unfold fits_name; cbn; lia).
  exact (proj1 (find_input_after_add
                  (encode_inputs_add_double encode_inputs_init "t" (F64.of_Z 1))
                  "t" (F64.of_Z 2) 0 Hfit)).
Defined.

(** ** The size of the output *)

Lemma decode_loop_out_length (schema : schema_t) (buf : list byte)
      (fields : list field_def_t) :
  forall (st : decode_state_t),
    (forall f, In f fields -> is_match (fd_type f) = false) ->
    (List.length (st_out (snd (decode_loop schema buf fields st)))
     <= List.length (st_out st) + List.length fields)%nat.
Proof.
  induction fields as [| f rest IH]; intros st Hnm; cbn [decode_loop].
  - cbn. lia.
  - rewrite (decode_step_regular schema buf f st (Hnm f (or_introl eq_refl))).
    cbv zeta.
    destruct (fr_rc _ =? SCHEMA_OK) eqn:Hrc.
    + change (negb (SCHEMA_OK =? SCHEMA_OK)) with false. cbv iota.
      match goal with
      | |- context [decode_loop schema buf rest ?s] =>
          specialize (IH s (fun g Hg => Hnm g (or_intror Hg)))
      end.
      cbn [st_out List.length] in *.
      destruct (df_valid _ && nonempty (fd_name f) && _);
        [rewrite length_app in IH; cbn [List.length] in IH |]; lia.
    + rewrite Hrc. cbn [negb snd List.length]. lia.
Qed.

(** X15: A schema without match fields never lists more fields than it has,
    whether the decode succeeds or fails: with at most 32 fields the
    output stays inside the 32 entries of the result. *)
Theorem match_free_output_fits (schema : schema_t) (buf : list byte) :
  match_free schema ->
  sc_field_count schema <= SCHEMA_MAX_FIELDS ->
  dr_field_count (snd (schema_decode schema buf)) <= sc_field_count schema
  /\ dr_field_count (snd (schema_decode schema buf)) <= SCHEMA_MAX_FIELDS.
Proof.
  intros Hnm Hcount.
  destruct (schema_decode_code schema buf) as [_ Hf].
  pose proof (decode_loop_out_length schema buf (sc_fields schema) decode_init Hnm) as Hlen.
  unfold dr_field_count, sc_field_count in *. rewrite Hf.
  cbn [decode_init st_out List.length] in Hlen. lia.
Qed.

Lemma match_free_output_fits_witness :
  dr_field_count (snd (schema_decode env_schema [x09; x29]))
  <= sc_field_count env_schema.
Proof.
  apply (match_free_output_fits env_schema [x09; x29]).
  - intros f Hin. cbn in Hin.
    repeat (destruct Hin as [<- | Hin]; [reflexivity |]). contradiction.
  - vm_compute. discriminate.
Defined.

(** ** Building a schema field by field *)

Lemma fold_add_field (fields : list field_def_t) :
  forall (schema : schema_t),
    sc_fields (fold_left schema_add_field fields schema)
    = sc_fields schema
      ++ firstn (Z.to_nat SCHEMA_MAX_FIELDS - List.length (sc_fields schema)) fields
    /\ sc_endian (fold_left schema_add_field fields schema) = sc_endian schema
    /\ sc_version (fold_left schema_add_field fields schema) = sc_version schema.
Proof.
  induction fields as [| f rest IH]; intros schema; cbn [fold_left].
  - rewrite firstn_nil, app_nil_r. auto.
  - destruct (IH (schema_add_field schema f)) as (Hf & He & Hv).
    rewrite Hf, He, Hv. unfold schema_add_field, sc_field_count, SCHEMA_MAX_FIELDS.
    destruct (Z.ltb_spec (Z.of_nat (List.length (sc_fields schema))) 32) as [Hlt | Hge];
      cbn [sc_fields sc_endian sc_version].
    + rewrite length_app. cbn [List.length].
      replace (Z.to_nat 32 - List.length (sc_fields schema))%nat
        with (S (Z.to_nat 32 - (List.length (sc_fields schema) + 1)))%nat by lia.
      cbn [firstn]. rewrite <- app_assoc. auto.
    + replace (Z.to_nat 32 - List.length (sc_fields schema))%nat with 0%nat by lia.
      auto.
Qed.

(** X16: A schema built with [schema_add_field] holds the first 32 of the
    fields added, in the order they were added; the fields after the
    32nd are dropped without notice.  It is big endian, as
    [schema_init] leaves it. *)
Theorem schema_build_keeps_first_32 (fields : list field_def_t) :
  sc_fields (schema_build fields) = firstn 32 fields
  /\ sc_field_count (schema_build fields)
     = Z.min (Z.of_nat (List.length fields)) SCHEMA_MAX_FIELDS
  /\ sc_endian (schema_build fields) = ENDIAN_BIG.
Proof.
  unfold schema_build, sc_field_count.
  destruct (fold_add_field fields schema_init) as (Hf & He & _).
  rewrite Hf, He. cbn [schema_init sc_fields sc_endian app List.length].
  change (Z.to_nat SCHEMA_MAX_FIELDS - 0)%nat with 32%nat.
  repeat split. rewrite length_firstn. unfold SCHEMA_MAX_FIELDS. lia.
Qed.

(** ** Bytes after the payload *)

Lemma buf_at_app_low (buf extra : list byte) (i : Z) :
  i < buf_len buf -> buf_at (buf ++ extra) i = buf_at buf i.
Proof.
  unfold buf_len, buf_at. intros Hi.
  destruct (Z.ltb_spec i 0); [reflexivity |].
  rewrite app_nth1 by lia. reflexivity.
Qed.

Lemma buf_len_app (buf extra : list byte) :
  buf_len (buf ++ extra) = buf_len buf + buf_len extra.
Proof. unfold buf_len. rewrite length_app. lia. Qed.

Lemma buf_slice_app_low (buf extra : list byte) (n : nat) :
  forall pos, pos + Z.of_nat n <= buf_len buf \/ n = 0%nat ->
              buf_slice (buf ++ extra) pos n = buf_slice buf pos n.
Proof.
  induction n as [| n IH]; intros pos Hn; cbn [buf_slice]; [reflexivity |].
  rewrite buf_at_app_low by lia. rewrite IH by lia. reflexivity.
Qed.

Lemma base64_loop_app_low (buf extra : list byte) (pos in_len : Z) (fuel : nat) :
  pos + in_len <= buf_len buf ->
  forall b out_idx,
    0 <= b ->
    base64_loop (buf ++ extra) pos in_len fuel b out_idx
    = base64_loop buf pos in_len fuel b out_idx.
Proof.
  intros Hin. induction fuel as [| fuel IH]; intros b out_idx Hb; cbn [base64_loop];
    [reflexivity |].
  destruct (Z.ltb_spec b in_len); cbn [andb]; [| reflexivity].
  destruct (out_idx <? SCHEMA_MAX_NAME_LEN - 4); [| reflexivity].
  rewrite IH by lia.
  rewrite (buf_at_app_low buf extra (pos + b)) by lia.
  destruct (Z.ltb_spec (b + 1) in_len);
    [rewrite (buf_at_app_low buf extra (pos + b + 1)) by lia |];
    (destruct (Z.ltb_spec (b + 2) in_len);
     [rewrite (buf_at_app_low buf extra (pos + b + 2)) by lia |]);
    reflexivity.
Qed.

Ltac unfold_readers :=
  unfold read_f64_be, read_f64_le, read_f32_be, read_f32_le, read_f16_be, read_f16_le,
    read_s64_be, read_s64_le, read_u64_be, read_u64_le,
    read_s32_be, read_s32_le, read_s24_be, read_s24_le,
    read_s16_be, read_s16_le, read_s8,
    read_u32_be, read_u32_le, read_u24_be, read_u24_le,
    read_u16_be, read_u16_le, read_u8.

Lemma decode_field_app_low (f : field_def_t) (buf extra : list byte) (pos : Z)
      (vars : var_context_t) (e : endian_t) :
  enum_sized f ->
  fr_rc (decode_field f buf pos vars e) = SCHEMA_OK ->
  decode_field f (buf ++ extra) pos vars e = decode_field f buf pos vars e.
Proof.
  intros Henum Hok.
  pose proof (decode_field_ok_advance f buf pos vars e Hok) as (_ & _ & Hneed).
  pose proof (Zle_0_nat (List.length extra)) as Hextra. fold (buf_len extra) in Hextra.
  clear Hok. unfold decode_field. cbv zeta. rewrite buf_len_app.
  unfold decode_need, enum_sized in *.
  destruct (fd_type f) eqn:Hty; cbn [is_skip] in Hneed;
    try specialize (Hneed eq_refl); try reflexivity;
    try (destruct (Z.gtb_spec (pos + 1) (buf_len buf + buf_len extra)); [lia |];
         destruct (Z.gtb_spec (pos + 1) (buf_len buf)); [lia |]);
    try (destruct (Z.gtb_spec (pos + 2) (buf_len buf + buf_len extra)); [lia |];
         destruct (Z.gtb_spec (pos + 2) (buf_len buf)); [lia |]);
    try (destruct (Z.gtb_spec (pos + 3) (buf_len buf + buf_len extra)); [lia |];
         destruct (Z.gtb_spec (pos + 3) (buf_len buf)); [lia |]);
    try (destruct (Z.gtb_spec (pos + 4) (buf_len buf + buf_len extra)); [lia |];
         destruct (Z.gtb_spec (pos + 4) (buf_len buf)); [lia |]);
    try (destruct (Z.gtb_spec (pos + 8) (buf_len buf + buf_len extra)); [lia |];
         destruct (Z.gtb_spec (pos + 8) (buf_len buf)); [lia |]);
    try (destruct (Z.gtb_spec (pos + fd_size f) (buf_len buf + buf_len extra)); [lia |];
         destruct (Z.gtb_spec (pos + fd_size f) (buf_len buf)); [lia |]);
    unfold_readers;
    try (rewrite !buf_at_app_low by lia; reflexivity).
  - (* BITS *)
    rewrite !Z.geb_leb.
    destruct (Z.leb_spec (buf_len buf + buf_len extra) pos); [lia |].
    destruct (Z.leb_spec (buf_len buf) pos); [lia |].
    rewrite !buf_at_app_low by lia. reflexivity.
  - (* ASCII *)
    rewrite buf_slice_app_low; [reflexivity |].
    unfold SCHEMA_MAX_NAME_LEN. destruct (Z.ltb_spec (fd_size f) 32); lia.
  - (* HEX *)
    rewrite buf_slice_app_low; [reflexivity |].
    unfold SCHEMA_MAX_NAME_LEN. change (32 / 2) with 16.
    destruct (Z.ltb_spec (fd_size f) 16); lia.
  - (* BASE64 *)
    rewrite base64_loop_app_low by lia. reflexivity.
  - (* BYTES *)
    rewrite buf_slice_app_low; [reflexivity |].
    unfold SCHEMA_MAX_NAME_LEN. destruct (Z.ltb_spec (fd_size f) 32); lia.
  - (* ENUM *)
    specialize (Henum eq_refl).
    destruct (Z.eqb_spec (fd_size f) 0); [lia |].
    destruct (Z.eqb_spec (fd_size f) 1); [| destruct (Z.eqb_spec (fd_size f) 2)];
      rewrite !buf_at_app_low by lia; reflexivity.
Qed.

Lemma field_at_In (schema : schema_t) (idx : Z) (f : field_def_t) :
  field_at schema idx = Some f -> In f (sc_fields schema).
Proof.
  unfold field_at. destruct (idx <? 0); [discriminate |]. apply nth_error_In.
Qed.

Lemma decode_case_fields_app_low (schema : schema_t) (buf extra : list byte) (n : nat) :
  (forall f, In f (sc_fields schema) -> enum_sized f) ->
  forall (idx : Z) (st st' : decode_state_t),
    decode_case_fields schema buf n idx st = (SCHEMA_OK, st') ->
    decode_case_fields schema (buf ++ extra) n idx st = (SCHEMA_OK, st').
Proof.
  intros Hall. induction n as [| n IH]; intros idx st st' Hrun;
    cbn [decode_case_fields] in *; [exact Hrun |].
  destruct (idx >=? sc_field_count schema); [exact Hrun |].
  destruct (field_at schema idx) as [f |] eqn:Hf; [| exact Hrun].
  cbv zeta in *.
  destruct (fr_rc (decode_field f buf (st_pos st) (st_vars st) (sc_endian schema))
            =? SCHEMA_OK) eqn:Hrc; cbn [negb] in Hrun.
  - apply Z.eqb_eq in Hrc.
    rewrite (decode_field_app_low f buf extra _ _ _ (Hall f (field_at_In _ _ _ Hf)) Hrc).
    rewrite Hrc. cbn [negb Z.eqb SCHEMA_OK]. apply IH. exact Hrun.
  - inversion Hrun as [[Hcode Hst]]. rewrite Hcode in Hrc. discriminate.
Qed.

Lemma decode_step_app_low (schema : schema_t) (buf extra : list byte)
      (f : field_def_t) (st st' : decode_state_t) :
  (forall g, In g (sc_fields schema) -> enum_sized g) ->
  enum_sized f ->
  decode_step schema buf f st = (SCHEMA_OK, st') ->
  decode_step schema (buf ++ extra) f st = (SCHEMA_OK, st').
Proof.
  intros Hall Hf Hrun. unfold decode_step in *.
  destruct (is_match (fd_type f)).
  - revert Hrun. generalize (var_get (st_vars st) (strip_dollar (fd_match_var f))).
    intros v. induction (fd_cases f) as [| cs rest IH]; cbn [decode_match]; [auto |].
    destruct (case_matches cs v); [apply decode_case_fields_app_low; exact Hall | exact IH].
  - cbv zeta in *.
    destruct (fr_rc (decode_field f buf (st_pos st) (st_vars st) (sc_endian schema))
              =? SCHEMA_OK) eqn:Hrc; cbn [negb] in Hrun.
    + apply Z.eqb_eq in Hrc.
      rewrite (decode_field_app_low f buf extra _ _ _ Hf Hrc).
      rewrite Hrc. cbn [negb Z.eqb SCHEMA_OK]. exact Hrun.
    + inversion Hrun as [[Hcode Hst]]. rewrite Hcode in Hrc. discriminate.
Qed.

Lemma decode_loop_app_low (schema : schema_t) (buf extra : list byte)
      (fields : list field_def_t) :
  (forall g, In g (sc_fields schema) -> enum_sized g) ->
  (forall g, In g fields -> enum_sized g) ->
  forall (st st' : decode_state_t),
    decode_loop schema buf fields st = (SCHEMA_OK, st') ->
    decode_loop schema (buf ++ extra) fields st = (SCHEMA_OK, st').
Proof.
  intros Hall. induction fields as [| f rest IH]; intros Hin st st' Hrun;
    cbn [decode_loop] in *; [exact Hrun |].
  destruct (decode_step schema buf f st) as [rc st1] eqn:Hstep.
  destruct (Z.eqb_spec rc SCHEMA_OK) as [-> | Hne]; cbn [negb] in Hrun.
  - rewrite (decode_step_app_low schema buf extra f st st1 Hall
               (Hin f (or_introl eq_refl)) Hstep).
    cbn [negb Z.eqb SCHEMA_OK]. apply IH; [| exact Hrun].
    intros g Hg. apply Hin. right. exact Hg.
  - inversion Hrun as [[Hcode Hst]]. contradiction.
Qed.

Lemma schema_decode_app_low (schema : schema_t) (buf extra : list byte) :
  (forall f, In f (sc_fields schema) -> enum_sized f) ->
  fst (schema_decode schema buf) = SCHEMA_OK ->
  schema_decode schema (buf ++ extra) = schema_decode schema buf.
Proof.
  intros Hall Hok. unfold schema_decode in *.
  destruct (decode_loop schema buf (sc_fields schema) decode_init) as [rc st] eqn:Hrun.
  destruct (Z.eqb_spec rc SCHEMA_OK) as [-> | Hne]; cbn [negb fst] in *.
  - rewrite (decode_loop_app_low schema buf extra _ Hall Hall _ _ Hrun).
    reflexivity.
  - contradiction.
Qed.



(** ** 64-bit fields: the bytes written are the bytes read *)

Lemma write_int_le_at (n : nat) :
  forall (buf : list byte) (pos u k : Z),
    0 <= pos -> pos + Z.of_nat n <= buf_len buf ->
    0 <= k < Z.of_nat n ->
    buf_at (write_int_le buf pos u n) (pos + k) = (u / 2 ^ (8 * k)) mod 256.
Proof.
  induction n as [| n IH]; intros buf pos u k Hpos Hlen Hk; [lia |].
  cbn [write_int_le].
  destruct (Z.eq_dec k 0) as [-> | Hk0].
  - rewrite Z.add_0_r.
    destruct (write_int_le_frame n (buf_set buf pos (Z.land u 255)) (pos + 1)
                                 (Z.shiftr u 8) pos ltac:(lia)) as [_ ->].
    rewrite buf_at_buf_set_same by lia.
    change 255 with 0xFF. rewrite land_0xFF, Z.mod_mod by lia.
    change (2 ^ (8 * 0)) with 1. rewrite Z.div_1_r. reflexivity.
  - replace (pos + k) with (pos + 1 + (k - 1)) by lia.
    rewrite IH; try lia.
    + rewrite shiftr_8. change 256 with (2 ^ 8) at 1.
      rewrite Z.div_div by lia. rewrite <- Z.pow_add_r by lia.
      replace (8 + 8 * (k - 1)) with (8 * k) by lia. reflexivity.
    + unfold buf_len in *. rewrite length_buf_set. lia.
Qed.

Lemma write_int_be_at (n : nat) :
  forall (buf : list byte) (pos u k : Z),
    0 <= pos -> pos + Z.of_nat n <= buf_len buf ->
    0 <= k < Z.of_nat n ->
    buf_at (write_int_be buf pos u n) (pos + k)
    = (u / 2 ^ (8 * (Z.of_nat n - 1 - k))) mod 256.
Proof.
  induction n as [| n IH]; intros buf pos u k Hpos Hlen Hk; [lia |].
  cbn [write_int_be].
  destruct (Z.eq_dec k (Z.of_nat n)) as [-> | Hkn].
  - destruct (write_int_be_frame n (buf_set buf (pos + Z.of_nat n) (Z.land u 255)) pos
                                 (Z.shiftr u 8) (pos + Z.of_nat n) ltac:(lia)) as [_ ->].
    rewrite buf_at_buf_set_same by lia.
    change 255 with 0xFF. rewrite land_0xFF, Z.mod_mod by lia.
    replace (8 * (Z.of_nat (S n) - 1 - Z.of_nat n)) with 0 by lia.
    change (2 ^ 0) with 1. rewrite Z.div_1_r. reflexivity.
  - rewrite IH; try lia.
    + rewrite shiftr_8. change 256 with (2 ^ 8) at 1.
      rewrite Z.div_div by lia. rewrite <- Z.pow_add_r by lia.
      replace (8 + 8 * (Z.of_nat n - 1 - k)) with (8 * (Z.of_nat (S n) - 1 - k)) by lia.
      reflexivity.
    + unfold buf_len in *. rewrite length_buf_set. lia.
Qed.

Lemma bytes_of_u64 (u : Z) :
  0 <= u < 2 ^ 64 ->
  ((u / 2 ^ 56) mod 256 * 16777216 + (u / 2 ^ 48) mod 256 * 65536
   + (u / 2 ^ 40) mod 256 * 256 + (u / 2 ^ 32) mod 256) * 2 ^ 32
  + ((u / 2 ^ 24) mod 256 * 16777216 + (u / 2 ^ 16) mod 256 * 65536
     + (u / 2 ^ 8) mod 256 * 256 + (u / 2 ^ 0) mod 256)
  = u.
Proof.
  intros Hu. Z.to_euclidean_division_equations. lia.
Qed.

Lemma read_u64_value (hi lo : Z) :
  0 <= hi < 2 ^ 32 -> 0 <= lo < 2 ^ 32 ->
  to_u64 (Z.lor (Z.shiftl hi 32) lo) = hi * 2 ^ 32 + lo.
Proof.
  intros Hhi Hlo. rewrite Z.shiftl_mul_pow2 by lia.
  rewrite lor_mul_pow2_low by lia. unfold to_u64. apply Z.mod_small. lia.
Qed.

Lemma read_u32_be_bound (buf : list byte) (p : Z) : 0 <= read_u32_be buf p < 2 ^ 32.
Proof. unfold read_u32_be, to_u32. apply Z.mod_pos_bound. lia. Qed.

Lemma read_u32_le_bound (buf : list byte) (p : Z) : 0 <= read_u32_le buf p < 2 ^ 32.
Proof. unfold read_u32_le, to_u32. apply Z.mod_pos_bound. lia. Qed.

(** Eight bytes written by [write_int] are read back by the 64-bit
    reader of the same byte order. *)
Lemma read_u64_after_write_int (buf : list byte) (pos val : Z) (e : endian_t) :
  0 <= pos -> pos + 8 <= buf_len buf ->
  (if is_big e then read_u64_be else read_u64_le) (fst (write_int buf pos val 8 e)) pos
  = to_u64 val.
Proof.
  intros Hpos Hlen. unfold write_int. cbn [fst].
  pose proof (Z.mod_pos_bound val (2 ^ 64) ltac:(lia)) as Hu. fold (to_u64 val) in Hu.
  change (Z.to_nat 8) with 8%nat.
  destruct (is_big e).
  - unfold read_u64_be.
    rewrite read_u64_value by apply read_u32_be_bound.
    rewrite !read_u32_be_value.
    replace (pos + 4 + 1) with (pos + 5) by lia.
    replace (pos + 4 + 2) with (pos + 6) by lia.
    replace (pos + 4 + 3) with (pos + 7) by lia.
    replace (buf_at (write_int_be buf pos (to_u64 val) 8) pos)
      with (buf_at (write_int_be buf pos (to_u64 val) 8) (pos + 0))
      by (rewrite Z.add_0_r; reflexivity).
    rewrite !(write_int_be_at 8) by (cbn; lia).
    cbn [Z.of_nat Pos.of_succ_nat Pos.succ Z.sub Z.add Z.opp Z.pos_sub Z.mul Pos.mul
         Pos.add Z.succ_double Z.pred_double Z.double Pos.pred_double].
    apply bytes_of_u64. exact Hu.
  - unfold read_u64_le.
    rewrite read_u64_value by apply read_u32_le_bound.
    rewrite !read_u32_le_value.
    replace (pos + 4 + 1) with (pos + 5) by lia.
    replace (pos + 4 + 2) with (pos + 6) by lia.
    replace (pos + 4 + 3) with (pos + 7) by lia.
    replace (buf_at (write_int_le buf pos (to_u64 val) 8) pos)
      with (buf_at (write_int_le buf pos (to_u64 val) 8) (pos + 0))
      by (rewrite Z.add_0_r; reflexivity).
    rewrite !(write_int_le_at 8) by (cbn; lia).
    cbn [Z.mul Pos.mul Pos.add].
    apply bytes_of_u64. exact Hu.
Qed.

Lemma testbit_63_of_u64 (s m : Z) :
  0 <= s <= 1 -> 0 <= m < 2 ^ 63 ->
  Z.testbit (s * 2 ^ 63 + m) 63 = negb (s =? 0).
Proof.
  intros Hs Hm. rewrite Z.testbit_odd, Z.shiftr_div_pow2 by lia.
  replace ((s * 2 ^ 63 + m) / 2 ^ 63) with s
    by (Z.to_euclidean_division_equations; lia).
  assert (s = 0 \/ s = 1) as [-> | ->] by lia; reflexivity.
Qed.

(** The bits of a double are the double: [memcpy] to an integer and
    back. *)
Lemma f64_bits_round_trip (x : spec_float) :
  valid_f64 x = true ->
  0 <= bits_of_f64 x < 2 ^ 64 /\ f64_of_bits (bits_of_f64 x) = x.
Proof.
  intros Hv. unfold bits_of_f64, f64_of_bits, bits_of_sf, sf_of_bits.
  destruct x as [s | s | | s m e]; cbv zeta.
  - destruct s; split; try reflexivity; cbn; lia.
  - destruct s; split; try reflexivity; cbn; lia.
  - split; [cbn; lia | reflexivity].
  - unfold valid_f64, valid_binary, bounded, canonical_mantissa, fexp, emin,
      F64.prec, F64.emax in Hv.
    apply andb_true_iff in Hv. destruct Hv as [Hc He].
    apply Z.eqb_eq in Hc. apply Z.leb_le in He.
    pose proof (digits2_pos_bounds m) as Hd.
    set (d := Zpos (digits2_pos m)) in *.
    assert (Hdpos : 0 < d) by (unfold d; lia).
    set (S := if s then 1 else 0).
    assert (HS : (if s then 2 ^ (52 + 11) else 0) = S * 2 ^ 63)
      by (unfold S; destruct s; reflexivity).
    assert (HS01 : 0 <= S <= 1) by (unfold S; destruct s; lia).
    assert (Hsign : negb (S =? 0) = s) by (unfold S; destruct s; reflexivity).
    rewrite HS.
    change (2 ^ 11 - 1) with (Z.ones 11). change (2 ^ 52 - 1) with (Z.ones 52).
    change (2 ^ (11 - 1) - 1) with 1023.
    destruct (Z.ltb_spec (Zpos m) (2 ^ 52)) as [Hsub | Hnorm].
    + (* subnormal *)
      assert (Hd52 : d <= 52).
      { destruct (Z_le_gt_dec d 52) as [? | Hgt]; [assumption |].
        assert (2 ^ 52 <= 2 ^ (d - 1)) by (apply Z.pow_le_mono_r; lia). lia. }
      assert (Hexp : e = -1074) by lia.
      split; [lia |].
      rewrite testbit_63_of_u64 by lia. rewrite Hsign.
      rewrite Z.shiftr_div_pow2, !Z.land_ones by lia.
      replace (((S * 2 ^ 63 + Zpos m) / 2 ^ 52) mod 2 ^ 11) with 0
        by (Z.to_euclidean_division_equations; lia).
      replace ((S * 2 ^ 63 + Zpos m) mod 2 ^ 52) with (Zpos m)
        by (Z.to_euclidean_division_equations; lia).
      cbn [Z.eqb]. rewrite Hexp. reflexivity.
    + (* normal *)
      assert (Hd53 : d = 53).
      { assert (52 < d).
        { destruct (Z_le_gt_dec d 52) as [Hle | ?]; [| lia].
          assert (2 ^ d <= 2 ^ 52) by (apply Z.pow_le_mono_r; lia). lia. }
        lia. }
      rewrite Hd53 in Hd. change (2 ^ (53 - 1)) with (2 ^ 52) in Hd.
      assert (Hexp : -1074 <= e <= 971) by lia.
      rewrite Z.shiftl_mul_pow2 by lia.
      set (E := e + 1023 + 52) in *.
      assert (HE : 1 <= E <= 2046) by (unfold E; lia).
      split; [lia |].
      replace (S * 2 ^ 63 + E * 2 ^ 52 + (Zpos m - 2 ^ 52))
        with (S * 2 ^ 63 + (E * 2 ^ 52 + (Zpos m - 2 ^ 52))) by lia.
      rewrite testbit_63_of_u64 by lia. rewrite Hsign.
      rewrite Z.shiftr_div_pow2, !Z.land_ones by lia.
      replace (((S * 2 ^ 63 + (E * 2 ^ 52 + (Zpos m - 2 ^ 52))) / 2 ^ 52) mod 2 ^ 11)
        with E by (Z.to_euclidean_division_equations; lia).
      replace ((S * 2 ^ 63 + (E * 2 ^ 52 + (Zpos m - 2 ^ 52))) mod 2 ^ 52)
        with (Zpos m - 2 ^ 52) by (Z.to_euclidean_division_equations; lia).
      destruct (Z.eqb_spec E 0); [lia |].
      change (Z.ones 11) with 2047. destruct (Z.eqb_spec E 2047); [lia |].
      replace (Zpos m - 2 ^ 52 + 2 ^ 52) with (Zpos m) by lia.
      replace (E - 1023 - 52) with e by (unfold E; lia). reflexivity.
Qed.

Lemma buf_len_write_int (buf : list byte) (pos val size : Z) (e : endian_t) :
  0 <= size -> buf_len (fst (write_int buf pos val size e)) = buf_len buf.
Proof.
  intros Hs. unfold buf_len.
  destruct (write_int_frame buf pos val size e (pos - 1) Hs ltac:(lia)) as (-> & _).
  reflexivity.
Qed.

(** X18: A 64-bit integer field without modifiers gives back the integer
    it was encoded from, in either byte order, as long as the integer
    is below 2^52 in absolute value (and not negative for the unsigned
    type). *)
Theorem int64_field_round_trip (f : field_def_t) (inputs : encode_inputs_t)
        (buf : list byte) (pos : Z) (vars : var_context_t) (e : endian_t) (z : Z) :
  fd_type f = FIELD_TYPE_U64 /\ 0 <= z \/ fd_type f = FIELD_TYPE_S64 /\ fd_lookup f = [] ->
  unmodified f ->
  input_gives inputs f z ->
  - 2 ^ 52 < z < 2 ^ 52 ->
  0 <= pos -> pos + 8 <= buf_len buf ->
  let r := encode_field f inputs buf pos e in
  let d := decode_field f (buf_of r) pos vars e in
  rc_of r = SCHEMA_OK /\ fr_rc d = SCHEMA_OK /\ fr_pos d = pos_of r
  /\ df_value (fr_out d) = V_f64 (F64.of_Z z).
Proof.
  intros Hty (Hmult & Hdiv & Hadd) Hin Hz Hpos Hlen. cbv zeta.
  unfold encode_field, input_gives, rc_of, buf_of, pos_of in *. cbv zeta.
  rewrite Hin, Hmult, Hdiv, Hadd. cbv beta iota. cbn [input_f64 andb].
  rewrite round_of_integer by exact Hz.
  set (endian := match fd_endian f with ENDIAN_DEFAULT => e | x => x end).
  assert (Hread : (if is_big endian then read_u64_be else read_u64_le)
                    (fst (write_int buf pos z 8 endian)) pos = to_u64 z)
    by (apply read_u64_after_write_int; assumption).
  assert (Hblen : buf_len (fst (write_int buf pos z 8 endian)) = buf_len buf)
    by (apply buf_len_write_int; lia).
  unfold decode_field. cbv zeta. fold endian.
  unfold apply_modifiers. rewrite Hmult, Hdiv, Hadd. cbn [andb].
  destruct Hty as [[Hty Hnn] | [Hty Hlook]]; rewrite Hty; cbn [fst snd];
    rewrite Hblen; (destruct (Z.gtb_spec (pos + 8) (buf_len buf)); [lia |]).
  - assert (Hu : (if is_big endian
                  then read_u64_be (fst (write_int buf pos z 8 endian)) pos
                  else read_u64_le (fst (write_int buf pos z 8 endian)) pos) = z).
    { destruct (is_big endian); rewrite Hread; unfold to_u64; apply Z.mod_small; lia. }
    rewrite Hu. unfold write_int. cbn [snd fr_rc fr_pos fr_out df_value]. auto.
  - rewrite Hlook. unfold read_s64_be, read_s64_le.
    assert (Hs : (if is_big endian
                  then to_i64 (read_u64_be (fst (write_int buf pos z 8 endian)) pos)
                  else to_i64 (read_u64_le (fst (write_int buf pos z 8 endian)) pos)) = z).
    { destruct (is_big endian); rewrite Hread; unfold to_i64, to_signed, to_u64;
        Z.to_euclidean_division_equations; lia. }
    rewrite Hs. unfold write_int. cbn [snd fr_rc fr_pos fr_out df_value]. auto.
Qed.

Lemma int64_field_round_trip_witness :
  df_value (fr_out (decode_field (field_s64 "t" ENDIAN_LITTLE)
                      (buf_of (encode_field (field_s64 "t" ENDIAN_LITTLE)
                                 (encode_inputs_add_double encode_inputs_init "t"
                                                           (F64.of_Z (-3)))
                                 (repeat x00 9) 1 ENDIAN_BIG))
                      1 [] ENDIAN_BIG))
  = V_f64 (F64.of_Z (-3)).
Proof.
  apply (int64_field_round_trip (field_s64 "t" ENDIAN_LITTLE)
           (encode_inputs_add_double encode_inputs_init "t" (F64.of_Z (-3)))
           (repeat x00 9) 1 [] ENDIAN_BIG (-3));
    try reflexivity; try (vm_compute; intuition discriminate).
Defined.

(** X19: A double field without modifiers carries every double bit for bit:
    what is decoded from the eight bytes the encoder wrote is the
    double that was put in, whatever the byte order. *)
Theorem f64_field_round_trip (f : field_def_t) (inputs : encode_inputs_t)
        (buf : list byte) (pos : Z) (vars : var_context_t) (e : endian_t)
        (x : spec_float) :
  fd_type f = FIELD_TYPE_F64 ->
  unmodified f ->
  input_gives_f64 inputs f x ->
  valid_f64 x = true ->
  0 <= pos -> pos + 8 <= buf_len buf ->
  let r := encode_field f inputs buf pos e in
  let d := decode_field f (buf_of r) pos vars e in
  rc_of r = SCHEMA_OK /\ fr_rc d = SCHEMA_OK /\ fr_pos d = pos_of r
  /\ df_value (fr_out d) = V_f64 x.
Proof.
  intros Hty (Hmult & Hdiv & Hadd) Hin Hv Hpos Hlen. cbv zeta.
  unfold encode_field, input_gives_f64, rc_of, buf_of, pos_of in *. cbv zeta.
  rewrite Hin, Hty, Hmult, Hdiv, Hadd. cbv beta iota. cbn [input_f64 andb fst snd].
  set (endian := match fd_endian f with ENDIAN_DEFAULT => e | y => y end).
  destruct (f64_bits_round_trip x Hv) as [Hrange Hbits].
  assert (Hread : (if is_big endian then read_u64_be else read_u64_le)
                    (fst (write_int buf pos (to_i64 (bits_of_f64 x)) 8 endian)) pos
                  = bits_of_f64 x).
  { rewrite read_u64_after_write_int by assumption.
    unfold to_u64, to_i64, to_signed. Z.to_euclidean_division_equations; lia. }
  assert (Hblen : buf_len (fst (write_int buf pos (to_i64 (bits_of_f64 x)) 8 endian))
                  = buf_len buf)
    by (apply buf_len_write_int; lia).
  unfold decode_field. cbv zeta. fold endian. rewrite Hty, Hblen.
  destruct (Z.gtb_spec (pos + 8) (buf_len buf)); [lia |].
  unfold read_f64_be, read_f64_le.
  assert (Hx : (if is_big endian
                then f64_of_bits
                       (read_u64_be
                          (fst (write_int buf pos (to_i64 (bits_of_f64 x)) 8 endian)) pos)
                else f64_of_bits
                       (read_u64_le
                          (fst (write_int buf pos (to_i64 (bits_of_f64 x)) 8 endian)) pos))
               = x).
  { destruct (is_big endian); rewrite Hread; exact Hbits. }
  rewrite Hx. unfold write_int. cbn [snd fr_rc fr_pos fr_out df_value]. auto.
Qed.

Lemma f64_field_round_trip_witness :
  df_value (fr_out (decode_field (field_f64 "t" ENDIAN_BIG)
                      (buf_of (encode_field (field_f64 "t" ENDIAN_BIG)
                                 (encode_inputs_add_double encode_inputs_init "t"
                                                           (F64.dec 2345 2))
                                 (repeat x00 8) 0 ENDIAN_BIG))
                      0 [] ENDIAN_BIG))
  = V_f64 (F64.dec 2345 2).
Proof.
  apply (f64_field_round_trip (field_f64 "t" ENDIAN_BIG)
           (encode_inputs_add_double encode_inputs_init "t" (F64.dec 2345 2))
           (repeat x00 8) 0 [] ENDIAN_BIG (F64.dec 2345 2));
    try reflexivity; try (vm_compute; intuition discriminate).
Defined.

(** ** Schemas read from a binary descriptor *)

Lemma load_lookup_bounds (data : list byte) (n : nat) :
  forall (offset : Z) (acc : list lookup_entry_t),
    offset <= buf_len data ->
    offset <= snd (load_lookup data n offset acc) <= buf_len data
    /\ (List.length (fst (load_lookup data n offset acc)) <= List.length acc + n)%nat.
Proof.
  induction n as [| n IH]; intros offset acc Hoff; cbn [load_lookup]; cbv zeta.
  - cbn. lia.
  - destruct (Z.ltb_spec offset (buf_len data)); cbn [negb fst snd]; [| lia].
    rewrite Z.geb_leb.
    destruct (Z.leb_spec (buf_len data) (offset + 1)); cbn [fst snd]; [lia |].
    pose proof (buf_at_range data (offset + 1)) as Hstr.
    destruct (Z.gtb_spec (offset + 1 + 1 + buf_at data (offset + 1)) (buf_len data));
      cbn [fst snd]; [lia |].
    match goal with
    | |- context [load_lookup data n ?o ?a] =>
        destruct (IH o a ltac:(lia)) as [Ho Hl]
    end.
    rewrite length_app in Hl. cbn [List.length] in Hl. lia.
Qed.

Lemma land_small (x n : Z) : 0 <= n -> 0 <= Z.land x (Z.ones n) < 2 ^ n.
Proof. intros Hn. rewrite Z.land_ones by lia. apply Z.mod_pos_bound. lia. Qed.

Lemma binary_type_never_skipped (type_code size : Z) :
  0 <= type_code < 8 ->
  let t := binary_type_to_field_type type_code size in
  t <> FIELD_TYPE_SKIP /\ t <> FIELD_TYPE_ENUM
  /\ (decode_supported t = true \/ t = FIELD_TYPE_MATCH).
Proof.
  intros Hc. cbv zeta. unfold binary_type_to_field_type.
  unfold BINARY_TYPE_UINT, BINARY_TYPE_SINT, BINARY_TYPE_FLOAT, BINARY_TYPE_BYTES,
    BINARY_TYPE_BOOL, BINARY_TYPE_BITFIELD, BINARY_TYPE_MATCH, BINARY_TYPE_SKIP.
  repeat match goal with
         | |- context [if ?a =? ?b then _ else _] => destruct (Z.eqb_spec a b)
         end;
    try lia; repeat split; try discriminate; auto.
Qed.

Lemma ipso_name_public (id : Z) :
  nonempty (strncpy31 (ipso_to_name id)) = true
  /\ starts_with_underscore (strncpy31 (ipso_to_name id)) = false.
Proof.
  unfold ipso_to_name.
  repeat match goal with
         | |- context [if ?a =? ?b then _ else _] => destruct (a =? b)
         end; split; reflexivity.
Qed.

Lemma load_field_shape (data : list byte) (offset : Z) (f : field_def_t) (offset' : Z) :
  load_field data offset = Some (f, offset') ->
  offset + 4 <= offset' <= buf_len data /\ loaded_shape f.
Proof.
  unfold load_field. cbv zeta. rewrite !Z.geb_leb.
  destruct (Z.leb_spec (buf_len data) (offset + 1)); [discriminate |].
  destruct (Z.leb_spec (buf_len data) (offset + 1 + 1 + 1)); [discriminate |].
  set (o := offset + 1 + 1 + 2).
  set (tb := buf_at data offset).
  assert (Hcode : 0 <= Z.land (Z.shiftr tb 4) 7 < 8) by apply (land_small _ 3 ltac:(lia)).
  assert (Hsize : 0 <= Z.land tb 15 < 16) by apply (land_small _ 4 ltac:(lia)).
  destruct (binary_type_never_skipped (Z.land (Z.shiftr tb 4) 7) (Z.land tb 15) Hcode)
    as (Hskip & Henum & Hsup).
  destruct (ipso_name_public
              (to_u16 (Z.lor (buf_at data (offset + 1 + 1))
                             (Z.shiftl (buf_at data (offset + 1 + 1 + 1)) 8))))
    as (Hname & Hus).
  (* bitfield part *)
  match goal with
  | |- context [match ?x with pair _ _ => _ end] =>
      assert (Hbf : o <= snd x <= buf_len data);
      [| destruct x as [[[bs bw] cons] o1]; cbn [snd] in Hbf]
  end.
  { destruct (Z.land (Z.shiftr tb 4) 7 =? BINARY_TYPE_BITFIELD); cbn [andb snd];
      [| lia].
    destruct (Z.ltb_spec o (buf_len data)); cbn [snd]; [| lia].
    destruct (Z.ltb_spec (o + 1) (buf_len data)); cbn [andb snd]; [| lia].
    destruct (buf_at data (o + 1) =? 1); cbn [snd]; lia. }
  (* addend part *)
  match goal with
  | |- context [match ?x with pair _ _ => _ end] =>
      assert (Hadd : o1 <= snd x <= buf_len data);
      [| destruct x as [[add has_add] o2]; cbn [snd] in Hadd]
  end.
  { destruct (Z.ltb_spec o1 (buf_len data)); cbn [andb snd]; [| lia].
    destruct (buf_at data o1 =? 160); cbn [snd]; [| lia].
    destruct (Z.ltb_spec (o1 + 1 + 1) (buf_len data)); cbn [snd]; lia. }
  (* lookup part *)
  match goal with
  | |- context [match ?x with pair _ _ => _ end] =>
      assert (Hlk : o2 <= snd x <= buf_len data
                    /\ (List.length (fst x) <= 16)%nat);
      [| destruct x as [lookup o3]; cbn [fst snd] in Hlk]
  end.
  { destruct (negb (Z.land tb 128 =? 0)); cbn [andb fst snd List.length]; [| lia].
    destruct (Z.ltb_spec o2 (buf_len data)); cbn [fst snd List.length]; [| lia].
    match goal with
    | |- context [load_lookup data ?n ?o ?a] =>
        destruct (load_lookup_bounds data n o a ltac:(lia)) as [Ho Hl]
    end.
    cbn [List.length] in Hl. unfold SCHEMA_MAX_LOOKUP in *.
    lia. }
  intros Hsome. inversion Hsome; subst f offset'. clear Hsome.
  split; [unfold o in *; lia |].
  unfold loaded_shape, bounded_field.
  cbn [fd_type fd_size fd_name fd_cases fd_var_name fd_has_div fd_lookup].
  repeat split; try assumption; try lia; try reflexivity.
  intros Heq. contradiction.
Qed.

Lemma schema_add_field_shape (schema : schema_t) (f : field_def_t) :
  Forall loaded_shape (sc_fields schema) -> loaded_shape f ->
  Forall loaded_shape (sc_fields (schema_add_field schema f)).
Proof.
  intros Hall Hf. unfold schema_add_field.
  destruct (sc_field_count schema <? SCHEMA_MAX_FIELDS); cbn [sc_fields]; [| exact Hall].
  apply Forall_app. split; [exact Hall | constructor; [exact Hf | constructor]].
Qed.

Lemma load_fields_shape (data : list byte) (n : nat) :
  forall (offset : Z) (schema : schema_t),
    Forall loaded_shape (sc_fields schema) ->
    Forall loaded_shape (sc_fields (load_fields data n offset schema)).
Proof.
  induction n as [| n IH]; intros offset schema Hall; cbn [load_fields]; [exact Hall |].
  destruct (negb (offset <? buf_len data)); [exact Hall |].
  destruct (load_field data offset) as [[f offset'] |] eqn:Hf; [| exact Hall].
  apply IH. apply schema_add_field_shape; [exact Hall |].
  apply (load_field_shape data offset f offset' Hf).
Qed.

Lemma load_binary_shape (data : list byte) (schema : schema_t) :
  schema_load_binary data = (SCHEMA_OK, Some schema) ->
  Forall loaded_shape (sc_fields schema)
  /\ sc_field_count schema <= SCHEMA_MAX_FIELDS.
Proof.
  unfold schema_load_binary. cbv zeta.
  destruct (buf_len data <? 5); [discriminate |].
  destruct (negb (buf_at data 0 =? 80) || negb (buf_at data 1 =? 83)); [discriminate |].
  intros Hload. inversion Hload as [Hschema]. split.
  - apply load_fields_shape. constructor.
  - apply load_fields_count. unfold sc_field_count, SCHEMA_MAX_FIELDS. cbn. lia.
Qed.

(** X20: Every field of a schema read from a binary descriptor has a type
    the decoder knows or is a match without cases; none is a skip or an
    enum, since the type code has three bits and the enum code has no
    case.  The names are public, the sizes are below 16, and no field
    sets a variable. *)
Theorem loaded_schema_fields (data : list byte) (schema : schema_t) :
  schema_load_binary data = (SCHEMA_OK, Some schema) ->
  Forall loaded_shape (sc_fields schema)
  /\ sc_field_count schema <= SCHEMA_MAX_FIELDS.
Proof. apply load_binary_shape. Qed.

Lemma loaded_schema_fields_witness :
  Forall loaded_shape
         (sc_fields {| sc_version := 1; sc_endian := ENDIAN_BIG;
                       sc_fields := [field_u8 "temperature"] |}).
Proof.
  apply (loaded_schema_fields truncated_addend_descriptor
           {| sc_version := 1; sc_endian := ENDIAN_BIG;
              sc_fields := [field_u8 "temperature"] |}).
  vm_compute. reflexivity.
Defined.

Lemma decode_loop_loaded (schema : schema_t) (buf : list byte)
      (fields : list field_def_t) :
  Forall loaded_shape fields ->
  forall (st : decode_state_t),
    let r := decode_loop schema buf fields st in
    (fst r = SCHEMA_OK \/ fst r = SCHEMA_ERR_BUFFER)
    /\ st_vars (snd r) = st_vars st
    /\ (fst r = SCHEMA_OK ->
        map entry_of_decoded (st_out (snd r))
        = map entry_of_decoded (st_out st)
          ++ map entry_of_field
               (filter (fun f => negb (is_match (fd_type f))) fields)).
Proof.
  induction 1 as [| f rest Hf Hrest IH]; intros st; cbn [decode_loop filter]; cbv zeta.
  - cbn. rewrite app_nil_r. auto.
  - destruct Hf as ((Hskip & _) & _ & Hsup & _ & Hname & Hus & Hcases & Hvar & _).
    unfold decode_step. destruct (is_match (fd_type f)) eqn:Hm; cbn [negb].
    + rewrite Hcases. cbn [decode_match].
      change (negb (SCHEMA_OK =? SCHEMA_OK)) with false. cbv iota. apply IH.
    + cbv zeta.
      assert (Hsup' : decode_supported (fd_type f) = true).
      { destruct Hsup as [? | Hmt]; [assumption |]. rewrite Hmt in Hm. discriminate. }
      assert (Hns : is_skip (fd_type f) = false)
        by (destruct (fd_type f); try reflexivity; congruence).
      pose proof (decode_field_cases f buf (st_pos st) (st_vars st) (sc_endian schema))
        as Hout.
      cbv zeta in Hout. rewrite Hsup', Hns in Hout. cbn [negb andb] in Hout.
      assert (Hvars : fr_rc (decode_field f buf (st_pos st) (st_vars st)
                                          (sc_endian schema)) = SCHEMA_OK ->
                      fr_vars (decode_field f buf (st_pos st) (st_vars st)
                                            (sc_endian schema)) = st_vars st).
      { intros _. unfold decode_field. cbv zeta. rewrite Hvar. cbn [nonempty].
        repeat match goal with
               | |- context [match ?x with _ => _ end] => destruct x
               end; reflexivity. }
      destruct (st_pos st + decode_need f >? buf_len buf).
      * destruct Hout as (Hrc & _). rewrite Hrc. cbn.
        split; [right; reflexivity | split; [reflexivity | discriminate]].
      * destruct Hout as (Hrc & _ & Hvalid). rewrite Hrc. cbn [negb Z.eqb SCHEMA_OK].
        change (negb (SCHEMA_OK =? SCHEMA_OK)) with false. cbv iota.
        rewrite Hvalid, Hname, Hus. cbn [andb negb].
        match goal with
        | |- context [decode_loop schema buf rest ?s] => specialize (IH s)
        end.
        cbv zeta in IH. cbn [st_vars st_out] in IH.
        destruct IH as (Hcodes & Hv & Hentries).
        split; [exact Hcodes |]. split; [rewrite Hv; apply Hvars; exact Hrc |].
        intros Hok. rewrite (Hentries Hok).
        rewrite map_app, <- app_assoc. cbn [map app].
        unfold entry_of_decoded at 2, entry_of_field at 2.
        rewrite decode_field_name, decode_field_type. reflexivity.
Qed.

Lemma loaded_shape_bounded (fields : list field_def_t) :
  Forall loaded_shape fields ->
  Forall bounded_field fields /\ (forall f, In f fields -> enum_sized f).
Proof.
  intros Hall. split.
  - eapply Forall_impl; [| exact Hall]. intros f Hf. apply Hf.
  - intros f Hin Hty. rewrite Forall_forall in Hall.
    destruct (Hall f Hin) as (_ & Hne & _). contradiction.
Qed.

(** X21: Decoding with a schema read from a binary descriptor ends in one of
    two ways: with the buffer error, or with success, and then the
    result lists every field of the schema that is not a match, in
    order, the cursor is inside the payload, and bytes after the
    payload would not change the result.  The type error cannot occur,
    and a match field of such a schema decodes nothing. *)
Theorem loaded_schema_decode (data : list byte) (schema : schema_t) (buf : list byte) :
  schema_load_binary data = (SCHEMA_OK, Some schema) ->
  (fst (schema_decode schema buf) = SCHEMA_OK
   \/ fst (schema_decode schema buf) = SCHEMA_ERR_BUFFER)
  /\ (fst (schema_decode schema buf) = SCHEMA_OK ->
      map entry_of_decoded (dr_fields (snd (schema_decode schema buf)))
      = map entry_of_field (data_fields schema)
      /\ 0 <= cursor_at_return schema buf <= buf_len buf
      /\ forall extra, schema_decode schema (buf ++ extra) = schema_decode schema buf).
Proof.
  intros Hload.
  destruct (load_binary_shape data schema Hload) as [Hshape _].
  destruct (loaded_shape_bounded _ Hshape) as [Hbounded Hsized].
  pose proof (decode_loop_loaded schema buf (sc_fields schema) Hshape decode_init) as Hrun.
  cbv zeta in Hrun. destruct Hrun as (Hcodes & _ & Hentries).
  destruct (schema_decode_code schema buf) as [Hc Hf]. rewrite Hc, Hf.
  split; [exact Hcodes |].
  intros Hok. split; [exact (Hentries Hok) |]. split.
  - apply (decode_cursor_within schema buf Hbounded). rewrite Hc. exact Hok.
  - intros extra. apply schema_decode_app_low; [exact Hsized |].
    rewrite Hc. exact Hok.
Qed.

Lemma loaded_schema_decode_witness :
  fst (schema_decode {| sc_version := 1; sc_endian := ENDIAN_BIG;
                        sc_fields := [field_u8 "temperature"] |} [x2a]) = SCHEMA_OK
  \/ fst (schema_decode {| sc_version := 1; sc_endian := ENDIAN_BIG;
                           sc_fields := [field_u8 "temperature"] |} [x2a])
     = SCHEMA_ERR_BUFFER.
Proof.
  apply (loaded_schema_decode truncated_addend_descriptor
           {| sc_version := 1; sc_endian := ENDIAN_BIG;
              sc_fields := [field_u8 "temperature"] |} [x2a]).
  vm_compute. reflexivity.
Defined.

(** ** Integers outside the range of their field *)

Lemma buf_at_pos0 (buf : list byte) (pos : Z) : buf_at buf pos = buf_at buf (pos + 0).
Proof. rewrite Z.add_0_r. reflexivity. Qed.

Lemma read_after_write_int (buf : list byte) (pos val : Z) (e : endian_t) :
  0 <= pos ->
  (pos + 2 <= buf_len buf ->
   (if is_big e then read_u16_be else read_u16_le) (fst (write_int buf pos val 2 e)) pos
   = val mod 2 ^ 16)
  /\ (pos + 3 <= buf_len buf ->
      (if is_big e then read_u24_be else read_u24_le) (fst (write_int buf pos val 3 e)) pos
      = val mod 2 ^ 24)
  /\ (pos + 4 <= buf_len buf ->
      (if is_big e then read_u32_be else read_u32_le) (fst (write_int buf pos val 4 e)) pos
      = val mod 2 ^ 32).
Proof.
  intros Hpos. unfold write_int. cbn [fst].
  change (Z.to_nat 2) with 2%nat. change (Z.to_nat 3) with 3%nat.
  change (Z.to_nat 4) with 4%nat.
  assert (Hu : val mod 2 ^ 16 = to_u64 val mod 2 ^ 16
               /\ val mod 2 ^ 24 = to_u64 val mod 2 ^ 24
               /\ val mod 2 ^ 32 = to_u64 val mod 2 ^ 32).
  { unfold to_u64. repeat split; Z.to_euclidean_division_equations; lia. }
  destruct Hu as (-> & -> & ->).
  generalize (to_u64 val). intros u.
  repeat split; intros Hlen; destruct (is_big e);
    rewrite ?read_u16_be_value, ?read_u16_le_value, ?read_u24_be_value,
      ?read_u24_le_value, ?read_u32_be_value, ?read_u32_le_value;
    match goal with
    | |- context [buf_at ?w pos] => rewrite (buf_at_pos0 w pos)
    end;
    rewrite ?(write_int_be_at 2), ?(write_int_le_at 2), ?(write_int_be_at 3),
      ?(write_int_le_at 3), ?(write_int_be_at 4), ?(write_int_le_at 4) by (cbn; lia);
    cbn [Z.of_nat Pos.of_succ_nat Pos.succ Z.sub Z.add Z.opp Z.pos_sub Z.mul Pos.mul
         Pos.add Z.succ_double Z.pred_double Z.double Pos.pred_double];
    Z.to_euclidean_division_equations; lia.
Qed.

Lemma to_signed_mod (w z : Z) :
  0 < w -> to_signed w (z mod 2 ^ w) = to_signed w z.
Proof.
  intros Hw. unfold to_signed.
  rewrite Z.add_mod_idemp_l by (apply Z.pow_nonzero; lia). reflexivity.
Qed.

Lemma sign_extend_24_mod (z : Z) : sign_extend_24 (z mod 2 ^ 24) = to_signed 24 z.
Proof.
  pose proof (Z.mod_pos_bound z (2 ^ 24) ltac:(lia)) as Hb.
  rewrite sign_extend_24_value, testbit_23_of_u24 by exact Hb.
  rewrite <- (to_signed_mod 24 z) by lia. unfold to_signed.
  destruct (Z.ltb_spec (z mod 2 ^ 24) (2 ^ 23)); cbn [negb];
    Z.to_euclidean_division_equations; lia.
Qed.

(** X22: The encoder does not check an integer against the range of its
    field: it writes the low bytes of the two's complement.  Decoding
    what was written gives the integer of the type's range that is
    congruent to the input modulo 2 to the width, for every input
    below 2^52 in absolute value: 300 in a u8 field comes back as 44,
    and -1 as 255. *)
Theorem int_field_wraps (f : field_def_t) (inputs : encode_inputs_t)
        (buf : list byte) (pos : Z) (vars : var_context_t) (e : endian_t) (z : Z) :
  plain_int_field f ->
  input_gives inputs f z ->
  - 2 ^ 52 < z < 2 ^ 52 ->
  0 <= pos -> pos + int_size (fd_type f) <= buf_len buf ->
  let r := encode_field f inputs buf pos e in
  let d := decode_field f (buf_of r) pos vars e in
  rc_of r = SCHEMA_OK /\ fr_rc d = SCHEMA_OK /\ fr_pos d = pos_of r
  /\ df_value (fr_out d) = V_f64 (F64.of_Z (wrap_int (fd_type f) z)).
Proof.
  intros (Hty & Hmult & Hdiv & Hadd & Hlook & _) Hin Hz Hpos Hlen. cbv zeta.
  unfold encode_field, input_gives, rc_of, buf_of, pos_of in *. cbv zeta.
  rewrite Hin, Hmult, Hdiv, Hadd. cbv beta iota. cbn [input_f64 andb].
  rewrite round_of_integer by exact Hz.
  set (endian := match fd_endian f with ENDIAN_DEFAULT => e | x => x end).
  destruct (read_after_write_int buf pos z endian Hpos) as (H16 & H24 & H32).
  unfold decode_field. cbv zeta. fold endian. rewrite Hlook.
  unfold apply_modifiers. rewrite Hmult, Hdiv, Hadd. cbn [andb].
  unfold wrap_int.
  destruct (fd_type f) eqn:Htype; try discriminate Hty;
    cbn [int_size int_signed fst snd] in *;
    rewrite ?buf_len_write_int by lia;
    try (unfold buf_len; rewrite length_buf_set; fold (buf_len buf));
    match goal with
    | |- context [?a >? ?b] => destruct (Z.gtb_spec a b); [lia |]
    end;
    cbn [fr_rc fr_pos fr_out df_value];
    unfold read_u8, read_s8, read_s16_be, read_s16_le, read_s24_be, read_s24_le,
      read_s32_be, read_s32_le, write_int; cbn [snd];
    (split; [reflexivity |]); (split; [reflexivity |]); (split; [reflexivity |]);
    do 2 f_equal.
  all: unfold write_int in H16, H24, H32; cbn [fst] in *.
  all: destruct (is_big endian);
    rewrite ?H16, ?H24, ?H32 by lia;
    rewrite ?buf_at_buf_set_same by lia;
    change 255 with 0xFF; rewrite ?land_0xFF;
    change 256 with (2 ^ 8); rewrite ?Z.mod_mod by lia;
    unfold to_i8, to_i16, to_i32; rewrite ?sign_extend_24_mod;
    change (8 * 1) with 8; change (8 * 2) with 16; change (8 * 3) with 24;
    change (8 * 4) with 32;
    rewrite ?to_signed_mod by lia; reflexivity.
Qed.

Lemma int_field_wraps_witness :
  df_value (fr_out (decode_field (field_u8 "n")
                      (buf_of (encode_field (field_u8 "n")
                                 (encode_inputs_add_double encode_inputs_init "n"
                                                           (F64.of_Z 300))
                                 [x00; x00] 1 ENDIAN_BIG))
                      1 [] ENDIAN_BIG))
  = V_f64 (F64.of_Z (wrap_int FIELD_TYPE_U8 300)).
Proof.
  apply (int_field_wraps (field_u8 "n")
           (encode_inputs_add_double encode_inputs_init "n" (F64.of_Z 300))
           [x00; x00] 1 [] ENDIAN_BIG 300);
    try reflexivity; try (vm_compute; intuition discriminate).
Defined.


(** ** Where the decoder applies the modifiers *)


(** ** Nibble decimals *)

(** X24: Decoding a nibble-decimal byte and encoding the value decoded gives
    the byte back, for every byte with tenths from 0 to 9 (and a whole
    part up to 9 for the unsigned type): the tenths are multiplied by
    the double nearest to 0.1 and recovered by rounding. *)
Theorem nibble_decimal_round_trip (f : field_def_t) (inputs : encode_inputs_t)
        (buf buf' : list byte) (pos : Z) (vars : var_context_t) (e : endian_t)
        (x : spec_float) :
  fd_type f = FIELD_TYPE_UDEC \/ fd_type f = FIELD_TYPE_SDEC ->
  unmodified f ->
  0 <= pos < buf_len buf -> 0 <= pos < buf_len buf' ->
  nibble_decimal (fd_type f) (buf_at buf pos) = true ->
  df_value (fr_out (decode_field f buf pos vars e)) = V_f64 x ->
  input_gives_f64 inputs f x ->
  buf_at (buf_of (encode_field f inputs buf' pos e)) pos = buf_at buf pos.
Proof.
  intros Hty (Hmult & Hdiv & Hadd) Hpos Hpos' Hnib Hdec Hin.
  pose proof (buf_at_range buf pos) as Hb.
  unfold encode_field, input_gives_f64, buf_of in *. cbv zeta.
  rewrite Hin, Hmult, Hdiv, Hadd. cbv beta iota. cbn [input_f64 andb].
  unfold decode_field in Hdec. cbv zeta in Hdec.
  unfold apply_modifiers in Hdec. rewrite Hmult, Hdiv, Hadd in Hdec. cbn [andb] in Hdec.
  revert Hnib Hdec Hb. generalize (buf_at buf pos). intros b Hnib Hdec Hb.
  destruct Hty as [Hty | Hty]; rewrite Hty in *; cbn [is_skip fst snd];
    (destruct (Z.gtb_spec (pos + 1) (buf_len buf)); [lia |]);
    cbn [fr_out df_value] in Hdec; injection Hdec as <-;
    rewrite buf_at_buf_set_same by lia.
  all: match goal with
       | |- ?lhs = ?b =>
           match eval pattern b in lhs with
           | ?G _ =>
               match type of Hnib with
               | nibble_decimal ?t _ = true =>
                   assert (Hall : all_below
                                    (fun z => implb (nibble_decimal t z) (G z =? z)) 256
                                  = true)
                     by (vm_compute; reflexivity);
                   pose proof (all_below_spec _ 256 Hall b Hb) as Hz;
                   cbv beta in Hz; rewrite Hnib in Hz; apply Z.eqb_eq in Hz; exact Hz
               end
           end
       end.
Qed.

Lemma nibble_decimal_round_trip_witness :
  buf_at (buf_of (encode_field (mk_field "d" FIELD_TYPE_SDEC 1 0 0 false ENDIAN_DEFAULT)
                               (encode_inputs_add_double
                                  encode_inputs_init "d"
                                  (F64.add (F64.of_Z (-3))
                                           (F64.mul (F64.of_Z 7) (F64.dec 1 1))))
                               [x00] 0 ENDIAN_BIG)) 0
  = buf_at [xd7] 0.
Proof.
  apply (nibble_decimal_round_trip
           (mk_field "d" FIELD_TYPE_SDEC 1 0 0 false ENDIAN_DEFAULT)
           (encode_inputs_add_double
              encode_inputs_init "d"
              (F64.add (F64.of_Z (-3)) (F64.mul (F64.of_Z 7) (F64.dec 1 1))))
           [xd7] [x00] 0 [] ENDIAN_BIG
           (F64.add (F64.of_Z (-3)) (F64.mul (F64.of_Z 7) (F64.dec 1 1))));
    try reflexivity; try (vm_compute; intuition discriminate).
Defined.


(** ** Integer inputs *)

Lemma shr_1_value (m : Z) (r s : bool) :
  0 <= m ->
  shr_1 {| shr_m := m; shr_r := r; shr_s := s |}
  = {| shr_m := m / 2; shr_r := Z.odd m; shr_s := r || s |}.
Proof.
  intros Hm. destruct m as [| p | p]; [reflexivity | | lia].
  destruct p as [p | p |]; cbn [shr_1 Z.odd].
  - f_equal. apply Z.div_unique with (r := 1); lia.
  - f_equal. apply Z.div_unique with (r := 0); lia.
  - reflexivity.
Qed.

Lemma iter_pos_iter {A : Type} (f : A -> A) (n : positive) (x : A) :
  iter_pos f n x = Pos.iter f x n.
Proof.
  revert x. induction n as [n IH | n IH |]; intros x; cbn [iter_pos Pos.iter].
  - rewrite !IH. rewrite !Pos.iter_swap. reflexivity.
  - rewrite !IH. reflexivity.
  - reflexivity.
Qed.

(** [k] right shifts of a mantissa: the quotient, the last bit shifted
    out and whether any bit below it was set. *)
Lemma iter_shr_1_value (k : positive) (m : Z) :
  0 <= m ->
  iter_pos shr_1 k {| shr_m := m; shr_r := false; shr_s := false |}
  = {| shr_m := m / 2 ^ Zpos k;
       shr_r := Z.testbit m (Zpos k - 1);
       shr_s := negb (m mod 2 ^ (Zpos k - 1) =? 0) |}.
Proof.
  intros Hm. rewrite iter_pos_iter.
  induction k as [| k IH] using Pos.peano_ind.
  - cbn [Pos.iter]. rewrite shr_1_value by lia.
    change (2 ^ 1) with 2. change (1 - 1) with 0. change (2 ^ 0) with 1.
    rewrite Z.mod_1_r, Z.bit0_odd. reflexivity.
  - rewrite Pos.iter_succ, IH. clear IH.
    assert (Hk : 0 < 2 ^ Zpos k) by (apply Z.pow_pos_nonneg; lia).
    assert (Hk1 : 0 < 2 ^ (Zpos k - 1)) by (apply Z.pow_pos_nonneg; lia).
    rewrite shr_1_value by (apply Z.div_pos; lia).
    rewrite Pos2Z.inj_succ.
    replace (Z.succ (Zpos k) - 1) with (Zpos k) by lia.
    f_equal.
    + rewrite Z.pow_succ_r by lia. rewrite Z.div_div by lia. f_equal. lia.
    + rewrite Z.testbit_odd, Z.shiftr_div_pow2 by lia. reflexivity.
    + rewrite Z.testbit_odd, Z.shiftr_div_pow2 by lia.
      assert (Hsplit : m mod 2 ^ Zpos k
                       = m mod 2 ^ (Zpos k - 1)
                         + 2 ^ (Zpos k - 1) * ((m / 2 ^ (Zpos k - 1)) mod 2)).
      { replace (2 ^ Zpos k) with (2 ^ (Zpos k - 1) * 2)
          by (rewrite Z.mul_comm, <- Z.pow_succ_r by lia; f_equal; lia).
        apply Z.rem_mul_r; lia. }
      rewrite Hsplit.
      pose proof (Z.mod_pos_bound m (2 ^ (Zpos k - 1)) Hk1) as Hb.
      rewrite (Zmod_odd (m / 2 ^ (Zpos k - 1))).
      destruct (Z.odd (m / 2 ^ (Zpos k - 1))); cbn [orb].
      * destruct (Z.eqb_spec (m mod 2 ^ (Zpos k - 1) + 2 ^ (Zpos k - 1) * 1) 0);
          [lia | reflexivity].
      * rewrite Z.mul_0_r, Z.add_0_r. reflexivity.
Qed.

(** A mantissa [q * 2^k + r] with [r] below half of [2^k] and [q] of 53
    digits is rounded down to [q]. *)
Lemma binary_round_aux_down (s : bool) (M q : positive) (k : positive) (e r : Z) :
  Zpos M = Zpos q * 2 ^ Zpos k + r ->
  0 <= r -> 2 * r < 2 ^ Zpos k ->
  Zpos (digits2_pos q) = 53 ->
  -1074 <= e + Zpos k <= 971 ->
  binary_round_aux 53 1024 s (Zpos M) e loc_Exact = S754_finite s q (e + Zpos k).
Proof.
  intros HM Hr Hhalf Hq He.
  pose proof (digits2_pos_bounds q) as Hqb. rewrite Hq in Hqb.
  assert (Hk : 0 < 2 ^ Zpos k) by (apply Z.pow_pos_nonneg; lia).
  assert (Hk1 : 0 < 2 ^ (Zpos k - 1)) by (apply Z.pow_pos_nonneg; lia).
  assert (Hkk : 2 ^ Zpos k = 2 * 2 ^ (Zpos k - 1))
    by (rewrite <- Z.pow_succ_r by lia; f_equal; lia).
  assert (HdM : Zpos (digits2_pos M) = 53 + Zpos k).
  { apply digits2_pos_unique. rewrite HM.
    replace (53 + Zpos k - 1) with (52 + Zpos k) by lia.
    rewrite !Z.pow_add_r by lia. change (53 - 1) with 52 in Hqb. nia. }
  unfold binary_round_aux, shr_fexp.
  cbn [Zdigits2 shr_record_of_loc]. rewrite HdM.
  assert (Hf1 : fexp 53 1024 (53 + Zpos k + e) - e = Zpos k) by (unfold fexp, emin; lia).
  rewrite Hf1. cbn [shr].
  rewrite iter_shr_1_value by lia.
  assert (Hquot : Zpos M / 2 ^ Zpos k = Zpos q).
  { rewrite HM. symmetry. apply Z.div_unique with (r := r); lia. }
  assert (Hbit : Z.testbit (Zpos M) (Zpos k - 1) = false).
  { rewrite Z.testbit_odd, Z.shiftr_div_pow2 by lia.
    replace (Zpos M / 2 ^ (Zpos k - 1)) with (2 * Zpos q).
    - rewrite Z.odd_mul. reflexivity.
    - rewrite HM. apply Z.div_unique with (r := r); lia. }
  rewrite Hquot, Hbit.
  cbn [shr_m]. 
  assert (Hloc : round_nearest_even (Zpos q)
                   (loc_of_shr_record
                      {| shr_m := Zpos q; shr_r := false;
                         shr_s := negb (Zpos M mod 2 ^ (Zpos k - 1) =? 0) |})
                 = Zpos q).
  { destruct (negb (Zpos M mod 2 ^ (Zpos k - 1) =? 0)); reflexivity. }
  rewrite Hloc. cbn [Zdigits2]. rewrite Hq.
  assert (Hf2 : fexp 53 1024 (53 + (e + Zpos k)) - (e + Zpos k) = 0)
    by (unfold fexp, emin; lia).
  rewrite Hf2. cbn [shr shr_m shr_record_of_loc].
  destruct (Z.leb_spec (e + Zpos k) (1024 - 53)); [reflexivity | lia].
Qed.

(** A subnormal double added to one half is one half. *)
Lemma add_subnormal_half (i : positive) :
  Zpos i < 2 ^ 52 ->
  F64.add (S754_finite false i (-1074)) (S754_finite false 4503599627370496 (-53))
  = S754_finite false 4503599627370496 (-53).
Proof.
  intros Hi. unfold F64.add, SFadd.
  change (Z.min (-1074) (-53)) with (-1074).
  unfold shl_align.
  change (-1074 - -1074) with 0. change (-1074 - -53) with (Z.neg 1021).
  cbn [fst cond_Zopp Z.add binary_normalize].
  set (M := (i + Pos.iter xO 4503599627370496 1021)%positive).
  assert (HM : Zpos M = 4503599627370496 * 2 ^ 1021 + Zpos i).
  { unfold M. rewrite Pos2Z.inj_add, pos_iter_xO_value. lia. }
  assert (Hpow : 2 ^ 52 * 2 ^ 1021 = 2 ^ 1073) by (rewrite <- Z.pow_add_r by lia; reflexivity).
  assert (Hle : 2 ^ 52 <= 2 ^ 1020) by (apply Z.pow_le_mono_r; lia).
  assert (H1021 : 2 ^ 1021 = 2 * 2 ^ 1020)
    by (rewrite <- Z.pow_succ_r by lia; reflexivity).
  assert (H1074 : 2 ^ 1074 = 2 * 2 ^ 1073)
    by (rewrite <- Z.pow_succ_r by lia; reflexivity).
  change 4503599627370496 with (2 ^ 52) in HM.
  assert (HdM : Zpos (digits2_pos M) = 1074).
  { apply digits2_pos_unique. change (1074 - 1) with 1073. lia. }
  unfold binary_round. rewrite HdM.
  unfold shl_align.
  change (fexp F64.prec F64.emax (1074 + -1074) - -1074) with 1021.
  cbv iota beta. unfold F64.prec, F64.emax.
  rewrite (binary_round_aux_down false M 4503599627370496 1021 (-1074) (Zpos i));
    try reflexivity; try lia.
Qed.

Lemma f64_of_small_bits (i : Z) :
  0 <= i < 2 ^ 52 ->
  f64_of_bits (to_u64 i)
  = match i with
    | Zpos p => S754_finite false p (-1074)
    | _ => S754_zero false
    end.
Proof.
  intros Hi.
  assert (Hle : 2 ^ 52 <= 2 ^ 63) by (apply Z.pow_le_mono_r; lia).
  assert (Hu : to_u64 i = i) by (unfold to_u64; apply Z.mod_small; lia).
  rewrite Hu. unfold f64_of_bits, sf_of_bits. cbv zeta.
  change (2 ^ 11 - 1) with (Z.ones 11). change (2 ^ 52 - 1) with (Z.ones 52).
  rewrite Z.shiftr_div_pow2, !Z.land_ones by lia.
  rewrite (Z.div_small i (2 ^ 52)) by lia. rewrite (Z.mod_small i (2 ^ 52)) by lia.
  change (0 mod 2 ^ 11 =? 0) with true. cbv iota.
  assert (Hbit : Z.testbit i (52 + 11) = false).
  { destruct (Z.eq_dec i 0) as [-> | Hnz]; [reflexivity |].
    apply Z.bits_above_log2; [lia |]. apply Z.log2_lt_pow2; lia. }
  rewrite Hbit. destruct i; reflexivity.
Qed.

(** The rounded value of an integer input below 2^52 is 0. *)
Lemma round_of_int_input (i : Z) :
  0 <= i < 2 ^ 52 ->
  f64_to_i64 (F64.add (f64_of_bits (to_u64 i))
                      (if F64.leb F64.zero (f64_of_bits (to_u64 i)) then F64.dec 5 1
                       else F64.opp (F64.dec 5 1)))
  = 0.
Proof.
  intros Hi. rewrite f64_of_small_bits by exact Hi. rewrite half_value.
  destruct i as [| p | p]; [reflexivity | | lia].
  change (F64.leb F64.zero (S754_finite false p (-1074))) with true. cbv iota.
  rewrite add_subnormal_half by lia. reflexivity.
Qed.

(** X25: The encoder reads every input as a double.  An integer stored with
    [encode_inputs_add_int] is read through the union as the double
    with that bit pattern, which for an integer from 0 below 2^52 is 0
    or a subnormal number: the field is encoded as if the input were
    0. *)
Theorem int_input_is_encoded_as_zero (f : field_def_t) (inputs zeros : encode_inputs_t)
        (buf : list byte) (pos : Z) (e : endian_t) (i : Z) :
  rounds_input (fd_type f) = true ->
  unmodified f ->
  input_gives_int inputs f i ->
  0 <= i < 2 ^ 52 ->
  input_gives zeros f 0 ->
  encode_field f inputs buf pos e = encode_field f zeros buf pos e.
Proof.
  intros Hty (Hmult & Hdiv & Hadd) Hin Hi Hzero.
  unfold encode_field, input_gives_int, input_gives in *. cbv zeta.
  rewrite Hin, Hzero, Hmult, Hdiv, Hadd. cbv beta iota. cbn [input_f64 andb].
  rewrite round_of_int_input by exact Hi.
  rewrite (round_of_integer 0) by lia.
  destruct (fd_type f); try discriminate Hty; reflexivity.
Qed.

Lemma int_input_is_encoded_as_zero_witness :
  encode_field (field_u8 "n") (encode_inputs_add_int encode_inputs_init "n" 200)
               [xff] 0 ENDIAN_BIG
  = encode_field (field_u8 "n") (encode_inputs_add_double encode_inputs_init "n"
                                                          (F64.of_Z 0))
                 [xff] 0 ENDIAN_BIG.
Proof.
  apply (int_input_is_encoded_as_zero
           (field_u8 "n") (encode_inputs_add_int encode_inputs_init "n" 200)
           (encode_inputs_add_double encode_inputs_init "n" (F64.of_Z 0))
           [xff] 0 ENDIAN_BIG 200);
    try reflexivity; try (vm_compute; intuition discriminate).
Defined.

(** ** The size of decoded values *)

Lemma length_substring_le (s : string) (n : nat) :
  (String.length (substring 0 n s) <= n)%nat.
Proof.
  revert n; induction s as [| c s IH]; intros [| n]; cbn; try lia.
  specialize (IH n). lia.
Qed.

Lemma length_strncpy31 (s : string) : (String.length (strncpy31 s) <= 31)%nat.
Proof. apply length_substring_le. Qed.

Lemma length_cstring_of_bytes (l : list Z) :
  (String.length (cstring_of_bytes l) <= List.length l)%nat.
Proof.
  induction l as [| b r IH]; cbn [cstring_of_bytes List.length]; [cbn; lia |].
  destruct (b =? 0); cbn [String.length]; lia.
Qed.

Lemma length_buf_slice (buf : list byte) (n : nat) :
  forall pos, List.length (buf_slice buf pos n) = n.
Proof.
  induction n as [| n IH]; intros pos; cbn [buf_slice List.length]; [reflexivity |].
  rewrite IH. reflexivity.
Qed.

Lemma length_string_of_list (l : list ascii) :
  String.length (string_of_list_ascii l) = List.length l.
Proof. induction l as [| c l IH]; cbn; [reflexivity | rewrite IH; reflexivity]. Qed.

Lemma length_hex_of_bytes (l : list Z) :
  String.length (hex_of_bytes l) = (2 * List.length l)%nat.
Proof.
  unfold hex_of_bytes. rewrite length_string_of_list.
  induction l as [| b l IH]; cbn [flat_map List.length app]; [reflexivity |].
  rewrite IH. lia.
Qed.

Lemma length_base64_loop (buf : list byte) (pos in_len : Z) (fuel : nat) :
  forall b out_idx,
    Z.of_nat (List.length (base64_loop buf pos in_len fuel b out_idx))
    <= 4 * (Z.max 0 (31 - out_idx) / 4).
Proof.
  unfold SCHEMA_MAX_NAME_LEN.
  induction fuel as [| fuel IH]; intros b out_idx; cbn [base64_loop].
  - cbn [List.length]. Z.to_euclidean_division_equations; lia.
  - destruct (b <? in_len); cbn [andb];
      [| cbn [List.length]; Z.to_euclidean_division_equations; lia].
    unfold SCHEMA_MAX_NAME_LEN.
    destruct (Z.ltb_spec out_idx (32 - 4));
      [| cbn [List.length]; Z.to_euclidean_division_equations; lia].
    cbn [List.length]. specialize (IH (b + 3) (out_idx + 4)).
    rewrite !Nat2Z.inj_succ.
    Z.to_euclidean_division_equations; lia.
Qed.


(** ** Signed readers *)

Lemma to_signed_twos_complement (w u : Z) :
  0 < w -> 0 <= u < 2 ^ w -> to_signed w u = twos_complement w u.
Proof.
  intros Hw Hu. unfold to_signed, twos_complement.
  assert (Hp : 2 ^ w = 2 * 2 ^ (w - 1))
    by (rewrite <- Z.pow_succ_r by lia; f_equal; lia).
  assert (Hh : 0 < 2 ^ (w - 1)) by (apply Z.pow_pos_nonneg; lia).
  destruct (Z.ltb_spec u (2 ^ (w - 1))).
  - rewrite Z.mod_small; lia.
  - replace (u + 2 ^ (w - 1)) with (u - 2 ^ (w - 1) + 1 * 2 ^ w) by lia.
    rewrite Z.mod_add by lia. rewrite Z.mod_small; lia.
Qed.

(** X27: Every signed reader returns the two's complement reading of what
    the unsigned reader of the same width and byte order returns: the
    pattern itself below half the range, the pattern minus 2 to the
    width from there on. *)
Theorem signed_readers_twos_complement (buf : list byte) (p : Z) :
  read_s8 buf p = twos_complement 8 (read_u8 buf p)
  /\ read_s16_be buf p = twos_complement 16 (read_u16_be buf p)
  /\ read_s16_le buf p = twos_complement 16 (read_u16_le buf p)
  /\ read_s24_be buf p = twos_complement 24 (read_u24_be buf p)
  /\ read_s24_le buf p = twos_complement 24 (read_u24_le buf p)
  /\ read_s32_be buf p = twos_complement 32 (read_u32_be buf p)
  /\ read_s32_le buf p = twos_complement 32 (read_u32_le buf p)
  /\ read_s64_be buf p = twos_complement 64 (read_u64_be buf p)
  /\ read_s64_le buf p = twos_complement 64 (read_u64_le buf p).
Proof.
  unfold read_s8, read_s16_be, read_s16_le, read_s24_be, read_s24_le,
    read_s32_be, read_s32_le, read_s64_be, read_s64_le,
    to_i8, to_i16, to_i32, to_i64.
  pose proof (buf_at_range buf p) as H8.
  pose proof (read_u24_be_range buf p) as H24b.
  pose proof (read_u24_le_range buf p) as H24l.
  assert (H16b : 0 <= read_u16_be buf p < 2 ^ 16)
    by (unfold read_u16_be, to_u16; apply Z.mod_pos_bound; lia).
  assert (H16l : 0 <= read_u16_le buf p < 2 ^ 16)
    by (unfold read_u16_le, to_u16; apply Z.mod_pos_bound; lia).
  assert (H64b : 0 <= read_u64_be buf p < 2 ^ 64)
    by (unfold read_u64_be, to_u64; apply Z.mod_pos_bound; lia).
  assert (H64l : 0 <= read_u64_le buf p < 2 ^ 64)
    by (unfold read_u64_le, to_u64; apply Z.mod_pos_bound; lia).
  repeat split;
    try (apply to_signed_twos_complement;
         [lia | first [exact H16b | exact H16l | exact H64b | exact H64l
                      | apply read_u32_be_bound | apply read_u32_le_bound
                      | unfold read_u8; lia]]).
  - rewrite sign_extend_24_value, testbit_23_of_u24 by lia.
    unfold twos_complement. change (24 - 1) with 23.
    destruct (read_u24_be buf p <? 2 ^ 23); reflexivity.
  - rewrite sign_extend_24_value, testbit_23_of_u24 by lia.
    unfold twos_complement. change (24 - 1) with 23.
    destruct (read_u24_le buf p <? 2 ^ 23); reflexivity.
Qed.

(** ** Booleans *)

(** X28: The encoder writes a boolean as a whole byte, 0 or 1, whatever the
    bit position of the field, and always moves the cursor; the decoder
    reads the bit at the field's position and moves the cursor only for
    a consuming field.  So a boolean field gives back what was encoded
    only at bit position 0 (at a higher position below 32, the range in
    which C defines the shift, it always reads false), and the two
    cursors agree only for a consuming field. *)
Theorem bool_field_round_trip (f : field_def_t) (inputs : encode_inputs_t)
        (buf : list byte) (pos : Z) (vars : var_context_t) (e : endian_t) (z : Z) :
  fd_type f = FIELD_TYPE_BOOL ->
  unmodified f ->
  input_gives inputs f z ->
  - 2 ^ 52 < z < 2 ^ 52 ->
  0 <= pos < buf_len buf ->
  0 <= fd_bit_start f < 32 ->
  let r := encode_field f inputs buf pos e in
  let d := decode_field f (buf_of r) pos vars e in
  rc_of r = SCHEMA_OK /\ fr_rc d = SCHEMA_OK
  /\ df_value (fr_out d) = V_b (negb (z =? 0) && (fd_bit_start f =? 0))
  /\ pos_of r = pos + 1
  /\ fr_pos d = (if fd_consume f then pos + 1 else pos).
Proof.
  intros Hty (Hmult & Hdiv & Hadd) Hin Hz Hpos Hstart. cbv zeta.
  unfold encode_field, input_gives, rc_of, buf_of, pos_of in *. cbv zeta.
  rewrite Hin, Hty, Hmult, Hdiv, Hadd. cbv beta iota. cbn [input_f64 andb fst snd].
  rewrite round_of_integer by exact Hz.
  unfold decode_field. cbv zeta. rewrite Hty.
  assert (Hlen : buf_len (buf_set buf pos (if z =? 0 then 0 else 1)) = buf_len buf)
    by (unfold buf_len; rewrite length_buf_set; reflexivity).
  rewrite Hlen. destruct (Z.gtb_spec (pos + 1) (buf_len buf)); [lia |].
  cbn [fr_rc fr_pos fr_out df_value].
  rewrite buf_at_buf_set_same by lia.
  repeat split. f_equal.
  rewrite shr_i32_small by lia.
  rewrite Z.shiftr_div_pow2 by lia.
  destruct (Z.eqb_spec z 0); cbn [negb andb].
  - change (0 mod 256) with 0. rewrite Z.div_0_l by (apply Z.pow_nonzero; lia).
    reflexivity.
  - change (1 mod 256) with 1.
    destruct (Z.eqb_spec (fd_bit_start f) 0) as [-> | Hs].
    + reflexivity.
    + assert (1 < 2 ^ fd_bit_start f) by (apply Z.pow_gt_1; lia).
      rewrite Z.div_small by lia. reflexivity.
Qed.

Lemma bool_field_round_trip_witness :
  df_value (fr_out (decode_field (field_bool "on" 3 true)
                      (buf_of (encode_field (field_bool "on" 3 true)
                                 (encode_inputs_add_double encode_inputs_init "on"
                                                           (F64.of_Z 1))
                                 [x00] 0 ENDIAN_BIG))
                      0 [] ENDIAN_BIG))
  = V_b (negb (1 =? 0) && (fd_bit_start (field_bool "on" 3 true) =? 0)).
Proof.
  apply (bool_field_round_trip (field_bool "on" 3 true)
           (encode_inputs_add_double encode_inputs_init "on" (F64.of_Z 1))
           [x00] 0 [] ENDIAN_BIG 1);
    try reflexivity; try (vm_compute; intuition discriminate).
Defined.

(** ** Result access helpers *)

(** The bit pattern of the double of an integer that is not 0 and is
    below 2^52 in absolute value, read as a 64-bit integer, is above
    2^52 in absolute value. *)
Lemma bits_of_integer_double (z : Z) :
  z <> 0 -> - 2 ^ 52 < z < 2 ^ 52 ->
  2 ^ 52 < Z.abs (to_i64 (bits_of_f64 (F64.of_Z z))).
Proof.
  intros Hnz Hz.
  assert (Hcase : forall (s : bool) (p : positive),
             Zpos p < 2 ^ 52 ->
             2 ^ 52 < Z.abs (to_i64 (bits_of_f64 (binary_round 53 1024 s p 0)))).
  { intros s p Hp.
    destruct (binary_round_integer s p Hp) as (m & e & -> & He & _ & Hdig).
    pose proof (digits2_pos_bounds m) as Hm. rewrite Hdig in Hm.
    change (2 ^ (53 - 1)) with (2 ^ 52) in Hm.
    unfold bits_of_f64, bits_of_sf. cbv zeta.
    destruct (Z.ltb_spec (Zpos m) (2 ^ 52)); [lia |].
    rewrite Z.shiftl_mul_pow2 by lia.
    change (2 ^ (11 - 1) - 1) with 1023. change (2 ^ (52 + 11)) with (2 ^ 63).
    unfold to_i64, to_signed. change (64 - 1) with 63.
    destruct s.
    - replace ((2 ^ 63 + (e + 1023 + 52) * 2 ^ 52 + (Zpos m - 2 ^ 52) + 2 ^ 63) mod 2 ^ 64)
        with ((e + 1023 + 52) * 2 ^ 52 + (Zpos m - 2 ^ 52))
        by (apply Z.mod_unique with (q := 1); lia).
      lia.
    - rewrite Z.mod_small by lia. lia. }
  unfold F64.of_Z, binary_normalize.
  destruct z as [| p | p]; [contradiction | |]; apply Hcase; lia.
Qed.

(** X29: A decoded number is held as a double.  [result_get_double] returns
    it; [result_get_int] returns the bit pattern of the double, which
    for an integer other than 0 below 2^52 in absolute value is never
    the integer: it is above 2^52 in absolute value. *)
Theorem result_get_int_reads_double_bits (result : decode_result_t) (name : string)
        (d : decoded_field_t) (z default_int : Z) (default_val : spec_float) :
  result_get_field (dr_fields result) name = Some d ->
  df_value d = V_f64 (F64.of_Z z) ->
  z <> 0 -> - 2 ^ 52 < z < 2 ^ 52 ->
  result_get_double result name default_val = Some (F64.of_Z z)
  /\ exists b, result_get_int result name default_int = Some b
               /\ 2 ^ 52 < Z.abs b /\ b <> z.
Proof.
  intros Hfind Hval Hnz Hz.
  unfold result_get_double, result_get_int. rewrite Hfind, Hval. cbn [value_f64 value_i64].
  split; [reflexivity |].
  pose proof (bits_of_integer_double z Hnz Hz) as Hb.
  exists (to_i64 (bits_of_f64 (F64.of_Z z))). split; [reflexivity |]. lia.
Qed.

Lemma result_get_int_reads_double_bits_witness :
  result_get_double (snd (schema_decode (schema_of ENDIAN_BIG [field_u8 "status"]) [x2a]))
                    "status" F64.zero
  = Some (F64.of_Z 42).
Proof.
  assert (Hnz : 42 <> 0) by discriminate.
  assert (Hz : - 2 ^ 52 < 42 < 2 ^ 52) by (split; reflexivity).
  exact (proj1 (result_get_int_reads_double_bits
                  (snd (schema_decode (schema_of ENDIAN_BIG [field_u8 "status"]) [x2a]))
                  "status"
                  (decoded_int (field_u8 "status") 42) 42 0 F64.zero
                  eq_refl eq_refl Hnz Hz)).
Defined.
(** * The round trip *)

(** ** Floats: a value of the narrower format survives the conversions *)

(** Rounding leaves a mantissa that is canonical after [k] zero bits are
    dropped as it is. *)
Lemma binary_round_aux_canonical (prec emax : Z) (s : bool) (M q : positive) (k e : Z) :
  0 <= k ->
  Zpos M = Zpos q * 2 ^ k ->
  fexp prec emax (Zpos (digits2_pos q) + (e + k)) = e + k ->
  e + k <= emax - prec ->
  binary_round_aux prec emax s (Zpos M) e loc_Exact = S754_finite s q (e + k).
Proof.
  intros Hk HM Hcan He.
  pose proof (digits2_pos_bounds q) as Hqb.
  set (d := Zpos (digits2_pos q)) in *.
  assert (HdM : Zpos (digits2_pos M) = d + k).
  { apply digits2_pos_unique. rewrite HM.
    replace (d + k - 1) with (d - 1 + k) by lia.
    rewrite !Z.pow_add_r by (unfold d; lia).
    assert (0 < 2 ^ k) by (apply Z.pow_pos_nonneg; lia). nia. }
  unfold binary_round_aux, shr_fexp.
  cbn [Zdigits2 shr_record_of_loc]. rewrite HdM.
  replace (d + k + e) with (d + (e + k)) by lia. rewrite Hcan.
  replace (e + k - e) with k by lia.
  assert (Hstep : shr {| shr_m := Zpos M; shr_r := false; shr_s := false |} e k
                  = ({| shr_m := Zpos q; shr_r := false; shr_s := false |}, e + k)).
  { destruct k as [| kk | kk]; [| | lia].
    - cbn [shr]. rewrite Z.add_0_r. do 3 f_equal. change (2 ^ 0) with 1 in HM. lia.
    - cbn [shr]. f_equal.
      assert (HMq : M = Pos.iter xO q kk).
      { apply Pos2Z.inj. rewrite pos_iter_xO_value. exact HM. }
      rewrite HMq. apply iter_pos_shr_1. }
  rewrite Hstep. cbn [shr_m loc_of_shr_record round_nearest_even Zdigits2].
  fold d. rewrite Hcan. rewrite Z.sub_diag. cbn [shr shr_m].
  destruct (Z.leb_spec (e + k) (emax - prec)); [reflexivity | lia].
Qed.

(** The double of a float: the mantissa shifted to 53 bits. *)
Lemma f32_to_f64_finite (s : bool) (m : positive) (e : Z) :
  valid_f32 (S754_finite s m e) = true ->
  exists j : positive,
    Zpos j = 53 - Zpos (digits2_pos m)
    /\ f32_to_f64 (S754_finite s m e) = S754_finite s (Pos.iter xO m j) (e - Zpos j).
Proof.
  intros Hv.
  unfold valid_f32, valid_binary, bounded, canonical_mantissa, fexp, emin,
    F32.prec, F32.emax in Hv.
  apply andb_true_iff in Hv as [Hc He]. apply Z.eqb_eq in Hc. apply Z.leb_le in He.
  pose proof (digits2_pos_bounds m) as Hb.
  set (d := Zpos (digits2_pos m)) in *.
  assert (Hd : 1 <= d <= 24) by (unfold d; lia).
  assert (Hj : exists j : positive, Zpos j = 53 - d).
  { destruct (53 - d) as [| j | j] eqn:Hj; try lia. exists j. reflexivity. }
  destruct Hj as [j Hj]. exists j. split; [exact Hj |].
  unfold f32_to_f64.
  assert (Hround : binary_round F64.prec F64.emax s m e
                   = S754_finite s (Pos.iter xO m j) (e - Zpos j)).
  { unfold binary_round, F64.prec, F64.emax. fold d.
    assert (Hf : fexp 53 1024 (d + e) = e - Zpos j) by (unfold fexp, emin; lia).
    rewrite Hf. unfold shl_align.
    replace (e - Zpos j - e) with (Zneg j) by lia.
    rewrite (binary_round_aux_canonical 53 1024 s _ (Pos.iter xO m j) 0 (e - Zpos j));
      try lia.
    - rewrite Z.add_0_r. reflexivity.
    - assert (Hdig : Zpos (digits2_pos (Pos.iter xO m j)) = 53).
      { apply digits2_pos_unique. rewrite pos_iter_xO_value, Hj.
        assert (Hx1 : 2 ^ (d - 1) * 2 ^ (53 - d) = 2 ^ (53 - 1))
          by (rewrite <- Z.pow_add_r by lia; f_equal; lia).
        assert (Hx2 : 2 ^ d * 2 ^ (53 - d) = 2 ^ 53)
          by (rewrite <- Z.pow_add_r by lia; f_equal; lia).
        assert (Hx : 0 < 2 ^ (53 - d)) by (apply Z.pow_pos_nonneg; lia).
        rewrite <- Hx1, <- Hx2. split.
        - apply Z.mul_le_mono_nonneg_r; lia.
        - apply Z.mul_lt_mono_pos_r; lia. }
      rewrite Hdig. unfold fexp, emin. lia. }
  destruct s; cbn [cond_Zopp Z.opp binary_normalize]; exact Hround.
Qed.

(** Converting a float to a double and back gives the float. *)
Lemma f64_to_f32_of_f32 (y : spec_float) :
  valid_f32 y = true -> f64_to_f32 (f32_to_f64 y) = y.
Proof.
  intros Hv. destruct y as [s | s | | s m e]; try reflexivity.
  destruct (f32_to_f64_finite s m e Hv) as (j & Hj & ->).
  unfold valid_f32, valid_binary, bounded, canonical_mantissa, F32.prec, F32.emax in Hv.
  apply andb_true_iff in Hv as [Hc He]. apply Z.eqb_eq in Hc. apply Z.leb_le in He.
  pose proof (digits2_pos_bounds m) as Hb.
  set (d := Zpos (digits2_pos m)) in *.
  assert (Hd : 1 <= d) by (unfold d; lia).
  assert (Hdle : d <= 24).
  { unfold fexp, emin in Hc. lia. }
  unfold f64_to_f32.
  assert (Hdig : Zpos (digits2_pos (Pos.iter xO m j)) = 53).
  { apply digits2_pos_unique. rewrite pos_iter_xO_value, Hj.
    assert (Hx1 : 2 ^ (d - 1) * 2 ^ (53 - d) = 2 ^ (53 - 1))
      by (rewrite <- Z.pow_add_r by lia; f_equal; lia).
    assert (Hx2 : 2 ^ d * 2 ^ (53 - d) = 2 ^ 53)
      by (rewrite <- Z.pow_add_r by lia; f_equal; lia).
    assert (Hx : 0 < 2 ^ (53 - d)) by (apply Z.pow_pos_nonneg; lia).
    rewrite <- Hx1, <- Hx2. split.
    - apply Z.mul_le_mono_nonneg_r; lia.
    - apply Z.mul_lt_mono_pos_r; lia. }
  assert (Hround : binary_round F32.prec F32.emax s (Pos.iter xO m j) (e - Zpos j)
                   = S754_finite s m e).
  { unfold binary_round, F32.prec, F32.emax. rewrite Hdig.
    replace (53 + (e - Zpos j)) with (d + e) by lia. rewrite Hc.
    unfold shl_align.
    replace (e - (e - Zpos j)) with (Zpos j) by lia.
    rewrite (binary_round_aux_canonical 24 128 s _ m (Zpos j) (e - Zpos j)); try lia.
    - f_equal. lia.
    - apply pos_iter_xO_value.
    - fold d. replace (e - Zpos j + Zpos j) with e by lia. exact Hc. }
  destruct s; cbn [cond_Zopp Z.opp binary_normalize]; exact Hround.
Qed.

Lemma testbit_31_of_u32 (s m : Z) :
  0 <= s <= 1 -> 0 <= m < 2 ^ 31 ->
  Z.testbit (s * 2 ^ 31 + m) 31 = negb (s =? 0).
Proof.
  intros Hs Hm. rewrite Z.testbit_odd, Z.shiftr_div_pow2 by lia.
  replace ((s * 2 ^ 31 + m) / 2 ^ 31) with s
    by (Z.to_euclidean_division_equations; lia).
  assert (s = 0 \/ s = 1) as [-> | ->] by lia; reflexivity.
Qed.

(** The bit pattern of a float is read back as the float. *)
Lemma f32_bits_round_trip (x : spec_float) :
  valid_f32 x = true ->
  0 <= bits_of_f32 x < 2 ^ 32 /\ f32_of_bits (bits_of_f32 x) = x.
Proof.
  intros Hv. unfold bits_of_f32, f32_of_bits, bits_of_sf, sf_of_bits.
  destruct x as [s | s | | s m e]; cbv zeta.
  - destruct s; split; try reflexivity; cbn; lia.
  - destruct s; split; try reflexivity; cbn; lia.
  - split; [cbn; lia | reflexivity].
  - unfold valid_f32, valid_binary, bounded, canonical_mantissa, fexp, emin,
      F32.prec, F32.emax in Hv.
    apply andb_true_iff in Hv. destruct Hv as [Hc He].
    apply Z.eqb_eq in Hc. apply Z.leb_le in He.
    pose proof (digits2_pos_bounds m) as Hd.
    set (d := Zpos (digits2_pos m)) in *.
    assert (Hdpos : 0 < d) by (unfold d; lia).
    set (S := if s then 1 else 0).
    assert (HS : (if s then 2 ^ (23 + 8) else 0) = S * 2 ^ 31)
      by (unfold S; destruct s; reflexivity).
    assert (HS01 : 0 <= S <= 1) by (unfold S; destruct s; lia).
    assert (Hsign : negb (S =? 0) = s) by (unfold S; destruct s; reflexivity).
    rewrite HS.
    change (2 ^ 8 - 1) with (Z.ones 8). change (2 ^ 23 - 1) with (Z.ones 23).
    change (2 ^ (8 - 1) - 1) with 127. change (23 + 8) with 31.
    destruct (Z.ltb_spec (Zpos m) (2 ^ 23)) as [Hsub | Hnorm].
    + (* subnormal *)
      assert (Hd23 : d <= 23).
      { destruct (Z_le_gt_dec d 23) as [? | Hgt]; [assumption |].
        assert (2 ^ 23 <= 2 ^ (d - 1)) by (apply Z.pow_le_mono_r; lia). lia. }
      assert (Hexp : e = -149) by lia.
      split; [lia |].
      rewrite testbit_31_of_u32 by lia. rewrite Hsign.
      rewrite Z.shiftr_div_pow2, !Z.land_ones by lia.
      replace (((S * 2 ^ 31 + Zpos m) / 2 ^ 23) mod 2 ^ 8) with 0
        by (Z.to_euclidean_division_equations; lia).
      replace ((S * 2 ^ 31 + Zpos m) mod 2 ^ 23) with (Zpos m)
        by (Z.to_euclidean_division_equations; lia).
      cbn [Z.eqb]. rewrite Hexp. reflexivity.
    + (* normal *)
      assert (Hd24 : d = 24).
      { assert (23 < d).
        { destruct (Z_le_gt_dec d 23) as [Hle | ?]; [| lia].
          assert (2 ^ d <= 2 ^ 23) by (apply Z.pow_le_mono_r; lia). lia. }
        lia. }
      rewrite Hd24 in Hd. change (2 ^ (24 - 1)) with (2 ^ 23) in Hd.
      assert (Hexp : -149 <= e <= 104) by lia.
      rewrite Z.shiftl_mul_pow2 by lia.
      set (E := e + 127 + 23) in *.
      assert (HE : 1 <= E <= 254) by (unfold E; lia).
      split; [lia |].
      replace (S * 2 ^ 31 + E * 2 ^ 23 + (Zpos m - 2 ^ 23))
        with (S * 2 ^ 31 + (E * 2 ^ 23 + (Zpos m - 2 ^ 23))) by lia.
      rewrite testbit_31_of_u32 by lia. rewrite Hsign.
      rewrite Z.shiftr_div_pow2, !Z.land_ones by lia.
      replace (((S * 2 ^ 31 + (E * 2 ^ 23 + (Zpos m - 2 ^ 23))) / 2 ^ 23) mod 2 ^ 8)
        with E by (Z.to_euclidean_division_equations; lia).
      replace ((S * 2 ^ 31 + (E * 2 ^ 23 + (Zpos m - 2 ^ 23))) mod 2 ^ 23)
        with (Zpos m - 2 ^ 23) by (Z.to_euclidean_division_equations; lia).
      destruct (Z.eqb_spec E 0); [lia |].
      change (Z.ones 8) with 255. destruct (Z.eqb_spec E 255); [lia |].
      replace (Zpos m - 2 ^ 23 + 2 ^ 23) with (Zpos m) by lia.
      replace (E - 127 - 23) with e by (unfold E; lia). reflexivity.
Qed.

(** ** The round trip, field by field *)

Lemma encode_field_buf (f : field_def_t) (inputs : encode_inputs_t) (v : input_value_t)
      (buf : list byte) (pos : Z) (e : endian_t) :
  find_input inputs (fd_name f) = Some v ->
  let raw_val := reverse_modifiers f (input_f64 v) in
  let int_val := round_half_away raw_val in
  let endian := match fd_endian f with ENDIAN_DEFAULT => e | x => x end in
  buf_of (encode_field f inputs buf pos e)
  = match fd_type f with
    | FIELD_TYPE_U8 | FIELD_TYPE_S8 => buf_set buf pos (Z.land int_val 0xFF)
    | FIELD_TYPE_U16 | FIELD_TYPE_S16 => fst (write_int buf pos int_val 2 endian)
    | FIELD_TYPE_U24 | FIELD_TYPE_S24 => fst (write_int buf pos int_val 3 endian)
    | FIELD_TYPE_U32 | FIELD_TYPE_S32 => fst (write_int buf pos int_val 4 endian)
    | FIELD_TYPE_U64 | FIELD_TYPE_S64 => fst (write_int buf pos int_val 8 endian)
    | FIELD_TYPE_F32 =>
        fst (write_int buf pos (bits_of_f32 (f64_to_f32 raw_val)) 4 endian)
    | FIELD_TYPE_F64 => fst (write_int buf pos (to_i64 (bits_of_f64 raw_val)) 8 endian)
    | FIELD_TYPE_BOOL => buf_set buf pos (if int_val =? 0 then 0 else 1)
    | FIELD_TYPE_BITS =>
        buf_set buf pos (insert_bits (buf_at buf pos) int_val
                                     (fd_bit_start f) (fd_bit_width f))
    | FIELD_TYPE_SKIP => fst (write_zeros buf pos (Z.to_nat (fd_size f)))
    | FIELD_TYPE_UDEC => buf_set buf pos (udec_byte raw_val)
    | FIELD_TYPE_SDEC => buf_set buf pos (sdec_byte raw_val)
    | _ => buf
    end.
Proof.
  intros Hin. cbv zeta. unfold encode_field, buf_of. rewrite Hin.
  destruct (fd_type f); reflexivity.
Qed.

Lemma trip_field_inv (f : field_def_t) :
  trip_field f = true ->
  nonempty (fd_name f) = true /\ starts_with_underscore (fd_name f) = false
  /\ is_match (fd_type f) = false /\ is_skip (fd_type f) = false
  /\ encode_supported (fd_type f) = true.
Proof.
  unfold trip_field. intros H.
  apply andb_true_iff in H as [H Hty]. apply andb_true_iff in H as [Hn Hu].
  apply negb_true_iff in Hu.
  repeat split; try assumption; destruct (fd_type f); try reflexivity; discriminate.
Qed.

Lemma insert_bits_testbit (old z start width k : Z) :
  0 <= start -> 0 <= width -> start + width <= 8 -> 0 <= k < 8 ->
  Z.testbit (insert_bits old z start width) k
  = if in_bitfield start width k then Z.testbit z (k - start) else Z.testbit old k.
Proof.
  intros Hs Hw Hsw Hk. unfold insert_bits. cbv zeta.
  rewrite to_u8_lor_shl_i64, to_u8_shl_i32, bit_mask_small by lia.
  apply bits_byte_testbit; lia.
Qed.

Lemma extract_bits_of_bits (b z start width : Z) :
  0 <= start -> 0 <= width -> start + width <= 8 ->
  (forall k, 0 <= k < 8 -> in_bitfield start width k = true ->
             Z.testbit b k = Z.testbit z (k - start)) ->
  extract_bits b start width = z mod 2 ^ width.
Proof.
  intros Hs Hw Hsw Hbits. apply Z.bits_inj'. intros k Hk.
  rewrite extract_bits_testbit by lia.
  rewrite <- Z.land_ones, Z.land_spec, testbit_ones_range by lia.
  destruct (Z.leb_spec 0 k); [cbn [andb] | lia].
  destruct (Z.ltb_spec k width); rewrite ?andb_false_r, ?andb_true_r.
  - destruct (Z.ltb_spec k 8); [cbn [andb] | lia].
    rewrite Hbits.
    + f_equal. lia.
    + lia.
    + unfold in_bitfield.
      destruct (Z.leb_spec start (k + start)); [| lia].
      destruct (Z.ltb_spec (k + start) (start + width)); [reflexivity | lia].
  - reflexivity.
Qed.

Lemma encode_trip_field (f : field_def_t) (inputs : encode_inputs_t) (v : input_value_t)
      (buf : list byte) (pos : Z) (e : endian_t) :
  trip_field f = true ->
  find_input inputs (fd_name f) = Some v ->
  0 <= pos -> pos + encode_span f <= buf_len buf ->
  let r := encode_field f inputs buf pos e in
  rc_of r = SCHEMA_OK /\ pos_of r = pos + encode_width f
  /\ buf_len (buf_of r) = buf_len buf
  /\ (forall i, i < pos \/ pos + encode_span f <= i -> buf_at (buf_of r) i = buf_at buf i)
  /\ (fd_type f = FIELD_TYPE_BITS ->
      forall k, 0 <= k < 8 ->
                Z.testbit (buf_at (buf_of r) pos) k
                = if in_bitfield (fd_bit_start f) (fd_bit_width f) k
                  then Z.testbit (round_half_away (reverse_modifiers f (input_f64 v)))
                                 (k - fd_bit_start f)
                  else Z.testbit (buf_at buf pos) k).
Proof.
  intros Htrip Hin Hpos Hlen. cbv zeta.
  destruct (trip_field_inv f Htrip) as (_ & _ & _ & Hskip & Hsup).
  pose proof (encode_field_cases f inputs buf pos e) as Hc. cbv zeta in Hc.
  rewrite Hin, Hsup in Hc. destruct Hc as (Hl & Hrc & Hp).
  split; [exact Hrc |]. split; [exact Hp |].
  split; [unfold buf_len; rewrite Hl; reflexivity |].
  split.
  - intros i Hi. clear Hrc Hp Hl.
    unfold encode_field, encode_span, encode_width, buf_of in *.
    cbv beta zeta. rewrite Hin.
    destruct (fd_type f) eqn:Hty; cbn [is_skip fst snd] in *;
      try reflexivity;
      try (apply buf_at_buf_set_other; lia);
      try (apply write_zeros_frame; lia);
      apply write_int_frame; lia.
  - intros Hty k Hk.
    rewrite (encode_field_buf f inputs v buf pos e Hin), Hty.
    unfold encode_span in Hlen. rewrite Hty in Hlen.
    rewrite buf_at_buf_set_same by lia.
    unfold trip_field in Htrip. rewrite Hty in Htrip.
    repeat (apply andb_true_iff in Htrip as [Htrip ?]).
    assert (Hb : 0 <= insert_bits (buf_at buf pos)
                        (round_half_away (reverse_modifiers f (input_f64 v)))
                        (fd_bit_start f) (fd_bit_width f) < 256).
    { unfold insert_bits, to_u8. cbv zeta. apply Z.mod_pos_bound. lia. }
    rewrite Z.mod_small by exact Hb.
    apply insert_bits_testbit; lia.
Qed.

Lemma to_u64_to_i64 (x : Z) : to_u64 (to_i64 x) = to_u64 x.
Proof.
  unfold to_u64, to_i64, to_signed. change (2 ^ (64 - 1)) with (2 ^ 63).
  Z.to_euclidean_division_equations; lia.
Qed.

Lemma readers_same (b1 b2 : list byte) (pos n : Z) :
  (forall i, pos <= i < pos + n -> buf_at b1 i = buf_at b2 i) ->
  (1 <= n -> buf_at b1 pos = buf_at b2 pos)
  /\ (2 <= n -> read_u16_be b1 pos = read_u16_be b2 pos
               /\ read_u16_le b1 pos = read_u16_le b2 pos)
  /\ (3 <= n -> read_u24_be b1 pos = read_u24_be b2 pos
               /\ read_u24_le b1 pos = read_u24_le b2 pos)
  /\ (4 <= n -> read_u32_be b1 pos = read_u32_be b2 pos
               /\ read_u32_le b1 pos = read_u32_le b2 pos)
  /\ (8 <= n -> read_u64_be b1 pos = read_u64_be b2 pos
               /\ read_u64_le b1 pos = read_u64_le b2 pos).
Proof.
  intros H.
  repeat split; intros;
    unfold read_u64_be, read_u64_le, read_u32_be, read_u32_le, read_u24_be, read_u24_le,
      read_u16_be, read_u16_le;
    rewrite ?(H pos), ?(H (pos + 1)), ?(H (pos + 2)), ?(H (pos + 3)),
      ?(H (pos + 4)), ?(H (pos + 4 + 1)), ?(H (pos + 4 + 2)), ?(H (pos + 4 + 3)) by lia;
    reflexivity.
Qed.

Lemma decode_trip_field (f : field_def_t) (inputs : encode_inputs_t) (v : input_value_t)
      (buf : list byte) (pos : Z) (e : endian_t) (b : list byte) (vars : var_context_t) :
  trip_field f = true ->
  find_input inputs (fd_name f) = Some v ->
  0 <= pos -> pos + encode_span f <= buf_len buf -> pos + encode_span f <= buf_len b ->
  same_content f pos b (buf_of (encode_field f inputs buf pos e)) ->
  let d := decode_field f b pos vars e in
  fr_rc d = SCHEMA_OK /\ fr_pos d = pos + encode_width f /\ fr_out d = trip_entry f v.
Proof.
  intros Htrip Hin Hpos Hlen Hlenb Hsame.
  rewrite (encode_field_buf f inputs v buf pos e Hin) in Hsame. cbv zeta in Hsame.
  set (raw := reverse_modifiers f (input_f64 v)) in *.
  set (z := round_half_away raw) in *.
  set (endian := match fd_endian f with ENDIAN_DEFAULT => e | x => x end) in *.
  destruct (read_after_write_int buf pos z endian Hpos) as (H16 & H24 & H32).
  destruct (read_after_write_int buf pos (bits_of_f32 (f64_to_f32 raw)) endian Hpos)
    as (_ & _ & Hf32).
  pose proof (read_u64_after_write_int buf pos z endian Hpos) as H64.
  pose proof (read_u64_after_write_int buf pos (to_i64 (bits_of_f64 raw)) endian Hpos)
    as Hf64.
  unfold trip_field in Htrip.
  apply andb_true_iff in Htrip as [_ Htrip].
  unfold same_content, encode_span, encode_width in *.
  cbv zeta. unfold trip_entry, trip_value, decode_field. cbv zeta.
  fold raw z endian.
  destruct (fd_type f) eqn:Hty; try discriminate Htrip.
  all: try (destruct (fd_lookup f) eqn:Hlook; [| discriminate Htrip]).
  all: try match goal with
           | |- context [?a >? ?b] => destruct (Z.gtb_spec a b); [lia |]
           end.
  all: try (destruct (readers_same b _ pos _ Hsame) as (R8 & R16 & R24 & R32 & R64)).
  all: cbn [fr_rc fr_pos fr_out].
  all: try (split; [reflexivity |]; split; [reflexivity |]).
  all: try (split; [reflexivity |]).
  all: unfold wire_int, wrap_int; rewrite ?Hty; cbn [int_signed int_size].
  all: unfold read_u8, read_s8, read_s16_be, read_s16_le, read_s24_be, read_s24_le,
      read_s32_be, read_s32_le, read_s64_be, read_s64_le, read_f32_be, read_f32_le,
      read_f64_be, read_f64_le.
  all: try rewrite (R8 ltac:(lia)).
  all: try rewrite (proj1 (R16 ltac:(lia))); try rewrite (proj2 (R16 ltac:(lia))).
  all: try rewrite (proj1 (R24 ltac:(lia))); try rewrite (proj2 (R24 ltac:(lia))).
  all: try rewrite (proj1 (R32 ltac:(lia))); try rewrite (proj2 (R32 ltac:(lia))).
  all: try rewrite (proj1 (R64 ltac:(lia))); try rewrite (proj2 (R64 ltac:(lia))).
  all: try clear R8 R16 R24 R32 R64.
  all: try (destruct (is_big endian);
            rewrite ?H16, ?H24, ?H32, ?H64, ?Hf32, ?Hf64 by lia;
            rewrite ?buf_at_buf_set_same by lia;
            change 255 with 0xFF; rewrite ?land_0xFF;
            change 256 with (2 ^ 8); rewrite ?Z.mod_mod by lia;
            unfold to_i8, to_i16, to_i32, to_i64, to_u64, to_u32;
            rewrite ?sign_extend_24_mod;
            change (8 * 1) with 8; change (8 * 2) with 16; change (8 * 3) with 24;
            change (8 * 4) with 32;
            rewrite ?to_signed_mod by lia; reflexivity).
  - (* F64 *)
    destruct (is_big endian); rewrite Hf64 by lia; rewrite to_u64_to_i64; reflexivity.
  - (* BOOL *)
    apply andb_true_iff in Htrip as [Hstart Hcons]. apply Z.eqb_eq in Hstart.
    rewrite Hcons, Hstart. split; [reflexivity |].
    rewrite buf_at_buf_set_same by lia. do 2 f_equal.
    unfold shr_i32. change (0 mod 32) with 0. rewrite Z.shiftr_0_r.
    destruct (z =? 0); reflexivity.
  - (* BITS *)
    destruct (Z.geb_spec pos (buf_len b)); [lia |].
    cbn [fr_rc fr_pos fr_out]. split; [reflexivity |].
    split; [destruct (fd_consume f); lia |].
    repeat (apply andb_true_iff in Htrip as [Htrip ?]).
    do 4 f_equal. apply extract_bits_of_bits; try lia.
    intros k Hk Hfield. rewrite (Hsame k Hk Hfield).
    rewrite buf_at_buf_set_same by lia.
    assert (Hb : 0 <= insert_bits (buf_at buf pos) z (fd_bit_start f) (fd_bit_width f)
                 < 256).
    { unfold insert_bits, to_u8. cbv zeta. apply Z.mod_pos_bound. lia. }
    rewrite Z.mod_small by exact Hb.
    rewrite insert_bits_testbit by lia. rewrite Hfield. reflexivity.
  - (* UDEC *)
    rewrite buf_at_buf_set_same by lia.
    assert (Hb : udec_byte raw mod 256 = udec_byte raw).
    { unfold udec_byte, to_u8. cbv zeta. change 256 with (2 ^ 8).
      apply Z.mod_mod. lia. }
    rewrite Hb. reflexivity.
  - (* SDEC *)
    rewrite buf_at_buf_set_same by lia.
    assert (Hb : sdec_byte raw mod 256 = sdec_byte raw).
    { unfold sdec_byte, to_u8. cbv zeta. change 256 with (2 ^ 8).
      apply Z.mod_mod. lia. }
    rewrite Hb. reflexivity.
Qed.

(** ** The round trip, over the fields of a schema *)

Lemma payload_size_nonneg (fields : list field_def_t) : 0 <= payload_size fields.
Proof.
  unfold payload_size. induction fields as [| f rest IH]; cbn [map sum_Z fold_right].
  - lia.
  - pose proof (encode_width_bounds f). unfold sum_Z in IH. lia.
Qed.

(** A byte that holds bitfields is consumed before the schema ends. *)
Lemma bits_packed_closes (fields : list field_def_t) :
  forall (r : Z * Z) (used : list (Z * Z)),
    bits_packed (r :: used) fields = true -> 1 <= payload_size fields.
Proof.
  induction fields as [| f rest IH]; intros r used H; cbn [bits_packed] in H.
  - discriminate.
  - unfold payload_size. cbn [map sum_Z fold_right]. fold (sum_Z (map encode_width rest)).
    fold (payload_size rest).
    pose proof (payload_size_nonneg rest) as Hnn.
    unfold encode_width at 1.
    destruct (fd_type f); try discriminate H.
    apply andb_true_iff in H as [_ H].
    destruct (fd_consume f); [lia |].
    specialize (IH _ _ H). lia.
Qed.

Lemma stable_refl (used : list (Z * Z)) (pos : Z) (b : list byte) : stable used pos b b.
Proof. split; reflexivity. Qed.

Lemma used_bit_apart (used : list (Z * Z)) (start width k : Z) :
  forallb (bits_apart start width) used = true ->
  used_bit used k = true -> in_bitfield start width k = false.
Proof.
  unfold used_bit. intros Hall Hk.
  apply existsb_exists in Hk as (r & Hin & Hr).
  rewrite forallb_forall in Hall. specialize (Hall r Hin).
  unfold bits_apart, in_bitfield in *.
  apply andb_true_iff in Hr as [H1 H2]. apply Z.leb_le in H1. apply Z.ltb_lt in H2.
  apply orb_true_iff in Hall as [H | H]; apply Z.leb_le in H.
  - destruct (Z.leb_spec start k); destruct (Z.ltb_spec k (start + width));
      try reflexivity.
    (* the used field ends at or before [start]: k < fst r + snd r <= start *)
    lia.
  - destruct (Z.leb_spec start k); destruct (Z.ltb_spec k (start + width));
      try reflexivity.
    lia.
Qed.

Lemma trip_loop (schema : schema_t) (inputs : encode_inputs_t)
      (fields : list field_def_t) :
  forall (vs : list input_value_t) (used : list (Z * Z)) (buf : list byte) (pos : Z),
    Forall2 (field_input inputs) fields vs ->
    bits_packed used fields = true ->
    0 <= pos ->
    pos + payload_size fields <= buf_len buf ->
    (used <> [] -> pos < buf_len buf) ->
    exists bufN,
      encode_loop schema inputs fields buf pos
      = (SCHEMA_OK, bufN, pos + payload_size fields)
      /\ buf_len bufN = buf_len buf
      /\ stable used pos buf bufN
      /\ forall (b : list byte) (vars : var_context_t) (out : list decoded_field_t),
          pos + payload_size fields <= buf_len b ->
          (forall i, pos <= i < pos + payload_size fields ->
                     buf_at b i = buf_at bufN i) ->
          exists vars',
            decode_loop schema b fields
                        {| st_pos := pos; st_vars := vars; st_out := out |}
            = (SCHEMA_OK,
               {| st_pos := pos + payload_size fields; st_vars := vars';
                  st_out := out ++ trip_entries fields vs |}).
Proof.
  induction fields as [| f rest IH]; intros vs used buf pos Hall Hpack Hpos Hlen Hused.
  - inversion Hall; subst. exists buf.
    unfold payload_size. cbn [map sum_Z fold_right encode_loop decode_loop trip_entries].
    rewrite Z.add_0_r. split; [reflexivity |]. split; [reflexivity |].
    split; [apply stable_refl |].
    intros b vars out _ _. exists vars. rewrite app_nil_r. reflexivity.
  - inversion Hall as [| f' v rest' vs' [Htrip Hin] Hrest]; subst.
    destruct (trip_field_inv f Htrip) as (Hne & Hus & Hnm & Hns & Hsup).
    pose proof (payload_size_nonneg rest) as Hnn.
    pose proof (encode_width_bounds f) as [Hw0 _].
    assert (Hsize : payload_size (f :: rest) = encode_width f + payload_size rest)
      by reflexivity.
    rewrite Hsize in *.
    (* the packing of this field and of the rest *)
    assert (Hpack' :
              exists used',
                bits_packed used' rest = true
                /\ (fd_type f <> FIELD_TYPE_BITS -> used = [] /\ used' = [])
                /\ (fd_type f = FIELD_TYPE_BITS ->
                    forallb (bits_apart (fd_bit_start f) (fd_bit_width f)) used = true
                    /\ used' = (if fd_consume f then []
                                else (fd_bit_start f, fd_bit_width f) :: used))).
    { cbn [bits_packed] in Hpack.
      destruct (fd_type f) eqn:Hty;
        try (destruct used; [| discriminate Hpack];
             exists []; split; [exact Hpack |];
             split; [intros _; split; reflexivity | intros H; discriminate H]).
      apply andb_true_iff in Hpack as [Hap Hp].
      eexists. split; [exact Hp |].
      split; [intros H; contradiction | intros _; split; [exact Hap | reflexivity]]. }
    destruct Hpack' as (used' & Hp' & Hother & Hbits).
    assert (Hspan : pos + encode_span f <= buf_len buf).
    { unfold encode_span. destruct (fd_type f) eqn:Hty; try lia.
      destruct (Hbits eq_refl) as [_ Hu']. unfold encode_width in *. rewrite Hty in *.
      destruct (fd_consume f); [lia |].
      subst used'. pose proof (bits_packed_closes rest _ _ Hp'). lia. }
    destruct (encode_trip_field f inputs v buf pos (sc_endian schema)
                Htrip Hin Hpos Hspan) as (Hrc & Hpos1 & Hlen1 & Hframe & Hkeep).
    destruct (encode_field f inputs buf pos (sc_endian schema)) as [[rc buf1] pos1] eqn:Henc.
    unfold rc_of, pos_of, buf_of in Hrc, Hpos1, Hlen1, Hframe, Hkeep.
    cbn [fst snd] in Hrc, Hpos1, Hlen1, Hframe, Hkeep. subst rc pos1.
    assert (Hused' : used' <> [] -> pos + encode_width f < buf_len buf1).
    { intros Hne'. rewrite Hlen1.
      destruct used' as [| r used'']; [contradiction |].
      pose proof (bits_packed_closes rest _ _ Hp'). lia. }
    destruct (IH vs' used' buf1 (pos + encode_width f) Hrest Hp' ltac:(lia)
                 ltac:(rewrite Hlen1; lia) Hused')
      as (bufN & HencN & HlenN & [HstB HstK] & HdecN).
    exists bufN.
    split.
    { cbn [encode_loop]. fold (starts_with_underscore (fd_name f)).
      rewrite Hus, Hnm. cbn [orb]. rewrite Henc.
      change (negb (SCHEMA_OK =? SCHEMA_OK)) with false. cbv iota.
      rewrite HencN. f_equal. lia. }
    split; [congruence |].
    split.
    { split.
      - intros i Hi. rewrite <- HstB by lia. symmetry. apply Hframe. left. exact Hi.
      - intros k Hk Huk.
        assert (Hty : fd_type f = FIELD_TYPE_BITS).
        { destruct (fd_type f) eqn:Hty; try reflexivity;
            destruct (Hother ltac:(congruence)) as [-> _]; discriminate Huk. }
        destruct (Hbits Hty) as [Hap Hu'].
        pose proof (Hkeep Hty k Hk) as Hk1.
        rewrite (used_bit_apart _ _ _ _ Hap Huk) in Hk1. rewrite <- Hk1.
        unfold encode_width in HstB, HstK. rewrite Hty in HstB, HstK.
        destruct (fd_consume f).
        + rewrite (HstB pos) by lia. reflexivity.
        + rewrite Z.add_0_r in HstK. subst used'. apply HstK; [exact Hk |].
          cbn [used_bit existsb]. fold (used_bit used k). rewrite Huk.
          apply orb_true_r. }
    intros b vars out Hlenb Hsame.
    assert (Hcontent : same_content f pos b buf1).
    { unfold same_content.
      destruct (fd_type f) eqn:Hty;
        try (intros i Hi; rewrite Hsame by lia; symmetry; apply HstB; lia).
      intros k Hk Hfield.
      destruct (Hbits eq_refl) as [_ Hu'].
      assert (Hin_b : pos < pos + (encode_width f + payload_size rest)).
      { unfold encode_width. rewrite Hty.
        destruct (fd_consume f); [lia |]. subst used'.
        pose proof (bits_packed_closes rest _ _ Hp'). lia. }
      rewrite Hsame by lia.
      unfold encode_width in HstB, HstK. rewrite Hty in HstB, HstK.
      destruct (fd_consume f).
      - rewrite <- (HstB pos) by lia. reflexivity.
      - rewrite Z.add_0_r in HstK. subst used'. symmetry. apply HstK; [exact Hk |].
        cbn [used_bit existsb fst snd]. rewrite Hfield. reflexivity. }
    assert (Hspanb : pos + encode_span f <= buf_len b).
    { unfold encode_span. destruct (fd_type f) eqn:Hty; try lia.
      destruct (Hbits eq_refl) as [_ Hu']. unfold encode_width in *. rewrite Hty in *.
      destruct (fd_consume f); [lia |].
      subst used'. pose proof (bits_packed_closes rest _ _ Hp'). lia. }
    pose proof (decode_trip_field f inputs v buf pos (sc_endian schema) b vars
                  Htrip Hin Hpos Hspan Hspanb) as Hdec.
    rewrite Henc in Hdec. unfold buf_of in Hdec. cbn [fst snd] in Hdec.
    specialize (Hdec Hcontent). cbv zeta in Hdec. destruct Hdec as (Hdrc & Hdpos & Hdout).
    cbn [decode_loop].
    rewrite (decode_step_regular schema b f _ Hnm). cbv zeta. cbn [st_pos st_vars st_out].
    rewrite Hdrc. change (SCHEMA_OK =? SCHEMA_OK) with true. cbv iota.
    change (negb (SCHEMA_OK =? SCHEMA_OK)) with false. cbv iota.
    rewrite Hdpos, Hdout, Hne, Hus. cbn [trip_entry df_valid andb negb].
    destruct (HdecN b (fr_vars (decode_field f b pos vars (sc_endian schema)))
                    (out ++ [trip_entry f v])
                    ltac:(lia) ltac:(intros i Hi; apply Hsame; lia))
      as [vars' Hrun].
    exists vars'. rewrite Hrun.
    cbn [trip_entries]. rewrite <- app_assoc, Z.add_assoc. reflexivity.
Qed.
(** ** The inputs that come back as they are *)

Lemma unmodified_reverse (f : field_def_t) (x : spec_float) :
  unmodified f -> reverse_modifiers f x = x.
Proof.
  intros (Hm & Hd & Ha). unfold reverse_modifiers. rewrite Hm, Hd, Ha. reflexivity.
Qed.

Lemma unmodified_apply (f : field_def_t) (g : bool) (x : spec_float) :
  unmodified f -> apply_modifiers g f x = x.
Proof.
  intros (Hm & Hd & Ha). unfold apply_modifiers. rewrite Hm, Hd, Ha. reflexivity.
Qed.

Lemma plain_integer_expressible (f : field_def_t) (z : Z) :
  plain_integer f z -> expressible f (F64.of_Z z).
Proof.
  intros (Hint & Hun & Hwire & Hz).
  assert (H : integer_field f = true
              /\ exists z', wire_int f z' = z'
                            /\ F64.of_Z z = apply_modifiers true f (F64.of_Z z')
                            /\ round_half_away (reverse_modifiers f (F64.of_Z z)) = z').
  { split; [exact Hint |]. exists z. split; [exact Hwire |].
    rewrite unmodified_apply, unmodified_reverse by exact Hun.
    split; [reflexivity | apply round_of_integer; exact Hz]. }
  unfold expressible. unfold integer_field in Hint.
  destruct (fd_type f); try discriminate Hint; exact H.
Qed.

Lemma nibble_bytes_all (t : field_type_t) :
  all_below (fun b => implb (nibble_decimal t b)
                            (nibble_byte t (nibble_value t b) =? b)) 256 = true.
Proof. destruct t; vm_compute; reflexivity. Qed.

Lemma nibble_expressible (f : field_def_t) (b : Z) :
  fd_type f = FIELD_TYPE_UDEC \/ fd_type f = FIELD_TYPE_SDEC ->
  unmodified f ->
  0 <= b < 256 ->
  nibble_decimal (fd_type f) b = true ->
  expressible f (nibble_value (fd_type f) b).
Proof.
  intros Hty Hun Hb Hnib.
  pose proof (all_below_spec _ 256 (nibble_bytes_all (fd_type f)) b Hb) as Hall.
  cbv beta in Hall. rewrite Hnib in Hall. cbn [implb] in Hall. apply Z.eqb_eq in Hall.
  unfold expressible.
  destruct Hty as [Hty | Hty]; rewrite Hty in *; cbn [nibble_value nibble_byte] in *;
    exists b; rewrite unmodified_apply, unmodified_reverse by exact Hun; auto.
Qed.

Lemma expressible_trip (f : field_def_t) (x : spec_float) :
  expressible f x -> trip_value f x = V_f64 x.
Proof.
  unfold expressible, trip_value, integer_field. cbv zeta.
  destruct (fd_type f) eqn:Hty;
    try (intros [Hint (z & Hwire & Hx & Hround)];
         first [discriminate Hint
               | rewrite Hround, Hwire, <- Hx; reflexivity]).
  - (* F32 *)
    intros (Hun & y & Hy & ->). rewrite unmodified_reverse by exact Hun.
    rewrite f64_to_f32_of_f32 by exact Hy.
    destruct (f32_bits_round_trip y Hy) as [Hb Hbits].
    unfold to_u32. rewrite Z.mod_small by exact Hb. rewrite Hbits. reflexivity.
  - (* F64 *)
    intros (Hun & Hv). rewrite unmodified_reverse by exact Hun.
    destruct (f64_bits_round_trip x Hv) as [Hb Hbits].
    unfold to_u64. rewrite Z.mod_small by exact Hb. rewrite Hbits. reflexivity.
  - intros (b & Hb & Hx & Hbyte). rewrite Hbyte, <- Hx. reflexivity.
  - intros (b & Hb & Hx & Hbyte). rewrite Hbyte, <- Hx. reflexivity.
Qed.

Lemma bool_trip (f : field_def_t) (z : Z) :
  fd_type f = FIELD_TYPE_BOOL -> unmodified f -> - 2 ^ 52 < z < 2 ^ 52 ->
  trip_value f (F64.of_Z z) = V_b (negb (z =? 0)).
Proof.
  intros Hty Hun Hz. unfold trip_value. rewrite Hty. cbv zeta.
  rewrite unmodified_reverse by exact Hun.
  unfold round_half_away. rewrite round_of_integer by exact Hz. reflexivity.
Qed.

Lemma nth_firstn_low (l : list byte) :
  forall (k n : nat), (k < n)%nat -> nth k (firstn n l) x00 = nth k l x00.
Proof.
  induction l as [| x l IH]; intros k n Hkn.
  - rewrite firstn_nil. reflexivity.
  - destruct n as [| n]; [lia |]. destruct k as [| k]; cbn [firstn nth]; [reflexivity |].
    apply IH. lia.
Qed.

Lemma buf_at_firstn (l : list byte) (n : nat) (i : Z) :
  0 <= i < Z.of_nat n -> buf_at (firstn n l) i = buf_at l i.
Proof.
  intros Hi. unfold buf_at. destruct (Z.ltb_spec i 0); [lia |]. f_equal.
  apply nth_firstn_low. lia.
Qed.

Lemma schema_round_trip_gen (schema : schema_t) (inputs : encode_inputs_t)
      (vs : list input_value_t) :
  Forall2 (field_input inputs) (sc_fields schema) vs ->
  bits_packed [] (sc_fields schema) = true ->
  payload_size (sc_fields schema) <= SCHEMA_MAX_PAYLOAD ->
  exists enc,
    schema_encode schema inputs = (SCHEMA_OK, enc)
    /\ er_len enc = payload_size (sc_fields schema)
    /\ schema_decode schema (encoded_bytes enc)
       = (SCHEMA_OK,
          {| dr_fields := trip_entries (sc_fields schema) vs;
             dr_bytes_consumed := payload_size (sc_fields schema);
             dr_error_code := 0 |}).
Proof.
  intros Hall Hpack Hroom.
  pose proof (payload_size_nonneg (sc_fields schema)) as Hnn.
  set (total := payload_size (sc_fields schema)) in *.
  assert (Hzlen : buf_len zero_data = SCHEMA_MAX_PAYLOAD).
  { unfold buf_len, zero_data. rewrite repeat_length. unfold SCHEMA_MAX_PAYLOAD. lia. }
  destruct (trip_loop schema inputs (sc_fields schema) vs [] zero_data 0 Hall Hpack
              ltac:(lia) ltac:(fold total; lia) ltac:(congruence))
    as (bufN & Henc & HlenN & _ & Hdec).
  fold total in Henc, Hdec. rewrite Z.add_0_l in Henc.
  assert (Hi32 : to_i32 total = total).
  { unfold to_i32, to_signed, SCHEMA_MAX_PAYLOAD in *. rewrite Z.mod_small; lia. }
  unfold schema_encode. rewrite Henc. cbn [Z.eqb SCHEMA_OK negb].
  eexists. split; [reflexivity |]. cbn [er_len]. split; [exact Hi32 |].
  unfold encoded_bytes. cbn [er_len er_data]. rewrite Hi32.
  assert (Hblen : buf_len (firstn (Z.to_nat total) bufN) = total).
  { unfold buf_len in *. rewrite length_firstn. unfold SCHEMA_MAX_PAYLOAD in *. lia. }
  destruct (Hdec (firstn (Z.to_nat total) bufN) [] []
                 ltac:(rewrite Hblen; lia)
                 ltac:(intros i Hi; apply buf_at_firstn; lia))
    as [vars' Hrun].
  rewrite Z.add_0_l in Hrun.
  unfold schema_decode, decode_init. rewrite Hrun.
  cbn [Z.eqb SCHEMA_OK negb st_out st_pos app]. rewrite Hi32. reflexivity.
Qed.
(** ** The round trip of a schema *)

Lemma integer_expressible (f : field_def_t) (x : spec_float) (z : Z) :
  integer_field f = true ->
  wire_int f z = z ->
  x = apply_modifiers true f (F64.of_Z z) ->
  round_half_away (reverse_modifiers f x) = z ->
  expressible f x.
Proof.
  intros Hint Hwire Hx Hround.
  assert (H : integer_field f = true
              /\ exists z', wire_int f z' = z'
                            /\ x = apply_modifiers true f (F64.of_Z z')
                            /\ round_half_away (reverse_modifiers f x) = z')
    by (split; [exact Hint | exists z; auto]).
  unfold expressible. unfold integer_field in Hint.
  destruct (fd_type f); try discriminate Hint; exact H.
Qed.




(** Where the round trip ends.  Each of these schemas has its fields
    populated, and decoding what was encoded does not give the inputs
    back.
    - The encoder has no case for a half float.
    - A 64-bit integer from 2^52 on is moved by the encoder's half:
      2^52 + 1 comes back as 2^52 + 2, and 2^53 - 1 as 2^53.
    - A boolean is written as a whole byte and read at its bit: at bit 3
      the value 1 comes back false; and the encoder moves past the byte
      of a boolean that does not consume it, the decoder does not.
    - A field with a lookup table comes back as the string of the table.
    - The modifiers of a float, a double and a boolean field are
      reversed by the encoder and not applied by the decoder: with the
      addend 1 the value 5 comes back as 4.
    - A bitfield that leaves its byte to an integer is overwritten by
      it; one at the end of the schema is not in the payload; one that
      reaches past bit 7 loses its high bits; and two that overlap
      overwrite each other.
    - With the divisor 0 the decoder leaves the number as it is and the
      encoder multiplies it by 0.
    - The field with the empty name is encoded and decoded but not listed.
    - The case field of a match is decoded twice, once for the case and
      once as a field of the schema, and the payload has it once.
    - The byte A5 of an unsigned nibble decimal is read as 10.5, and the
      encoder writes 95 for 10.5. *)
Lemma round_trip_limits :
  fst (schema_encode (schema_of ENDIAN_BIG [field_f16 "t" ENDIAN_BIG])
                     [("t"%string, I_f64 (F64.of_Z 1))])
  = SCHEMA_ERR_UNSUPPORTED
  /\ (let schema := schema_of ENDIAN_BIG [field_u64 "n" ENDIAN_BIG] in
      trip_output schema (inputs_of [("n"%string, F64.of_Z (2 ^ 52 + 1))])
      = (SCHEMA_OK, [("n"%string, V_f64 (F64.of_Z (2 ^ 52 + 2)))])
      /\ trip_output schema (inputs_of [("n"%string, F64.of_Z (2 ^ 53 - 1))])
         = (SCHEMA_OK, [("n"%string, V_f64 (F64.of_Z (2 ^ 53)))]))
  /\ trip_output (schema_of ENDIAN_BIG [field_bool "on" 3 true])
                 (inputs_of [("on"%string, F64.of_Z 1)])
     = (SCHEMA_OK, [("on"%string, V_b false)])
  /\ trip_output (schema_of ENDIAN_BIG [field_bool "on" 0 false; field_u8 "n"])
                 (inputs_of [("on"%string, F64.of_Z 1); ("n"%string, F64.of_Z 7)])
     = (SCHEMA_OK, [("on"%string, V_b true); ("n"%string, V_f64 (F64.of_Z 1))])
  /\ trip_output (schema_of ENDIAN_BIG [field_add_lookup (field_u8 "mode") 1 "on"])
                 (inputs_of [("mode"%string, F64.of_Z 1)])
     = (SCHEMA_OK, [("mode"%string, V_str "on")])
  /\ trip_output (schema_of ENDIAN_BIG
                    [field_set_add (field_f32 "x" ENDIAN_BIG) (F64.of_Z 1)])
                 (inputs_of [("x"%string, F64.of_Z 5)])
     = (SCHEMA_OK, [("x"%string, V_f64 (F64.of_Z 4))])
  /\ trip_output (schema_of ENDIAN_BIG
                    [field_set_add (field_f64 "x" ENDIAN_BIG) (F64.of_Z 1)])
                 (inputs_of [("x"%string, F64.of_Z 5)])
     = (SCHEMA_OK, [("x"%string, V_f64 (F64.of_Z 4))])
  /\ trip_output (schema_of ENDIAN_BIG [field_set_add (field_bool "on" 0 true) (F64.of_Z 1)])
                 (inputs_of [("on"%string, F64.of_Z 1)])
     = (SCHEMA_OK, [("on"%string, V_b false)])
  /\ trip_output (schema_of ENDIAN_BIG [field_bits "a" 0 4 false; field_u8 "b"])
                 (inputs_of [("a"%string, F64.of_Z 5); ("b"%string, F64.of_Z 0)])
     = (SCHEMA_OK, [("a"%string, V_f64 (F64.of_Z 0)); ("b"%string, V_f64 (F64.of_Z 0))])
  /\ trip_output (schema_of ENDIAN_BIG [field_bits "a" 0 4 false])
                 (inputs_of [("a"%string, F64.of_Z 5)])
     = (SCHEMA_ERR_BUFFER, [])
  /\ trip_output (schema_of ENDIAN_BIG [field_bits "a" 6 4 true])
                 (inputs_of [("a"%string, F64.of_Z 15)])
     = (SCHEMA_OK, [("a"%string, V_f64 (F64.of_Z 3))])
  /\ trip_output (schema_of ENDIAN_BIG [field_bits "a" 0 4 false; field_bits "b" 2 4 true])
                 (inputs_of [("a"%string, F64.of_Z 15); ("b"%string, F64.of_Z 0)])
     = (SCHEMA_OK, [("a"%string, V_f64 (F64.of_Z 3)); ("b"%string, V_f64 (F64.of_Z 0))])
  /\ (let schema := schema_of ENDIAN_BIG [field_set_div (field_u8 "n") (F64.of_Z 0)] in
      output_of (snd (schema_decode schema [x05])) = [("n"%string, V_f64 (F64.of_Z 5))]
      /\ trip_output schema (inputs_of [("n"%string, F64.of_Z 5)])
         = (SCHEMA_OK, [("n"%string, V_f64 (F64.of_Z 0))]))
  /\ (let schema := schema_of ENDIAN_BIG [field_u8 ""] in
      encoded_bytes (snd (schema_encode schema (inputs_of [(""%string, F64.of_Z 5)])))
      = [x05]
      /\ trip_output schema (inputs_of [(""%string, F64.of_Z 5)]) = (SCHEMA_OK, []))
  /\ (let inputs := inputs_of [("msg_type"%string, F64.of_Z 1);
                               ("temperature"%string, F64.dec 2345 2);
                               ("humidity"%string, F64.of_Z 65)] in
      encoded_bytes (snd (schema_encode match_schema inputs)) = [x01; x09; x29; x41]
      /\ fst (trip_output match_schema inputs) = SCHEMA_ERR_BUFFER)
  /\ (let schema := schema_of ENDIAN_BIG
                      [mk_field "d" FIELD_TYPE_UDEC 1 0 0 false ENDIAN_DEFAULT] in
      output_of (snd (schema_decode schema [xa5]))
      = [("d"%string, V_f64 (udec_value 0xA5))]
      /\ trip_output schema (inputs_of [("d"%string, udec_value 0xA5)])
         = (SCHEMA_OK, [("d"%string, V_f64 (udec_value 0x95))])).
Proof. repeat split; vm_compute; reflexivity. Qed.
